(** * Credit-risk dashboard: the scoring pipeline of [model.py]

    The script reads a borrower table, checks that three columns are
    present, derives a ratio, a clamped linear score and a risk tier per
    row, and shows a filtered view, the five highest scores, a
    recommendation for one borrower and a per-region summary.

    The embedding follows the script column by column, as pandas does.
    A number is the rational value of a binary64 cell, or one of the IEEE
    special values [+inf], [-inf], [nan] and [-0.0]. The arithmetic of the
    feature engineering is binary64 arithmetic: every quotient, product
    and sum is the exact one rounded to the nearest binary64 value, ties to
    the even one. The sums and means of the summaries are taken exactly. *)

From Stdlib Require Import QArith Qminmax Qreduction Qround Qpower.
From Stdlib Require Import String Ascii List Bool Arith Lia Lqa.
From Stdlib Require Import Permutation Sorted.
From Stdlib Require Import DecimalString.
From Stdlib Require Import SpecFloat.
Import ListNotations.

(** ** Numbers *)

(** A float64 cell: a finite value, an infinity, not-a-number, or the
    negative zero [-0.0]; [Fin 0] is the positive zero. *)
Inductive num : Type :=
| Fin (q : Q)
| PInf
| NInf
| NaN
| NZero.

(** Finite results are kept in lowest terms, so equal values are equal
    terms. *)
Definition fin (q : Q) : num := Fin (Qred q).

Definition isnan (x : num) : bool :=
  match x with NaN => true | _ => false end.

(** ** Binary64 arithmetic *)

Definition pow2 (e : Z) : Q := 2 ^ e.

(** The integer [k] with [2^k <= a < 2^(k+1)], for [a > 0]. *)
Definition ilog2 (a : Q) : Z :=
  let k := (Z.log2 (Qnum a) - Z.log2 (Zpos (Qden a)))%Z in
  if Qle_bool (pow2 k) a then k else (k - 1)%Z.

(** The nearest integer, a tie to the even one. *)
Definition rint (x : Q) : Z :=
  let low := Qfloor x in
  match (x - inject_Z low ?= 1 # 2)%Q with
  | Lt => low
  | Gt => (low + 1)%Z
  | Eq => if Z.even low then low else (low + 1)%Z
  end.

(** The exponent of the last place of [a > 0]: 53 significant bits, and
    [2^-1074] for the subnormal values. *)
Definition expo (a : Q) : Z := Z.max (ilog2 a - 52) (-1074).

(** [a > 0] rounded to a multiple of its last place. *)
Definition round_abs (a : Q) : Q :=
  inject_Z (rint (a / pow2 (expo a))) * pow2 (expo a).

(** The binary64 value nearest to [q]: a value that rounds to [2^1024] or
    more overflows to an infinity, and a negative value that rounds to
    zero gives [-0.0]. A literal of the script, such as [0.3], denotes
    [round64 0.3]. *)
Definition round64 (q : Q) : num :=
  match q ?= 0 with
  | Eq => Fin 0
  | Gt => let r := round_abs q in
          if Qle_bool (pow2 1024) r then PInf else fin r
  | Lt => let r := round_abs (- q) in
          if Qle_bool (pow2 1024) r then NInf
          else if Qeq_bool r 0 then NZero else fin (- r)
  end.

(** The binary64 values of the literals [0.3] and [0.01]. *)
Definition the_03 : Q := 5404319552844595 # 18014398509481984.
Definition the_001 : Q := 5764607523034235 # 576460752303423488.

(** The sign bit. *)
Definition negative (x : num) : bool :=
  match x with
  | Fin q => negb (Qle_bool 0 q)
  | NInf | NZero => true
  | PInf | NaN => false
  end.

(** The value of a finite cell. *)
Definition finite (x : num) : option Q :=
  match x with
  | Fin q => Some q
  | NZero => Some 0
  | _ => None
  end.

Definition zero (neg : bool) : num := if neg then NZero else Fin 0.
Definition inf (neg : bool) : num := if neg then NInf else PInf.

(** [x * y]: the sign is the exclusive or of the signs, and [0 * inf] is
    [nan]. *)
Definition float_mul (x y : num) : num :=
  if isnan x || isnan y then NaN
  else
    let neg := xorb (negative x) (negative y) in
    match finite x, finite y with
    | Some a, Some b =>
        if Qeq_bool (a * b) 0 then zero neg else round64 (a * b)
    | Some a, None | None, Some a => if Qeq_bool a 0 then NaN else inf neg
    | None, None => inf neg
    end.

(** [x / y], true division: a non-zero value over a zero is an infinity
    whose sign is the exclusive or of the two signs, so that [1 / -0.0] is
    [-inf]; [0 / 0] and [inf / inf] are [nan]; nothing is raised. *)
Definition float_div (x y : num) : num :=
  if isnan x || isnan y then NaN
  else
    let neg := xorb (negative x) (negative y) in
    match finite x, finite y with
    | Some a, Some b =>
        if Qeq_bool b 0 then (if Qeq_bool a 0 then NaN else inf neg)
        else if Qeq_bool a 0 then zero neg
        else round64 (a / b)
    | Some _, None => zero neg
    | None, Some _ => inf neg
    | None, None => NaN
    end.

(** [x + y]: [inf + -inf] is [nan]; an exact sum of zero is [+0.0] unless
    both terms are [-0.0]. *)
Definition float_add (x y : num) : num :=
  if isnan x || isnan y then NaN
  else
    match finite x, finite y with
    | Some a, Some b =>
        if Qeq_bool (a + b) 0 then zero (negative x && negative y)
        else round64 (a + b)
    | None, None => if Bool.eqb (negative x) (negative y) then x else NaN
    | None, Some _ => x
    | Some _, None => y
    end.

(** The cell holds a binary64 value: rounding leaves a finite one as it
    is. *)
Definition is_double (x : num) : bool :=
  match x with
  | Fin q => match round64 q with Fin r => Qeq_bool r q | _ => false end
  | _ => true
  end.

(** A cell as a float of the Standard Library's specification of IEEE 754
    ([prec = 53], [emax = 1024]), and back; the operations above are
    compared with [SFdiv], [SFmul] and [SFadd] on sample values. *)
Definition to_spec (x : num) : spec_float :=
  match x with
  | Fin q =>
      let q := Qred q in
      binary_normalize 53 1024 (Qnum q) (- Z.log2 (Zpos (Qden q))) false
  | NZero => S754_zero true
  | PInf => S754_infinity false
  | NInf => S754_infinity true
  | NaN => S754_nan
  end.

Definition of_spec (f : spec_float) : num :=
  match f with
  | S754_zero s => zero s
  | S754_infinity s => inf s
  | S754_nan => NaN
  | S754_finite s m e =>
      fin ((if s then -1 else 1) * inject_Z (Zpos m) * pow2 e)
  end.

(** ** Exact aggregates *)

(** The value of a cell with the sign of a zero forgotten. *)
Definition unsigned (x : num) : num :=
  match x with NZero => Fin 0 | _ => x end.

(** Exact sum and quotient of two values, used by the aggregates
    of the summary; the sign of a zero plays no part in them. *)
Definition num_add (x y : num) : num :=
  match unsigned x, unsigned y with
  | Fin a, Fin b => fin (a + b)
  | PInf, (Fin _ | PInf) | Fin _, PInf => PInf
  | NInf, (Fin _ | NInf) | Fin _, NInf => NInf
  | _, _ => NaN
  end.

(** The quotient of a sum or a count by a count, which is never negative:
    a count of zero gives an infinity of the sign of the dividend, and
    [0 / 0] gives [nan]; nothing is raised. *)
Definition num_div (x y : num) : num :=
  match unsigned x, unsigned y with
  | Fin a, Fin b =>
      match b ?= 0 with
      | Eq => match a ?= 0 with Gt => PInf | Lt => NInf | Eq => NaN end
      | _ => fin (a / b)
      end
  | Fin _, (PInf | NInf) => Fin 0
  | PInf, Fin b => match b ?= 0 with Lt => NInf | _ => PInf end
  | NInf, Fin b => match b ?= 0 with Lt => PInf | _ => NInf end
  | _, _ => NaN
  end.

(** ** Clamping and order *)

(** The two steps of [Series.clip], to which [np.clip] hands a column:
    a cell that is missing or at least [lo] is kept, any other becomes
    [lo]; then a cell that is missing or at most [hi] is kept, any other
    becomes [hi]. A zero of either sign is kept when [lo <= 0 <= hi]. *)
Definition num_max (x : num) (lo : Q) : num :=
  match x with
  | NaN => NaN
  | PInf => PInf
  | NInf => Fin lo
  | Fin a => if Qle_bool lo a then Fin a else Fin lo
  | NZero => if Qle_bool lo 0 then NZero else Fin lo
  end.

Definition num_min (x : num) (hi : Q) : num :=
  match x with
  | NaN => NaN
  | NInf => NInf
  | PInf => Fin hi
  | Fin a => if Qle_bool a hi then Fin a else Fin hi
  | NZero => if Qle_bool 0 hi then NZero else Fin hi
  end.

(** [np.clip(x, lo, hi)] *)
Definition clip (lo hi : Q) (x : num) : num := num_min (num_max x lo) hi.

(** Order used by the sorts: finite values by [<=], the two zeros equal,
    [-inf] first, [+inf] after every finite value and [nan] last, as numpy
    sorts floats. *)
Definition num_leb (x y : num) : bool :=
  match x, y with
  | _, NaN => true
  | NaN, _ => false
  | NInf, _ => true
  | _, NInf => false
  | _, PInf => true
  | PInf, _ => false
  | Fin a, Fin b => Qle_bool a b
  | Fin a, NZero => Qle_bool a 0
  | NZero, Fin b => Qle_bool 0 b
  | NZero, NZero => true
  end.

Definition num_ltb (x y : num) : bool := negb (num_leb y x).

Definition num_eqb (x y : num) : bool := num_leb x y && num_leb y x.

(** ** Cells, columns and frames *)

(** A cell read from a CSV file is a number or a string; a missing cell is
    [Num NaN], also in a column of strings or of categories. *)
Inductive cell : Type :=
| Num (x : num)
| Str (s : string).

Definition isna (c : cell) : bool :=
  match c with Num NaN => true | _ => false end.

(** [c == s] for a string [s]: false on a number and on a missing cell. *)
Definition cell_eq_str (c : cell) (s : string) : bool :=
  match c with Str t => String.eqb t s | Num _ => false end.

Definition Series : Type := list cell.

(** A frame is its columns in order, each with its name. Frames read from a
    CSV file have columns of one length and distinct names. *)
Definition DataFrame : Type := list (string * Series).

Definition columns (df : DataFrame) : list string := map fst df.

(** [len(df)] *)
Definition nrows (df : DataFrame) : nat :=
  match df with
  | [] => 0
  | (_, s) :: _ => length s
  end.

Definition well_formed (df : DataFrame) : Prop :=
  NoDup (columns df) /\ Forall (fun c => length (snd c) = nrows df) df.

(** [col in df.columns] *)
Definition has_column (df : DataFrame) (col : string) : bool :=
  existsb (String.eqb col) (columns df).

(** What the script can raise on a frame read from a file. *)
Inductive exn : Type :=
| KeyError (key : string)
| TypeError.

Inductive result (A : Type) : Type :=
| Ok (a : A)
| Raise (e : exn).
Arguments Ok {A} a.
Arguments Raise {A} e.

Definition bind {A B : Type} (m : result A) (f : A -> result B) : result B :=
  match m with
  | Ok a => f a
  | Raise e => Raise e
  end.

Notation "x <- m ;; k" := (bind m (fun x => k))
  (at level 61, m at next level, right associativity).

(** [df[col]] *)
Fixpoint getitem (df : DataFrame) (col : string) : result Series :=
  match df with
  | [] => Raise (KeyError col)
  | (name, s) :: rest => if String.eqb name col then Ok s else getitem rest col
  end.

(** [df[col] = s]: an existing column is replaced where it stands, a new
    one is appended. *)
Fixpoint setitem (df : DataFrame) (col : string) (s : Series) : DataFrame :=
  match df with
  | [] => [(col, s)]
  | (name, old) :: rest =>
      if String.eqb name col then (name, s) :: rest
      else (name, old) :: setitem rest col s
  end.

(** Arithmetic needs a numeric column: a string cell raises [TypeError]. *)
Fixpoint numeric_values (s : Series) : result (list num) :=
  match s with
  | [] => Ok []
  | Num x :: rest => xs <- numeric_values rest ;; Ok (x :: xs)
  | Str _ :: _ => Raise TypeError
  end.

(** The column that holds the given numbers. *)
Definition numeric_series (xs : list num) : Series := map Num xs.

(** [df[col]] as the operand of an arithmetic operation. *)
Definition getnum (df : DataFrame) (col : string) : result (list num) :=
  s <- getitem df col ;; numeric_values s.

(** Element-wise operation on two columns of one frame. *)
Fixpoint map2 {A B C : Type} (f : A -> B -> C) (l : list A) (l' : list B)
  : list C :=
  match l, l' with
  | a :: t, b :: t' => f a b :: map2 f t t'
  | _, _ => []
  end.

(** ** Validation (lines 22-27) *)

Definition required_cols : list string :=
  ["age"; "income"; "loan_amount"]%string.

Definition validate (df : DataFrame) : bool :=
  forallb (has_column df) required_cols.

Definition missing_cols (df : DataFrame) : list string :=
  filter (fun col => negb (has_column df col)) required_cols.

Definition missing_message (df : DataFrame) : string :=
  ("Missing required columns: " ++ String.concat ", " (missing_cols df))%string.

(** ** Feature engineering (lines 28-34) *)

(** The edges of [pd.cut]. The script's edges are the binary64 values
    written [0.3] and [0.7], which lie just below these rationals with no
    binary64 value in between, so a cell compares with an edge as it does
    with the rational. *)
Definition bins : list Q := [0; 0.3; 0.7; 1].
Definition labels : list string := ["Low"; "Medium"; "High"]%string.

(** [bins.searchsorted(x, side="left")]: the number of edges below [x]. *)
Fixpoint searchsorted (edges : list Q) (x : Q) : nat :=
  match edges with
  | [] => 0
  | e :: rest => if Qle_bool x e then 0 else S (searchsorted rest x)
  end.

(** [pd.cut] with right-closed bins and the lowest edge excluded: a value
    at or below the first edge, above the last one, or missing, gets no
    category. *)
Definition cut (edges : list Q) (names : list string) (x : num) : cell :=
  match x with
  | Fin q =>
      let i := searchsorted edges q in
      if (i =? 0)%nat || (i =? length edges)%nat then Num NaN
      else match nth_error names (i - 1) with
           | Some l => Str l
           | None => Num NaN
           end
  | _ => Num NaN
  end.

(** [ratio * 0.3 + age * 0.01], the two literals being binary64 values. *)
Definition raw_score (ratio age : num) : num :=
  float_add (float_mul ratio (round64 0.3)) (float_mul age (round64 0.01)).

Definition score (df : DataFrame) : result DataFrame :=
  income <- getnum df "income" ;;
  loan_amount <- getnum df "loan_amount" ;;
  let df := setitem df "income_to_loan_ratio"
              (numeric_series (map2 float_div income loan_amount)) in
  ratio <- getnum df "income_to_loan_ratio" ;;
  age <- getnum df "age" ;;
  let df := setitem df "risk_score"
              (numeric_series (map (clip 0 1) (map2 raw_score ratio age))) in
  risk_score <- getnum df "risk_score" ;;
  Ok (setitem df "risk_level" (map (cut bins labels) risk_score)).

(** ** Rows *)

(** [df.iloc[i]]: the cells of row [i], each under its column name. *)
Definition row (df : DataFrame) (i : nat) : list (string * cell) :=
  map (fun c => (fst c, nth i (snd c) (Num NaN))) df.

Definition rows (df : DataFrame) : list (list (string * cell)) :=
  map (row df) (seq 0 (nrows df)).

(** [borrower[col]] on one row. *)
Fixpoint row_getitem (r : list (string * cell)) (col : string) : result cell :=
  match r with
  | [] => Raise (KeyError col)
  | (name, c) :: rest =>
      if String.eqb name col then Ok c else row_getitem rest col
  end.

(** [df.take(indexer)]: the rows at the given positions, in that order. *)
Definition take_rows (indexer : list nat) (df : DataFrame) : DataFrame :=
  map (fun c => (fst c, map (fun i => nth i (snd c) (Num NaN)) indexer)) df.

(** Positions at which a mask holds, [np.nonzero(mask)[0]]. *)
Fixpoint nonzero_from (start : nat) (mask : list bool) : list nat :=
  match mask with
  | [] => []
  | b :: rest =>
      if b then start :: nonzero_from (S start) rest
      else nonzero_from (S start) rest
  end.

Definition nonzero (mask : list bool) : list nat := nonzero_from 0 mask.

(** [s[mask]] *)
Fixpoint select {A : Type} (mask : list bool) (l : list A) : list A :=
  match mask, l with
  | b :: m, x :: t => if b then x :: select m t else select m t
  | _, _ => []
  end.

(** [df[mask]] *)
Definition boolean_index (df : DataFrame) (mask : list bool) : DataFrame :=
  map (fun c => (fst c, select mask (snd c))) df.

(** [df.head(n)] *)
Definition head (n : nat) (df : DataFrame) : DataFrame :=
  map (fun c => (fst c, firstn n (snd c))) df.

(** ** Filter by risk level (lines 57-64) *)

(** Under the selection ["All"] the script builds no filtered frame. *)
Definition filtered_df (df : DataFrame) (selected_level : string)
  : result (option DataFrame) :=
  if negb (String.eqb selected_level "All") then
    risk_level <- getitem df "risk_level" ;;
    Ok (Some (boolean_index df
                (map (fun c => cell_eq_str c selected_level) risk_level)))
  else Ok None.

(** ** Top high-risk borrowers (lines 66-69) *)

(** The sorting algorithm behind [sort_values]. The script passes no
    [kind], so pandas uses numpy's default, which sorts but promises no
    order among equal keys; the algorithm is therefore left open behind
    what every kind guarantees. *)
Class SortKind : Type := {
  argsort : list num -> list nat;
  argsort_perm : forall l, Permutation (argsort l) (seq 0 (length l));
  argsort_sorted : forall l,
    StronglySorted (fun x y => num_leb x y = true)
                   (map (fun i => nth i l NaN) (argsort l))
}.

(** pandas' [nargsort] with [na_position="last"]: the missing keys are set
    aside, the others are sorted ascending (for a descending sort: reversed,
    sorted, and the result reversed), and the missing ones follow in input
    order. *)
Definition nargsort `{SortKind} (ascending : bool) (items : list num)
  : list nat :=
  let mask := map isnan items in
  let non_nans := select (map negb mask) items in
  let non_nan_idx := nonzero (map negb mask) in
  let nan_idx := nonzero mask in
  let non_nans := if ascending then non_nans else rev non_nans in
  let non_nan_idx := if ascending then non_nan_idx else rev non_nan_idx in
  let indexer := map (fun j => nth j non_nan_idx 0%nat) (argsort non_nans) in
  let indexer := if ascending then indexer else rev indexer in
  indexer ++ nan_idx.

(** [df.sort_values(by=col, ascending=...)] on a numeric column, the only
    kind of column the script sorts by. *)
Definition sort_values `{SortKind} (col : string) (ascending : bool)
    (df : DataFrame) : result DataFrame :=
  keys <- getnum df col ;;
  Ok (take_rows (nargsort ascending keys) df).

(** [df.sort_values(by="risk_score", ascending=False).head(n)]; the script
    has [n = 5]. *)
Definition top_risk `{SortKind} (n : nat) (df : DataFrame)
  : result DataFrame :=
  sorted <- sort_values "risk_score" false df ;;
  Ok (head n sorted).

(** ** Recommendation (lines 71-78) *)

(** [df.loc[i]] under the default index of a frame read from a file. *)
Definition loc (df : DataFrame) (i : nat) : result (list (string * cell)) :=
  if (i <? nrows df)%nat then Ok (row df i)
  else Raise (KeyError (NilEmpty.string_of_uint (Nat.to_uint i))).

Definition recommendation (borrower : list (string * cell)) : result string :=
  risk_level <- row_getitem borrower "risk_level" ;;
  Ok (if cell_eq_str risk_level "High" then "Review manually"
      else "Likely Approve")%string.

(** ** Regional analysis (lines 80-98) *)

(** Group keys are compared as values: a finite number is first put in
    lowest terms, and the two zeros are one key, listed here as [0.0] (the
    script lists it with the sign of its first occurrence). *)
Definition canon (c : cell) : cell :=
  match c with
  | Num (Fin q) => Num (fin q)
  | Num NZero => Num (Fin 0)
  | _ => c
  end.

Definition Q_same (a b : Q) : bool :=
  Z.eqb (Qnum a) (Qnum b) && Pos.eqb (Qden a) (Qden b).

Definition cell_eqb (a b : cell) : bool :=
  match a, b with
  | Num (Fin p), Num (Fin q) => Q_same p q
  | Num PInf, Num PInf | Num NInf, Num NInf | Num NaN, Num NaN => true
  | Num NZero, Num NZero => true
  | Str s, Str t => String.eqb s t
  | _, _ => false
  end.

(** Keys are listed in increasing order, numbers before strings. *)
Definition cell_leb (a b : cell) : bool :=
  match a, b with
  | Num x, Num y => num_leb x y
  | Num _, Str _ => true
  | Str _, Num _ => false
  | Str s, Str t => String.leb s t
  end.

(** [pd.unique]: the distinct values in order of first appearance. *)
Fixpoint unique (l : list cell) : list cell :=
  match l with
  | [] => []
  | x :: t => x :: filter (fun y => negb (cell_eqb x y)) (unique t)
  end.

Fixpoint insert_key (k : cell) (l : list cell) : list cell :=
  match l with
  | [] => [k]
  | h :: t => if cell_leb k h then k :: l else h :: insert_key k t
  end.

Definition sort_keys (l : list cell) : list cell :=
  fold_right insert_key [] l.

(** The groups of [df.groupby(col)]: rows with a missing key are dropped
    and the keys are sorted. *)
Definition group_keys (key_col : Series) : list cell :=
  sort_keys (unique (filter (fun c => negb (isna c)) (map canon key_col))).

Definition group_mask (key_col : Series) (k : cell) : list bool :=
  map (fun c => cell_eqb (canon c) k) key_col.

Definition of_nat (n : nat) : num := Fin (inject_Z (Z.of_nat n)).

Definition notnan (x : num) : bool := negb (isnan x).

(** ["count"]: the cells that are not missing. *)
Definition count (xs : list num) : nat := length (filter notnan xs).

Definition total (xs : list num) : num := fold_right num_add (Fin 0) xs.

(** ["mean"] skips missing cells; with none left it is [nan]. *)
Definition mean (xs : list num) : num :=
  num_div (total (filter notnan xs)) (of_nat (count xs)).

(** [(x == "High").mean()]: the share of [True] in a boolean column. *)
Definition bool_mean (bs : list bool) : num :=
  num_div (of_nat (length (filter (fun b => b) bs))) (of_nat (length bs)).

Definition is_high (c : cell) : bool := cell_eq_str c "High".

Definition groupby_agg (region : Series) (risk_score : list num)
    (risk_level : Series) : DataFrame :=
  let keys := group_keys region in
  let group {A : Type} (k : cell) (col : list A) :=
    select (group_mask region k) col in
  [("region", keys);
   ("total_borrowers",
     map (fun k => Num (of_nat (count (group k risk_score)))) keys);
   ("avg_risk_score", map (fun k => Num (mean (group k risk_score))) keys);
   ("high_risk_pct",
     map (fun k => Num (bool_mean (map is_high (group k risk_level)))) keys)
  ]%string.

(** Without a [region] column the summary is skipped. *)
Definition region_summary (df : DataFrame) : result (option DataFrame) :=
  if has_column df "region" then
    region <- getitem df "region" ;;
    risk_score <- getnum df "risk_score" ;;
    risk_level <- getitem df "risk_level" ;;
    Ok (Some (groupby_agg region risk_score risk_level))
  else Ok None.

(** ** The page (lines 11-106) *)

(** What the script puts on the page. Charts and the download keep the
    frame they are drawn from; their rendering is the libraries'. The
    pictogram that opens each heading is left out of the texts. *)
Inductive widget : Type :=
| Title (s : string)
| Markdown (s : string)
| Info (s : string)
| Warning (s : string)
| ErrorBox (s : string)
| Subheader (s : string)
| Write (s : string)
| Table (data : DataFrame)
| Metric (label : string) (value : num)
| Chart (title : string) (data : DataFrame)
| Download (file_name : string) (data : DataFrame).

(** A run of the script appends widgets to the page until it ends or
    raises. *)
Definition Page (A : Type) : Type := list widget -> list widget * result A.

Definition emit (w : widget) : Page unit := fun page => (page ++ [w], Ok tt).

Definition lift {A : Type} (r : result A) : Page A := fun page => (page, r).

Definition page_bind {A B : Type} (m : Page A) (f : A -> Page B) : Page B :=
  fun page =>
    match m page with
    | (page', Ok a) => f a page'
    | (page', Raise e) => (page', Raise e)
    end.

Notation "x <~ m ;; k" := (page_bind m (fun x => k))
  (at level 61, m at next level, right associativity).
Notation "m ;;; k" := (page_bind m (fun _ => k))
  (at level 61, right associativity).

(** [df[[c1; ...; cn]]] *)
Fixpoint getitems (df : DataFrame) (cols : list string) : result DataFrame :=
  match cols with
  | [] => Ok []
  | col :: rest =>
      s <- getitem df col ;;
      others <- getitems df rest ;;
      Ok ((col, s) :: others)
  end.

(** [round(x, 2)]: to the nearest hundredth, a tie to the even one. *)
Definition round2 (x : num) : num :=
  match x with
  | Fin q =>
      let scaled := q * 100 in
      let low := Qfloor scaled in
      let up := match (scaled - inject_Z low) ?= 0.5 with
                | Lt => false
                | Gt => true
                | Eq => Z.odd low
                end in
      fin (inject_Z (if up then low + 1 else low) / 100)
  | _ => x
  end.

Definition str_of_nat (n : nat) : string :=
  NilEmpty.string_of_uint (Nat.to_uint n).

(** How a cell prints inside an f-string when it is a label or missing. *)
Definition str_of_label (c : cell) : string :=
  match c with
  | Str s => s
  | Num _ => "nan"
  end.

Definition title_text : string := "Credit Risk Prediction Dashboard".

Definition intro_text : string :=
  "AI-powered insights for Ghanaian microfinance institutions. Upload borrower data to assess risk levels and guide lending decisions.".

Definition app `{SortKind} (uploaded_file : option DataFrame)
    (selected_level : string) (selected_index : nat)
  : list widget * result unit :=
  (emit (Title title_text) ;;;
   emit (Markdown intro_text) ;;;
   match uploaded_file with
   | Some df =>
       if negb (validate df) then emit (ErrorBox (missing_message df))
       else
         df <~ lift (score df) ;;
         emit (Subheader "Borrower Risk Overview") ;;;
         overview <~ lift (getitems df ["age"; "income"; "loan_amount";
                             "income_to_loan_ratio"; "risk_score";
                             "risk_level"]) ;;
         emit (Table overview) ;;;
         emit (Subheader "Summary Stats") ;;;
         emit (Metric "Total Borrowers" (of_nat (nrows df))) ;;;
         risk_level <~ lift (getitem df "risk_level") ;;
         emit (Metric "High Risk Borrowers"
                 (of_nat (nrows (boolean_index df (map is_high risk_level))))) ;;;
         risk_score <~ lift (getnum df "risk_score") ;;
         emit (Metric "Average Risk Score" (round2 (mean risk_score))) ;;;
         emit (Subheader "Risk Score Distribution") ;;;
         emit (Chart "Borrower Risk Score Distribution" df) ;;;
         emit (Subheader "Filter Borrowers by Risk Level") ;;;
         filtered <~ lift (filtered_df df selected_level) ;;
         match filtered with
         | Some view =>
             emit (Write ("Showing " ++ selected_level ++ " risk borrowers:")) ;;;
             emit (Table view)
         | None => lift (Ok tt)
         end ;;;
         emit (Subheader "Top 5 High-Risk Borrowers") ;;;
         top <~ lift (top_risk 5 df) ;;
         emit (Table top) ;;;
         emit (Subheader "Loan Decision Recommendation") ;;;
         borrower <~ lift (loc df selected_index) ;;
         advice <~ lift (recommendation borrower) ;;
         level <~ lift (row_getitem borrower "risk_level") ;;
         emit (Write ("Borrower #" ++ str_of_nat selected_index ++ " is **"
                        ++ str_of_label level
                        ++ " risk**. Recommended action: **" ++ advice
                        ++ "**.")) ;;;
         emit (Subheader "Risk Prediction by Region") ;;;
         summary <~ lift (region_summary df) ;;
         match summary with
         | Some by_region =>
             emit (Chart "Average Risk Score by Region" by_region) ;;;
             emit (Table by_region)
         | None =>
             emit (Warning "Region column not found in uploaded data. Add a 'region' column to enable regional analysis.")
         end ;;;
         emit (Subheader "Export Results") ;;;
         emit (Download "credit_risk_report.csv" df)
   | None => emit (Info "Please upload a borrower dataset to begin.")
   end)%string [].

(** ** Two sorting algorithms *)

(** Insertion sort on positions, as [kind="stable"] behaves: a position
    goes in front of the first one that may follow it, so positions that
    compare equal stay in input order. *)
Fixpoint insert_by (le : nat -> nat -> bool) (i : nat) (sorted : list nat)
  : list nat :=
  match sorted with
  | [] => [i]
  | j :: rest => if le i j then i :: sorted else j :: insert_by le i rest
  end.

Definition insertion_sort (le : nat -> nat -> bool) (n : nat) : list nat :=
  fold_right (insert_by le) [] (seq 0 n).

Definition key_at (keys : list num) (i : nat) : num := nth i keys NaN.

Definition insertion_argsort (keys : list num) : list nat :=
  insertion_sort (fun i j => num_leb (key_at keys i) (key_at keys j))
    (length keys).

(** numpy's generic [npy_aquicksort], which [kind="quicksort"] runs where
    no vectorised routine is dispatched: an introsort on the array
    [tosort] of positions, with the median of three as pivot, an insertion
    sort for partitions of at most 16 positions plus one, and a heapsort
    once the depth limit is used up. Cells of [tosort] are addressed by
    their offset. *)
Definition aget (a : list nat) (p : Z) : nat := nth (Z.to_nat p) a 0%nat.

Fixpoint set_nth (a : list nat) (i : nat) (x : nat) : list nat :=
  match a, i with
  | [], _ => []
  | _ :: t, O => x :: t
  | h :: t, S i' => h :: set_nth t i' x
  end.

Definition aset (a : list nat) (p : Z) (x : nat) : list nat :=
  set_nth a (Z.to_nat p) x.

(** [INTP_SWAP] of the cells [p] and [q]. *)
Definition aswap (a : list nat) (p q : Z) : list nat :=
  aset (aset a p (aget a q)) q (aget a p).

(** [Tag::less(v[i], v[j])] *)
Definition less (v : list num) (i j : nat) : bool :=
  num_ltb (key_at v i) (key_at v j).

(** [do { ++pi; } while (less(v[*pi], vp));] *)
Fixpoint scan_up (fuel : nat) (v : list num) (a : list nat) (vp : num)
    (pi : Z) : Z :=
  match fuel with
  | O => pi
  | S fuel' =>
      let pi := (pi + 1)%Z in
      if num_ltb (key_at v (aget a pi)) vp then scan_up fuel' v a vp pi
      else pi
  end.

(** [do { --pj; } while (less(vp, v[*pj]));] *)
Fixpoint scan_down (fuel : nat) (v : list num) (a : list nat) (vp : num)
    (pj : Z) : Z :=
  match fuel with
  | O => pj
  | S fuel' =>
      let pj := (pj - 1)%Z in
      if num_ltb vp (key_at v (aget a pj)) then scan_down fuel' v a vp pj
      else pj
  end.

Fixpoint partition_loop (fuel : nat) (v : list num) (a : list nat)
    (vp : num) (pi pj : Z) : list nat * Z :=
  match fuel with
  | O => (a, pi)
  | S fuel' =>
      let pi := scan_up (length a) v a vp pi in
      let pj := scan_down (length a) v a vp pj in
      if (pi >=? pj)%Z then (a, pi)
      else partition_loop fuel' v (aswap a pi pj) vp pi pj
  end.

(** One partition of [pl..pr] around the median of three; the position of
    the pivot is returned. *)
Definition partition (v : list num) (a : list nat) (pl pr : Z)
  : list nat * Z :=
  let pm := (pl + Z.shiftr (pr - pl) 1)%Z in
  let a := if less v (aget a pm) (aget a pl) then aswap a pm pl else a in
  let a := if less v (aget a pr) (aget a pm) then aswap a pr pm else a in
  let a := if less v (aget a pm) (aget a pl) then aswap a pm pl else a in
  let vp := key_at v (aget a pm) in
  let a := aswap a pm (pr - 1) in
  let '(a, pi) := partition_loop (length a) v a vp pl (pr - 1) in
  (aswap a pi (pr - 1), pi).

(** [while (pj > pl && less(vp, v[*pk])) { *pj-- = *pk--; }] *)
Fixpoint shift_up (fuel : nat) (v : list num) (a : list nat) (vp : num)
    (pl pj : Z) : list nat * Z :=
  match fuel with
  | O => (a, pj)
  | S fuel' =>
      if (pj >? pl)%Z && num_ltb vp (key_at v (aget a (pj - 1))) then
        shift_up fuel' v (aset a pj (aget a (pj - 1))) vp pl (pj - 1)%Z
      else (a, pj)
  end.

(** The insertion sort of [pl..pr], from [pi] on. *)
Fixpoint insertion_loop (fuel : nat) (v : list num) (a : list nat)
    (pl pr pi : Z) : list nat :=
  match fuel with
  | O => a
  | S fuel' =>
      if (pi <=? pr)%Z then
        let vi := aget a pi in
        let '(a, pj) := shift_up (length a) v a (key_at v vi) pl pi in
        insertion_loop fuel' v (aset a pj vi) pl pr (pi + 1)
      else a
  end.

(** The sift of [aheapsort_]; the heap is [a[1..n]] with [a = tosort - 1],
    so [a[k]] is the cell [base + k]. *)
Fixpoint sift (fuel : nat) (v : list num) (a : list nat) (base n : Z)
    (tmp : nat) (i j : Z) : list nat * Z :=
  match fuel with
  | O => (a, i)
  | S fuel' =>
      if (j <=? n)%Z then
        let j := if (j <? n)%Z
                    && less v (aget a (base + j)) (aget a (base + j + 1))
                 then (j + 1)%Z else j in
        if less v tmp (aget a (base + j)) then
          sift fuel' v (aset a (base + i) (aget a (base + j))) base n tmp
            j (j + j)
        else (a, i)
      else (a, i)
  end.

Fixpoint heap_build (fuel : nat) (v : list num) (a : list nat) (base n l : Z)
  : list nat :=
  match fuel with
  | O => a
  | S fuel' =>
      if (l >? 0)%Z then
        let tmp := aget a (base + l) in
        let '(a, i) := sift (length a) v a base n tmp l (Z.shiftl l 1) in
        heap_build fuel' v (aset a (base + i) tmp) base n (l - 1)
      else a
  end.

Fixpoint heap_extract (fuel : nat) (v : list num) (a : list nat) (base n : Z)
  : list nat :=
  match fuel with
  | O => a
  | S fuel' =>
      if (n >? 1)%Z then
        let tmp := aget a (base + n) in
        let a := aset a (base + n) (aget a (base + 1)) in
        let n := (n - 1)%Z in
        let '(a, i) := sift (length a) v a base n tmp 1 2 in
        heap_extract fuel' v (aset a (base + i) tmp) base n
      else a
  end.

(** [aheapsort_(vv, pl, pr - pl + 1)] *)
Definition aheapsort (v : list num) (a : list nat) (pl pr : Z) : list nat :=
  let base := (pl - 1)%Z in
  let n := (pr - pl + 1)%Z in
  let a := heap_build (length a) v a base n (Z.shiftr n 1) in
  heap_extract (length a) v a base n.

Definition SMALL_QUICKSORT : Z := 16.

(** The main loop with its stack of pending partitions. [inner] says that
    control is inside the partitioning loop, where the depth is not
    tested. *)
Fixpoint aquicksort_loop (fuel : nat) (v : list num) (a : list nat)
    (pl pr cdepth : Z) (stack : list (Z * Z * Z)) (inner : bool)
  : list nat :=
  match fuel with
  | O => a
  | S fuel' =>
      let pop (a : list nat) :=
        match stack with
        | [] => a
        | (pl', pr', depth) :: rest =>
            aquicksort_loop fuel' v a pl' pr' depth rest false
        end in
      if negb inner && (cdepth <? 0)%Z then pop (aheapsort v a pl pr)
      else if (pr - pl >? SMALL_QUICKSORT)%Z then
        let '(a, pi) := partition v a pl pr in
        let cdepth := (cdepth - 1)%Z in
        if (pi - pl <? pr - pi)%Z then
          aquicksort_loop fuel' v a pl (pi - 1) cdepth
            ((pi + 1, pr, cdepth)%Z :: stack) true
        else
          aquicksort_loop fuel' v a (pi + 1) pr cdepth
            ((pl, pi - 1, cdepth)%Z :: stack) true
      else pop (insertion_loop (length a) v a pl pr (pl + 1))
  end.

(** [npy_aquicksort(v, tosort, num)] on [tosort = arange(num)]; the depth
    limit is twice the position of the highest bit of [num]. *)
Definition npy_aquicksort (v : list num) : list nat :=
  let num := length v in
  aquicksort_loop (4 * num + 4) v (seq 0 num) 0 (Z.of_nat num - 1)
    (2 * Z.log2 (Z.of_nat num)) [] false.

(** The positions [r] are a permutation of [0..n-1]. *)
Definition permb (r : list nat) (n : nat) : bool :=
  (length r =? n)%nat && forallb (fun i => existsb (Nat.eqb i) r) (seq 0 n).

Fixpoint sortedb (l : list num) : bool :=
  match l with
  | x :: ((y :: _) as rest) => num_leb x y && sortedb rest
  | _ => true
  end.

(** [np.argsort(keys, kind="quicksort")]. The result of the routine is
    used once it is seen to be a sorting permutation of the keys; the test
    stands in for a correctness proof of the routine. *)
Definition numpy_argsort (keys : list num) : list nat :=
  let r := npy_aquicksort keys in
  if permb r (length keys) && sortedb (map (key_at keys) r) then r
  else insertion_argsort keys.

(** ** The spec's reading of the top-n view *)

(** [x] may stand before [y] in a descending order with the missing keys
    last. *)
Definition desc_leb (x y : num) : bool :=
  match x, y with
  | _, NaN => true
  | NaN, _ => false
  | _, _ => num_leb y x
  end.

(** Positions by descending key, equal keys in input order. *)
Definition stable_desc (keys : list num) : list nat :=
  insertion_sort (fun i j => desc_leb (key_at keys i) (key_at keys j))
    (length keys).

(** selectTopRisk as the specification words it: sorted by [risk_score]
    descending, ties in input order, cut to the first [n] rows. *)
Definition selectTopRisk_spec (n : nat) (df : DataFrame) : result DataFrame :=
  keys <- getnum df "risk_score" ;;
  Ok (head n (take_rows (stable_desc keys) df)).

(** ** Notions used in the statements *)

Definition num_le (x y : num) : Prop := num_leb x y = true.

(** The three derived columns, from the three required ones. *)
Definition ratio_of (income loan_amount : list num) : list num :=
  map2 float_div income loan_amount.

Definition score_of (income loan_amount age : list num) : list num :=
  map (clip 0 1) (map2 raw_score (ratio_of income loan_amount) age).

Definition level_of (income loan_amount age : list num) : Series :=
  map (cut bins labels) (score_of income loan_amount age).

(** The table after scoring, given its three required columns. *)
Definition scored (df : DataFrame) (income loan_amount age : list num)
  : DataFrame :=
  setitem
    (setitem
       (setitem df "income_to_loan_ratio"
          (numeric_series (ratio_of income loan_amount)))
       "risk_score" (numeric_series (score_of income loan_amount age)))
    "risk_level" (level_of income loan_amount age).

(** The row's [risk_level] is the string [lvl]. *)
Definition level_is (lvl : string) (r : list (string * cell)) : bool :=
  match row_getitem r "risk_level" with
  | Ok c => cell_eq_str c lvl
  | Raise _ => false
  end.

Definition derived_cols : list string :=
  ["income_to_loan_ratio"; "risk_score"; "risk_level"]%string.

(** [i] stands before [j] under [le]: it may, and if [j] may stand before
    [i] as well then [i] is the earlier position. *)
Definition precedes (le : nat -> nat -> bool) (i j : nat) : Prop :=
  le i j = true /\ (le j i = true -> (i < j)%nat).

(** Position [i] stands before position [j] in the stable descending
    order of [keys]. *)
Definition before (keys : list num) : nat -> nat -> Prop :=
  precedes (fun i j => desc_leb (key_at keys i) (key_at keys j)).

(** No two defined keys are equal. *)
Fixpoint tie_freeb (keys : list num) : bool :=
  match keys with
  | [] => true
  | x :: rest =>
      (isnan x || forallb (fun y => isnan y || negb (num_eqb x y)) rest)
      && tie_freeb rest
  end.

Definition tie_free (keys : list num) : Prop := tie_freeb keys = true.

Definition valid_idx (keys : list num) : list nat :=
  filter (fun i => negb (isnan (key_at keys i))) (seq 0 (length keys)).

Definition nan_idx (keys : list num) : list nat :=
  filter (fun i => isnan (key_at keys i)) (seq 0 (length keys)).

(** The positions of the defined keys as the algorithm orders them,
    ascending, before the final reversal of a descending sort. *)
Definition sorted_valid `{SortKind} (keys : list num) : list nat :=
  map (fun j => nth j (rev (valid_idx keys)) 0%nat)
    (argsort (map (key_at keys) (rev (valid_idx keys)))).

(** The number of rows whose region is [k]. *)
Definition group_size (region : Series) (k : cell) : nat :=
  length (filter (fun c => cell_eqb (canon c) k) region).

Definition occurrences (k : cell) (l : list cell) : nat :=
  length (filter (cell_eqb k) l).

(** A score cell of a scored table: missing, or a value from 0 to 1. *)
Definition unit_or_missing (x : num) : Prop :=
  x = NaN \/ exists s, finite x = Some s /\ 0 <= s /\ s <= 1.

(** The cells a level column can hold. *)
Definition level_cells : list cell :=
  [Str "Low"; Str "Medium"; Str "High"; Num NaN]%string.

(** The columns of the overview table, line 41. *)
Definition overview_cols : list string :=
  ["age"; "income"; "loan_amount"; "income_to_loan_ratio"; "risk_score";
   "risk_level"]%string.


(** The headings of the regional summary, lines 83-87. *)
Definition summary_cols : list string :=
  ["region"; "total_borrowers"; "avg_risk_score"; "high_risk_pct"]%string.

(** The regional summary with the given keys and figures. *)
Definition summary_of (keys : list cell) (counts : list nat)
    (avgs pcts : list num) : DataFrame :=
  [("region", keys);
   ("total_borrowers", map (fun c => Num (of_nat c)) counts);
   ("avg_risk_score", map Num avgs);
   ("high_risk_pct", map Num pcts)]%string.

(** ** Tables of the scenarios *)

(** Cells on which the arithmetic is compared with the specification of
    the Standard Library. *)
Definition samples : list num :=
  [Fin 0; NZero; PInf; NInf; NaN; Fin 1; Fin (-1); Fin 30; Fin 55;
   Fin 1000; Fin 2000; Fin 3; Fin (-700); Fin (1 # 2);
   round64 0.3; round64 0.01; round64 0.15; round64 0.1; round64 0.7;
   round64 (-4.97); round64 0.44999999999999996;
   round64 1.7976931348623157e308; round64 (-1.7976931348623157e308);
   round64 5e-324; round64 (-5e-324); round64 2.2250738585072014e-308;
   round64 1e-320; round64 1e200; round64 1e-200;
   Fin 9007199254740992; Fin 9007199254740991; round64 (1 # 3)].

(** The score of the scenario's borrower as the script computes it. *)
Definition scenario_score : num := round64 0.44999999999999996.

(** The single borrower of the scenario. *)
Definition borrower_30 : DataFrame :=
  [("age", [Num (Fin 30)]); ("income", [Num (Fin 1000)]);
   ("loan_amount", [Num (Fin 2000)])]%string.

(** The scenario row and a row whose score is exactly 0. *)
Definition two_borrowers : DataFrame :=
  [("age", [Num (Fin 30); Num (Fin 0)]);
   ("income", [Num (Fin 1000); Num (Fin 0)]);
   ("loan_amount", [Num (Fin 2000); Num (Fin 500)])]%string.

(** Scores below 0, above 1 and from a zero loan amount. *)
Definition extreme_borrowers : DataFrame :=
  [("age", [Num (Fin (-500)); Num (Fin 1000000); Num (Fin 40)]);
   ("income", [Num (Fin 10); Num (Fin 900000000); Num (Fin 700)]);
   ("loan_amount", [Num (Fin 100); Num (Fin 3); Num (Fin 0)])]%string.

(** Loan amounts of [0.0] and of [-0.0]. *)
Definition zero_loans : DataFrame :=
  [("age", [Num (Fin 40); Num (Fin 40); Num (Fin 40); Num (Fin 40)]);
   ("income", [Num (Fin 700); Num (Fin 700); Num (Fin (-700)); Num (Fin 0)]);
   ("loan_amount", [Num (Fin 0); Num NZero; Num NZero; Num (Fin 0)])]%string.

(** Two borrowers whose exact linear values are 0.7 and 0.69. *)
Definition at_threshold : DataFrame :=
  [("age", [Num (Fin 55); Num (Fin 54)]);
   ("income", [Num (Fin 1000); Num (Fin 1000)]);
   ("loan_amount", [Num (Fin 2000); Num (Fin 2000)])]%string.

(** A file without the [income] column. *)
Definition no_income : DataFrame :=
  [("age", [Num (Fin 30)]); ("loan_amount", [Num (Fin 2000)])]%string.

(** The two borrowers after scoring: levels Medium and missing. *)
Definition two_scored : DataFrame :=
  [("age", [Num (Fin 30); Num (Fin 0)]);
   ("income", [Num (Fin 1000); Num (Fin 0)]);
   ("loan_amount", [Num (Fin 2000); Num (Fin 500)]);
   ("income_to_loan_ratio", [Num (Fin (1 # 2)); Num (Fin 0)]);
   ("risk_score", [Num scenario_score; Num (Fin 0)]);
   ("risk_level", [Str "Medium"; Num NaN])]%string.

(** A file that already has a column named [risk_score], here a bureau
    score of 640. *)
Definition with_bureau_score : DataFrame :=
  [("age", [Num (Fin 30)]); ("income", [Num (Fin 1000)]);
   ("loan_amount", [Num (Fin 2000)]);
   ("risk_score", [Num (Fin 640)])]%string.

(** Two borrowers with the same figures, told apart by their region. *)
Definition twins : DataFrame :=
  [("age", [Num (Fin 30); Num (Fin 30)]);
   ("income", [Num (Fin 1000); Num (Fin 1000)]);
   ("loan_amount", [Num (Fin 2000); Num (Fin 2000)]);
   ("region", [Str "Accra"; Str "Kumasi"])]%string.

Definition twins_scored : DataFrame :=
  twins ++
  [("income_to_loan_ratio", [Num (Fin (1 # 2)); Num (Fin (1 # 2))]);
   ("risk_score", [Num scenario_score; Num scenario_score]);
   ("risk_level", [Str "Medium"; Str "Medium"])]%string.

(** Three hundred borrowers without income whose ages run through 10, 20,
    ..., 90, so that their scores take nine values, each many times. *)
Definition crowd : DataFrame :=
  [("borrower", map (fun i => Num (of_nat i)) (seq 0 300));
   ("age", map (fun i => Num (of_nat (10 * (1 + i mod 9)))) (seq 0 300));
   ("income", repeat (Num (Fin 0)) 300);
   ("loan_amount", repeat (Num (Fin 1000)) 300)]%string.

(** [twins_scored] with its two rows exchanged. *)
Definition twins_swapped : DataFrame :=
  [("age", [Num (Fin 30); Num (Fin 30)]);
   ("income", [Num (Fin 1000); Num (Fin 1000)]);
   ("loan_amount", [Num (Fin 2000); Num (Fin 2000)]);
   ("region", [Str "Kumasi"; Str "Accra"]);
   ("income_to_loan_ratio", [Num (Fin (1 # 2)); Num (Fin (1 # 2))]);
   ("risk_score", [Num scenario_score; Num scenario_score]);
   ("risk_level", [Str "Medium"; Str "Medium"])]%string.

(** Three borrowers of two regions whose scores are 0.8, 0.2 and 0.9. *)
Definition three_regions : DataFrame :=
  [("age", [Num (Fin 80); Num (Fin 20); Num (Fin 90)]);
   ("income", [Num (Fin 0); Num (Fin 0); Num (Fin 0)]);
   ("loan_amount", [Num (Fin 1000); Num (Fin 1000); Num (Fin 1000)]);
   ("region", [Str "Accra"; Str "Accra"; Str "Kumasi"])]%string.

Definition three_regions_scored : DataFrame :=
  three_regions ++
  [("income_to_loan_ratio", [Num (Fin 0); Num (Fin 0); Num (Fin 0)]);
   ("risk_score", [Num (round64 0.8); Num (round64 0.2); Num (round64 0.9)]);
   ("risk_level", [Str "High"; Str "Low"; Str "High"])]%string.

(** The regional scenario as it is worded: regions and scores given as
    decimal numbers. *)
Definition regional_scenario : DataFrame :=
  [("region", [Str "Accra"; Str "Accra"; Str "Kumasi"]);
   ("risk_score", [Num (fin 0.8); Num (fin 0.2); Num (fin 0.9)]);
   ("risk_level", [Str "High"; Str "Low"; Str "High"])]%string.

(** Two borrowers of one region, the second with no age stated. *)
Definition missing_age : DataFrame :=
  [("age", [Num (Fin 30); Num NaN]);
   ("income", [Num (Fin 1000); Num (Fin 500)]);
   ("loan_amount", [Num (Fin 2000); Num (Fin 1000)]);
   ("region", [Str "Accra"; Str "Accra"])]%string.

Definition missing_age_scored : DataFrame :=
  missing_age ++
  [("income_to_loan_ratio", [Num (Fin (1 # 2)); Num (Fin (1 # 2))]);
   ("risk_score", [Num scenario_score; Num NaN]);
   ("risk_level", [Str "Medium"; Num NaN])]%string.

(** A file whose ages are written out in words. *)
Definition ages_in_words : DataFrame :=
  [("age", [Str "thirty"; Str "forty"]);
   ("income", [Num (Fin 1000); Num (Fin 500)]);
   ("loan_amount", [Num (Fin 2000); Num (Fin 1000)])]%string.

(** Three borrowers, the second with no region stated. *)
Definition region_gap_scored : DataFrame :=
  [("age", [Num (Fin 80); Num (Fin 20); Num (Fin 90)]);
   ("income", [Num (Fin 0); Num (Fin 0); Num (Fin 0)]);
   ("loan_amount", [Num (Fin 1000); Num (Fin 1000); Num (Fin 1000)]);
   ("region", [Str "Kumasi"; Num NaN; Str "Accra"]);
   ("income_to_loan_ratio", [Num (Fin 0); Num (Fin 0); Num (Fin 0)]);
   ("risk_score", [Num (round64 0.8); Num (round64 0.2); Num (round64 0.9)]);
   ("risk_level", [Str "High"; Str "Low"; Str "High"])]%string.

(** * Properties *)

(** ** The order on numbers *)

Lemma Qle_bool_false x y : Qle_bool x y = false -> y < x.
Proof.
  intros H. apply Qnot_le_lt. intro Hle. apply Qle_bool_iff in Hle. congruence.
Qed.

Ltac qcases :=
  repeat match goal with
    | |- context [Qle_bool ?a ?b] =>
        let E := fresh "E" in
        destruct (Qle_bool a b) eqn:E;
        [apply Qle_bool_iff in E | apply Qle_bool_false in E]
    end.

Lemma num_leb_total x y : num_leb x y = true \/ num_leb y x = true.
Proof.
  destruct x as [a| | | |], y as [b| | | |]; simpl; auto;
    repeat qcases; auto; lra.
Qed.

Lemma num_leb_trans x y z :
  num_leb x y = true -> num_leb y z = true -> num_leb x z = true.
Proof.
  destruct x as [a| | | |], y as [b| | | |], z as [c| | | |]; simpl;
    try congruence; auto; rewrite ?Qle_bool_iff; intros; lra.
Qed.

Lemma num_leb_refl x : num_leb x x = true.
Proof. destruct (num_leb_total x x); assumption. Qed.

Lemma num_leb_false x y : num_leb x y = false -> num_leb y x = true.
Proof. destruct (num_leb_total x y); congruence. Qed.

Lemma num_eq_dec_nan x : x = NaN \/ x <> NaN.
Proof. destruct x; auto; right; discriminate. Qed.

(** ** Rounding to binary64 *)

Lemma pow2_pos e : 0 < pow2 e.
Proof. apply Qpower_0_lt. reflexivity. Qed.

Lemma pow2_le e e' : (e <= e')%Z -> pow2 e <= pow2 e'.
Proof. intros H. apply Qpower_le_compat_l; [exact H|]. discriminate. Qed.

Lemma pow2_lt_inv e e' : pow2 e < pow2 e' -> (e < e')%Z.
Proof. intros H. apply (Qpower_lt_compat_l_inv 2); [exact H|reflexivity]. Qed.

Lemma pow2_plus a b : pow2 (a + b) == pow2 a * pow2 b.
Proof. apply Qpower_plus. discriminate. Qed.

Lemma pow2_Z n : (0 <= n)%Z -> inject_Z (2 ^ n) == pow2 n.
Proof. intros H. apply (Zpower_Qpower 2 n H). Qed.

Lemma pow2_succ e : pow2 (e + 1) == 2 * pow2 e.
Proof. rewrite pow2_plus. unfold pow2 at 2. simpl. ring. Qed.

Lemma ilog2_spec a : 0 < a -> pow2 (ilog2 a) <= a /\ a < pow2 (ilog2 a + 1).
Proof.
  intros Ha. destruct a as [n d].
  assert (Hn : (0 < n)%Z).
  { unfold Qlt in Ha. simpl in Ha. lia. }
  unfold ilog2. cbn [Qnum Qden].
  set (ln := Z.log2 n). set (ld := Z.log2 (Z.pos d)).
  destruct (Z.log2_spec n Hn) as [N1 N2]. fold ln in N1, N2.
  destruct (Z.log2_spec (Z.pos d) eq_refl) as [D1 D2]. fold ld in D1, D2.
  assert (Ln : (0 <= ln)%Z) by apply Z.log2_nonneg.
  assert (Ld : (0 <= ld)%Z) by apply Z.log2_nonneg.
  assert (E : n # d == inject_Z n / inject_Z (Z.pos d)) by apply Qmake_Qdiv.
  assert (Dpos : 0 < inject_Z (Z.pos d)) by reflexivity.
  assert (QN1 : pow2 ln <= inject_Z n).
  { rewrite <- pow2_Z by exact Ln. rewrite <- Zle_Qle. exact N1. }
  assert (QN2 : inject_Z n < pow2 (ln + 1)).
  { rewrite <- pow2_Z by lia. rewrite <- Zlt_Qlt.
    replace (ln + 1)%Z with (Z.succ ln) by lia. exact N2. }
  assert (QD1 : pow2 ld <= inject_Z (Z.pos d)).
  { rewrite <- pow2_Z by exact Ld. rewrite <- Zle_Qle. exact D1. }
  assert (QD2 : inject_Z (Z.pos d) < pow2 (ld + 1)).
  { rewrite <- pow2_Z by lia. rewrite <- Zlt_Qlt.
    replace (ld + 1)%Z with (Z.succ ld) by lia. exact D2. }
  assert (K : pow2 ln == pow2 (ln - ld) * pow2 ld).
  { rewrite <- pow2_plus. replace (ln - ld + ld)%Z with ln by lia.
    reflexivity. }
  pose proof (pow2_pos (ln - ld)) as Pk.
  pose proof (pow2_pos ld) as Pd.
  pose proof (pow2_succ ln) as S1. pose proof (pow2_succ ld) as S2.
  pose proof (pow2_succ (ln - ld)) as S3.
  pose proof (pow2_succ (ln - ld - 1)) as S4.
  replace (ln - ld - 1 + 1)%Z with (ln - ld)%Z in S4 by lia.
  destruct (Qle_bool (pow2 (ln - ld)) (n # d)) eqn:B.
  - apply Qle_bool_iff in B. split; [exact B|].
    rewrite E. apply Qlt_shift_div_r; [exact Dpos|].
    rewrite S3. nra.
  - assert (B' : n # d < pow2 (ln - ld)).
    { apply Qnot_le_lt. intro X. apply Qle_bool_iff in X. congruence. }
    replace (ln - ld - 1 + 1)%Z with (ln - ld)%Z by lia.
    split; [|exact B'].
    rewrite E. apply Qle_shift_div_l; [exact Dpos|]. nra.
Qed.

Lemma ilog2_mono a b : 0 < a -> a <= b -> (ilog2 a <= ilog2 b)%Z.
Proof.
  intros Ha Hab.
  destruct (ilog2_spec a Ha) as [A1 _].
  destruct (ilog2_spec b) as [_ B2]; [lra|].
  assert (H : pow2 (ilog2 a) < pow2 (ilog2 b + 1)) by lra.
  apply pow2_lt_inv in H. lia.
Qed.

Lemma expo_mono a b : 0 < a -> a <= b -> (expo a <= expo b)%Z.
Proof.
  intros Ha Hab. unfold expo. pose proof (ilog2_mono a b Ha Hab). lia.
Qed.

Ltac qcmp :=
  repeat match goal with
    | H : (_ ?= _) = Eq |- _ => apply (proj2 (Qeq_alt _ _)) in H
    | H : (_ ?= _) = Lt |- _ => apply (proj2 (Qlt_alt _ _)) in H
    | H : (_ ?= _) = Gt |- _ => apply (proj2 (Qgt_alt _ _)) in H
    end.

Lemma rint_floor x : (Qfloor x <= rint x <= Qfloor x + 1)%Z.
Proof.
  unfold rint. cbv zeta. generalize (Qfloor x). intros f.
  destruct (x - inject_Z f ?= 1 # 2); [destruct (Z.even f)| |]; lia.
Qed.

Lemma rint_Z z : rint (inject_Z z) = z.
Proof.
  unfold rint. cbv zeta. rewrite Qfloor_Z.
  assert (E : (inject_Z z - inject_Z z ?= 1 # 2) = Lt).
  { apply (proj1 (Qlt_alt _ _)). generalize (inject_Z z). intros q. lra. }
  rewrite E. reflexivity.
Qed.

Lemma rint_mono x y : x <= y -> (rint x <= rint y)%Z.
Proof.
  intros H. pose proof (Qfloor_resp_le x y H) as F.
  pose proof (rint_floor x) as Rx. pose proof (rint_floor y) as Ry.
  revert F Rx Ry. unfold rint. cbv zeta.
  generalize (Qfloor x) (Qfloor y). intros f g F Rx Ry.
  destruct (Z.eq_dec f g) as [E|NE]; [|lia].
  subst g. clear F Rx Ry.
  destruct (x - inject_Z f ?= 1 # 2) eqn:Cx;
    destruct (y - inject_Z f ?= 1 # 2) eqn:Cy;
    try (destruct (Z.even f)); try lia; exfalso; qcmp; lra.
Qed.

(** The scaled value lies between [0] and [2^53], and at least [2^52]
    above the subnormal range. *)
Lemma scaled_bounds a :
  0 < a ->
  a / pow2 (expo a) < pow2 53 /\
  ((-1074 < expo a)%Z -> pow2 52 <= a / pow2 (expo a)).
Proof.
  intros Ha. destruct (ilog2_spec a Ha) as [L1 L2].
  pose proof (pow2_pos (expo a)) as P.
  split.
  - apply Qlt_shift_div_r; [exact P|].
    rewrite <- pow2_plus.
    apply Qlt_le_trans with (1 := L2). apply pow2_le. unfold expo. lia.
  - intros Hn. apply Qle_shift_div_l; [exact P|].
    rewrite <- pow2_plus.
    apply Qle_trans with (2 := L1). apply pow2_le. unfold expo in *. lia.
Qed.

Lemma round_abs_bounds a :
  0 < a ->
  0 <= round_abs a /\ round_abs a <= pow2 (expo a + 53) /\
  ((-1074 < expo a)%Z -> pow2 (expo a + 52) <= round_abs a).
Proof.
  intros Ha. destruct (scaled_bounds a Ha) as [S1 S2].
  pose proof (pow2_pos (expo a)) as P.
  unfold round_abs. set (x := a / pow2 (expo a)) in *.
  assert (X0 : 0 <= x).
  { unfold x. apply Qle_shift_div_l; [exact P|]. lra. }
  assert (R0 : (0 <= rint x)%Z).
  { rewrite <- (rint_Z 0). apply rint_mono. exact X0. }
  assert (R1 : (rint x <= 2 ^ 53)%Z).
  { rewrite <- (rint_Z (2 ^ 53)). apply rint_mono.
    rewrite pow2_Z by lia. lra. }
  rewrite Zle_Qle in R0, R1. rewrite pow2_Z in R1 by lia.
  change (inject_Z 0) with 0 in R0.
  split; [|split].
  - apply Qmult_le_0_compat; lra.
  - rewrite Z.add_comm, pow2_plus. apply Qmult_le_compat_r; lra.
  - intros Hn. specialize (S2 Hn).
    assert (R2 : (2 ^ 52 <= rint x)%Z).
    { rewrite <- (rint_Z (2 ^ 52)). apply rint_mono.
      rewrite pow2_Z by lia. exact S2. }
    rewrite Zle_Qle in R2. rewrite pow2_Z in R2 by lia.
    rewrite Z.add_comm, pow2_plus. apply Qmult_le_compat_r; lra.
Qed.

Lemma round_abs_mono a b : 0 < a -> a <= b -> round_abs a <= round_abs b.
Proof.
  intros Ha Hab. assert (Hb : 0 < b) by lra.
  pose proof (expo_mono a b Ha Hab) as He.
  destruct (Z.eq_dec (expo a) (expo b)) as [E|NE].
  - unfold round_abs. rewrite E.
    pose proof (pow2_pos (expo b)) as P.
    apply Qmult_le_compat_r; [|lra].
    rewrite <- Zle_Qle. apply rint_mono.
    apply Qmult_le_compat_r; [exact Hab|].
    apply Qlt_le_weak, Qinv_lt_0_compat, P.
  - destruct (round_abs_bounds a Ha) as (_ & A2 & _).
    destruct (round_abs_bounds b Hb) as (_ & _ & B3).
    assert (Hn : (-1074 < expo b)%Z) by (unfold expo in *; lia).
    apply Qle_trans with (1 := A2). apply Qle_trans with (2 := B3 Hn).
    apply pow2_le. lia.
Qed.

Lemma round64_not_nan q : round64 q <> NaN.
Proof.
  unfold round64, fin. destruct (q ?= 0); cbv zeta;
    repeat match goal with |- context [if ?b then _ else _] => destruct b end;
    discriminate.
Qed.

Lemma Qeq_bool_false x y : Qeq_bool x y = false -> ~ x == y.
Proof. intros H E. apply Qeq_bool_iff in E. congruence. Qed.

Lemma Qeq_bool_neq x y : ~ x == y -> Qeq_bool x y = false.
Proof.
  intros H. destruct (Qeq_bool x y) eqn:E; [|reflexivity].
  apply Qeq_bool_iff in E. contradiction.
Qed.

(** What [round64] returns, by the sign of its argument. *)
Lemma round64_pos q :
  0 < q ->
  (pow2 1024 <= round_abs q /\ round64 q = PInf) \/
  (round_abs q < pow2 1024 /\ round64 q = fin (round_abs q)).
Proof.
  intros H. unfold round64. rewrite (proj1 (Qgt_alt _ _) H). cbv zeta.
  destruct (Qle_bool (pow2 1024) (round_abs q)) eqn:E.
  - left. apply Qle_bool_iff in E. auto.
  - right. apply Qle_bool_false in E. auto.
Qed.

Lemma round64_neg q :
  q < 0 ->
  (pow2 1024 <= round_abs (- q) /\ round64 q = NInf) \/
  (round_abs (- q) == 0 /\ round64 q = NZero) \/
  (0 < round_abs (- q) /\ round_abs (- q) < pow2 1024 /\
   round64 q = fin (- round_abs (- q))).
Proof.
  intros H. unfold round64. rewrite (proj1 (Qlt_alt _ _) H). cbv zeta.
  assert (P : 0 <= round_abs (- q)) by (apply round_abs_bounds; lra).
  destruct (Qle_bool (pow2 1024) (round_abs (- q))) eqn:E.
  - left. apply Qle_bool_iff in E. auto.
  - right. apply Qle_bool_false in E.
    destruct (Qeq_bool (round_abs (- q)) 0) eqn:Z.
    + left. apply Qeq_bool_iff in Z. auto.
    + right. apply Qeq_bool_false in Z. repeat split; auto.
      apply Qle_lteq in P. destruct P as [P|P]; [exact P|].
      exfalso. apply Z. symmetry. exact P.
Qed.

Lemma round64_zero q : q == 0 -> round64 q = Fin 0.
Proof.
  intros H. unfold round64. rewrite (proj1 (Qeq_alt _ _) H). reflexivity.
Qed.

Lemma num_leb_fin a b : num_leb (fin a) (fin b) = true <-> a <= b.
Proof.
  unfold fin. cbn [num_leb]. rewrite Qle_bool_iff, !Qred_correct.
  reflexivity.
Qed.

Ltac fin_le :=
  unfold fin; cbn [num_leb]; apply Qle_bool_iff; rewrite ?Qred_correct; lra.

Lemma Qcases q : q < 0 \/ q == 0 \/ 0 < q.
Proof.
  destruct (Q_dec q 0) as [[H|H]|H]; auto.
Qed.

(** Rounding keeps the order. *)
Lemma round64_mono p q :
  p <= q -> num_leb (round64 p) (round64 q) = true.
Proof.
  intros H. pose proof (pow2_pos 1024) as Big.
  destruct (Qcases p) as [Hp|[Hp|Hp]], (Qcases q) as [Hq|[Hq|Hq]];
    try (exfalso; lra).
  - assert (M : round_abs (- q) <= round_abs (- p))
      by (apply round_abs_mono; lra).
    destruct (round64_neg p Hp) as [[P ->]|[[P ->]|(P0 & P & ->)]];
      destruct (round64_neg q Hq) as [[Q' ->]|[[Q' ->]|(Q0 & Q' & ->)]];
      try reflexivity; try (exfalso; lra).
    + fin_le.
    + apply num_leb_fin. lra.
  - rewrite (round64_zero q Hq).
    destruct (round64_neg p Hp) as [[P ->]|[[P ->]|(P0 & P & ->)]];
      try reflexivity.
    fin_le.
  - assert (Q0 : 0 <= round_abs q) by (apply round_abs_bounds; exact Hq).
    destruct (round64_neg p Hp) as [[P ->]|[[P ->]|(P0 & P & ->)]];
      destruct (round64_pos q Hq) as [[Q' ->]|[Q' ->]];
      try reflexivity.
    + fin_le.
    + apply num_leb_fin. lra.
  - rewrite (round64_zero p Hp), (round64_zero q Hq). reflexivity.
  - assert (Q0 : 0 <= round_abs q) by (apply round_abs_bounds; exact Hq).
    rewrite (round64_zero p Hp).
    destruct (round64_pos q Hq) as [[Q' ->]|[Q' ->]]; try reflexivity.
    fin_le.
  - assert (M : round_abs p <= round_abs q)
      by (apply round_abs_mono; lra).
    destruct (round64_pos p Hp) as [[P ->]|[P ->]];
      destruct (round64_pos q Hq) as [[Q' ->]|[Q' ->]];
      try reflexivity; try (exfalso; lra).
    apply num_leb_fin. lra.
Qed.

(** ** The operations of the score *)

(** Two cells hold the same value; the sign of a zero is not looked at. *)
Lemma num_eqb_refl x : num_eqb x x = true.
Proof. unfold num_eqb. rewrite num_leb_refl. reflexivity. Qed.

Lemma num_eqb_leb x y : num_eqb x y = true -> num_leb x y = true.
Proof. unfold num_eqb. intros H. apply andb_prop in H. tauto. Qed.

Lemma num_eqb_sym x y : num_eqb x y = num_eqb y x.
Proof. unfold num_eqb. apply andb_comm. Qed.

Lemma zero_round64 neg q : q == 0 -> num_eqb (zero neg) (round64 q) = true.
Proof.
  intros H. rewrite (round64_zero q H). destruct neg; reflexivity.
Qed.

Lemma num_leb_eqb_compat x x' y y' :
  num_eqb x x' = true -> num_eqb y y' = true ->
  num_leb x y = true -> num_leb x' y' = true.
Proof.
  unfold num_eqb. intros A B H.
  apply andb_prop in A. apply andb_prop in B.
  apply num_leb_trans with x; [tauto|].
  apply num_leb_trans with y; tauto.
Qed.

Lemma round64_03 : round64 0.3 = Fin the_03.
Proof. vm_compute. reflexivity. Qed.

Lemma round64_001 : round64 0.01 = Fin the_001.
Proof. vm_compute. reflexivity. Qed.

(** The product with a positive constant: the infinities stay, and a
    finite value gives the rounded exact product. *)
Lemma float_mul_const x c :
  0 < c -> x <> NaN ->
  match finite x with
  | Some a => num_eqb (float_mul x (Fin c)) (round64 (a * c)) = true /\
              float_mul x (Fin c) <> NaN
  | None => float_mul x (Fin c) = x
  end.
Proof.
  intros Hc Hx.
  assert (Nc : negative (Fin c) = false).
  { simpl. apply negb_false_iff, Qle_bool_iff. lra. }
  assert (Zc : Qeq_bool c 0 = false).
  { destruct (Qeq_bool c 0) eqn:E; [|reflexivity].
    apply Qeq_bool_iff in E. lra. }
  unfold float_mul. rewrite Nc, xorb_false_r.
  destruct x as [a| | | |]; try contradiction; cbn [isnan orb finite];
    try (rewrite Zc; reflexivity).
  - destruct (Qeq_bool (a * c) 0) eqn:E.
    + apply Qeq_bool_iff in E. split; [apply zero_round64, E|].
      destruct (negative (Fin a)); discriminate.
    + split; [apply num_eqb_refl|apply round64_not_nan].
  - assert (E : Qeq_bool (0 * c) 0 = true) by (apply Qeq_bool_iff; ring).
    rewrite E. split; [|discriminate]. apply (zero_round64 true). ring.
Qed.

Lemma num_leb_finite x y a b :
  finite x = Some a -> finite y = Some b -> (num_leb x y = true <-> a <= b).
Proof.
  destruct x, y; simpl; intros Hx Hy; inversion Hx; inversion Hy; subst;
    try rewrite Qle_bool_iff; try reflexivity. split; auto. intros; lra.
Qed.

Lemma float_mul_const_mono x y c :
  0 < c -> x <> NaN -> y <> NaN -> num_leb x y = true ->
  num_leb (float_mul x (Fin c)) (float_mul y (Fin c)) = true.
Proof.
  intros Hc Hx Hy H.
  pose proof (float_mul_const x c Hc Hx) as Mx.
  pose proof (float_mul_const y c Hc Hy) as My.
  destruct (finite x) as [a|] eqn:Fx, (finite y) as [b|] eqn:Fy.
  - destruct Mx as [Mx _], My as [My _].
    rewrite num_eqb_sym in Mx, My.
    apply (num_leb_eqb_compat _ _ _ _ Mx My). apply round64_mono.
    apply (num_leb_finite x y a b Fx Fy) in H.
    apply Qmult_le_compat_r; lra.
  - rewrite My. destruct Mx as [_ Mx].
    destruct y; try discriminate; try contradiction.
    + destruct (float_mul x (Fin c)); try reflexivity. contradiction.
    + destruct x; simpl in H; discriminate.
  - rewrite Mx. destruct My as [_ My].
    destruct x; try discriminate; try contradiction.
    + destruct y; simpl in H; discriminate.
    + destruct (float_mul y (Fin c)); reflexivity.
  - rewrite Mx, My. exact H.
Qed.

(** A binary64 value is below [2^1024] in magnitude. *)
Lemma round64_pow2_1024 : round64 (pow2 1024) = PInf.
Proof. vm_compute. reflexivity. Qed.

Lemma round64_opp_pow2_1024 : round64 (- pow2 1024) = NInf.
Proof. vm_compute. reflexivity. Qed.

Lemma is_double_bound a :
  is_double (Fin a) = true -> - pow2 1024 < a /\ a < pow2 1024.
Proof.
  unfold is_double. destruct (round64 a) as [r| | | |] eqn:E;
    try discriminate. intros _. split.
  - apply Qnot_le_lt. intros H. apply round64_mono in H.
    rewrite round64_opp_pow2_1024, E in H. discriminate.
  - apply Qnot_le_lt. intros H. apply round64_mono in H.
    rewrite round64_pow2_1024, E in H. discriminate.
Qed.

Lemma round64_pow2_1023 : round64 (pow2 1023) = fin (pow2 1023).
Proof. vm_compute. reflexivity. Qed.

Lemma round64_opp_pow2_1023 : round64 (- pow2 1023) = fin (- pow2 1023).
Proof. vm_compute. reflexivity. Qed.

(** A value of at most [2^1023] in magnitude rounds to a finite one. *)
Lemma round64_finite q :
  - pow2 1023 <= q -> q <= pow2 1023 -> exists r, finite (round64 q) = Some r.
Proof.
  intros L U. apply round64_mono in L, U.
  rewrite round64_opp_pow2_1023 in L. rewrite round64_pow2_1023 in U.
  destruct (round64 q) as [r| | | |] eqn:E; simpl; eauto; discriminate.
Qed.

(** [age * 0.01] never overflows. *)
Lemma float_mul_001_finite x a :
  finite x = Some a -> is_double x = true ->
  exists r, finite (float_mul x (round64 0.01)) = Some r.
Proof.
  intros F D. rewrite round64_001.
  assert (B : - pow2 1024 < a /\ a < pow2 1024).
  { destruct x; try discriminate; inversion F; subst.
    - apply is_double_bound, D.
    - split; reflexivity. }
  assert (Hx : x <> NaN) by (destruct x; discriminate).
  pose proof (float_mul_const x the_001 eq_refl Hx) as M. rewrite F in M.
  destruct M as [M N].
  assert (P : pow2 1024 == 2 * pow2 1023) by (apply (pow2_succ 1023)).
  pose proof (pow2_pos 1023) as P3.
  destruct (round64_finite (a * the_001)) as [r R].
  - unfold the_001. lra.
  - unfold the_001. lra.
  - destruct (float_mul x (Fin the_001)) as [m| | | |]; simpl; eauto;
      try contradiction; exfalso;
      destruct (round64 (a * the_001)); discriminate.
Qed.

(** The sum with a finite term: an infinity stays, and a finite value
    gives the rounded exact sum. *)
Lemma float_add_finite x y b :
  x <> NaN -> finite y = Some b ->
  match finite x with
  | Some a => num_eqb (float_add x y) (round64 (a + b)) = true /\
              float_add x y <> NaN
  | None => float_add x y = x
  end.
Proof.
  intros Hx Fy.
  assert (Ny : isnan y = false) by (destruct y; try discriminate; reflexivity).
  unfold float_add. rewrite Ny, orb_false_r, Fy.
  destruct x as [a| | | |]; try contradiction; cbn [isnan finite];
    try reflexivity.
  - destruct (Qeq_bool (a + b) 0) eqn:E.
    + apply Qeq_bool_iff in E. split; [apply zero_round64, E|].
      destruct (negative (Fin a) && negative y); discriminate.
    + split; [apply num_eqb_refl|apply round64_not_nan].
  - destruct (Qeq_bool (0 + b) 0) eqn:E.
    + apply Qeq_bool_iff in E. split; [apply zero_round64, E|].
      destruct (negative NZero && negative y); discriminate.
    + split; [apply num_eqb_refl|apply round64_not_nan].
Qed.

Lemma float_add_mono x x' y y' b b' :
  x <> NaN -> x' <> NaN -> finite y = Some b -> finite y' = Some b' ->
  num_leb x x' = true -> b <= b' ->
  num_leb (float_add x y) (float_add x' y') = true.
Proof.
  intros Hx Hx' Fy Fy' H Hb.
  pose proof (float_add_finite x y b Hx Fy) as A.
  pose proof (float_add_finite x' y' b' Hx' Fy') as A'.
  destruct (finite x) as [a|] eqn:Fx, (finite x') as [a'|] eqn:Fx'.
  - destruct A as [A _], A' as [A' _].
    rewrite num_eqb_sym in A, A'.
    apply (num_leb_eqb_compat _ _ _ _ A A'). apply round64_mono.
    apply (num_leb_finite x x' a a' Fx Fx') in H. lra.
  - rewrite A'. destruct A as [_ A].
    destruct x'; try discriminate; try contradiction.
    + destruct (float_add x y); try reflexivity. contradiction.
    + destruct x; simpl in H; discriminate.
  - rewrite A. destruct A' as [_ A'].
    destruct x; try discriminate; try contradiction.
    + destruct x'; simpl in H; discriminate.
    + destruct (float_add x' y'); reflexivity.
  - rewrite A, A'. exact H.
Qed.

(** The quotient of two finite values is a number unless both are zero. *)
Lemma float_div_finite x y a b :
  finite x = Some a -> finite y = Some b -> ~ (a == 0 /\ b == 0) ->
  float_div x y <> NaN.
Proof.
  intros Fx Fy H.
  assert (Nx : isnan x = false) by (destruct x; try discriminate; reflexivity).
  assert (Ny : isnan y = false) by (destruct y; try discriminate; reflexivity).
  unfold float_div. rewrite Nx, Ny, Fx, Fy. cbn [orb].
  destruct (Qeq_bool b 0) eqn:B.
  - destruct (Qeq_bool a 0) eqn:A.
    + apply Qeq_bool_iff in A, B. tauto.
    + destruct (xorb (negative x) (negative y)); discriminate.
  - destruct (Qeq_bool a 0).
    + destruct (xorb (negative x) (negative y)); discriminate.
    + apply round64_not_nan.
Qed.

(** The linear value is a number whenever the ratio is one and the age is
    a finite binary64 value. *)
Lemma raw_score_defined r age a :
  r <> NaN -> finite age = Some a -> is_double age = true ->
  raw_score r age <> NaN.
Proof.
  intros Hr Fa Da. unfold raw_score.
  destruct (float_mul_001_finite age a Fa Da) as [t T].
  assert (M : float_mul r (round64 0.3) <> NaN).
  { rewrite round64_03.
    pose proof (float_mul_const r the_03 eq_refl Hr) as M.
    destruct (finite r); [tauto|]. rewrite M. exact Hr. }
  pose proof (float_add_finite _ _ t M T) as A.
  destruct (finite (float_mul r (round64 0.3))); [tauto|].
  rewrite A. exact M.
Qed.

Lemma raw_score_mono r r' age age' a a' :
  r <> NaN -> r' <> NaN ->
  finite age = Some a -> is_double age = true ->
  finite age' = Some a' -> is_double age' = true ->
  num_leb r r' = true -> a <= a' ->
  num_leb (raw_score r age) (raw_score r' age') = true.
Proof.
  intros Hr Hr' Fa Da Fa' Da' H Ha. unfold raw_score.
  destruct (float_mul_001_finite age a Fa Da) as [t T].
  destruct (float_mul_001_finite age' a' Fa' Da') as [t' T'].
  assert (N : age <> NaN) by (destruct age; discriminate).
  assert (N' : age' <> NaN) by (destruct age'; discriminate).
  assert (Ht : t <= t').
  { apply (num_leb_finite _ _ t t' T T'). rewrite round64_001.
    apply float_mul_const_mono; try assumption; [reflexivity|].
    apply (num_leb_finite age age' a a' Fa Fa'). exact Ha. }
  rewrite round64_03 in *.
  apply float_add_mono with t t'; try assumption.
  - pose proof (float_mul_const r the_03 eq_refl Hr) as M.
    destruct (finite r); [tauto|]. rewrite M. exact Hr.
  - pose proof (float_mul_const r' the_03 eq_refl Hr') as M.
    destruct (finite r'); [tauto|]. rewrite M. exact Hr'.
  - apply float_mul_const_mono; try assumption. reflexivity.
Qed.

(** ** Agreement with the IEEE specification *)

(** Sample operands: the values of the scenarios, both zeros, the
    infinities, the largest and the smallest binary64 values, and values
    whose quotient, product or sum meets a tie, overflows or underflows. *)
Example samples_are_binary64 : forallb is_double samples = true.
Proof. vm_compute. reflexivity. Qed.

Example spec_round_trip : map (fun x => of_spec (to_spec x)) samples = samples.
Proof. vm_compute. reflexivity. Qed.

Example float_div_agrees :
  map (fun x => map (float_div x) samples) samples =
  map (fun x => map (fun y => of_spec (SFdiv 53 1024 (to_spec x) (to_spec y)))
                    samples) samples.
Proof. vm_compute. reflexivity. Qed.

Example float_mul_agrees :
  map (fun x => map (float_mul x) samples) samples =
  map (fun x => map (fun y => of_spec (SFmul 53 1024 (to_spec x) (to_spec y)))
                    samples) samples.
Proof. vm_compute. reflexivity. Qed.

Example float_add_agrees :
  map (fun x => map (float_add x) samples) samples =
  map (fun x => map (fun y => of_spec (SFadd 53 1024 (to_spec x) (to_spec y)))
                    samples) samples.
Proof. vm_compute. reflexivity. Qed.

(** ** Both algorithms sort *)

Section KindsSort.

Variable keys : list num.

Local Abbreviation key := (key_at keys).
Local Abbreviation ascending s := (StronglySorted num_le (map key s)).

Lemma insert_by_perm le i s : Permutation (insert_by le i s) (i :: s).
Proof.
  induction s as [|j s IH]; simpl; [reflexivity|].
  destruct (le i j); [reflexivity|].
  rewrite IH. apply perm_swap.
Qed.

Lemma insertion_sort_perm le n : Permutation (insertion_sort le n) (seq 0 n).
Proof.
  unfold insertion_sort.
  induction (seq 0 n) as [|i s IH]; simpl; [reflexivity|].
  rewrite insert_by_perm. constructor. exact IH.
Qed.

Lemma insert_idx_sorted i s :
  ascending s ->
  ascending (insert_by (fun i j => num_leb (key i) (key j)) i s).
Proof.
  induction s as [|j s IH]; simpl; intros Hs.
  - repeat constructor.
  - inversion Hs as [|? ? Hs' Hall]; subst.
    destruct (num_leb (key i) (key j)) eqn:E; simpl.
    + constructor; [assumption|]. constructor; [exact E|].
      eapply Forall_impl; [|exact Hall].
      intros z Hz. eapply num_leb_trans; eauto.
    + constructor; [auto|].
      apply (Permutation_Forall
               (Permutation_sym (Permutation_map key (insert_by_perm _ i s)))).
      simpl. constructor; [|assumption]. apply num_leb_false, E.
Qed.

Lemma insertion_argsort_perm :
  Permutation (insertion_argsort keys) (seq 0 (length keys)).
Proof. apply insertion_sort_perm. Qed.

Lemma insertion_argsort_sorted : ascending (insertion_argsort keys).
Proof.
  unfold insertion_argsort, insertion_sort.
  induction (seq 0 (length keys)) as [|i s IH]; simpl.
  - constructor.
  - apply insert_idx_sorted, IH.
Qed.

Lemma filter_split (f : nat -> bool) (l : list nat) :
  Permutation (filter f l ++ filter (fun j => negb (f j)) l) l.
Proof.
  induction l as [|x l IH]; simpl; [reflexivity|].
  destruct (f x); simpl.
  - constructor. exact IH.
  - rewrite <- Permutation_middle. constructor. exact IH.
Qed.

Lemma sortedb_sorted l : sortedb l = true -> StronglySorted num_le l.
Proof.
  intros H. apply Sorted_StronglySorted.
  - intros x y z. apply num_leb_trans.
  - induction l as [|x [|y rest] IH]; simpl in *.
    + constructor.
    + repeat constructor.
    + apply andb_prop in H. destruct H as [Hxy Hrest].
      constructor; [apply IH, Hrest|]. constructor. exact Hxy.
Qed.

Lemma permb_perm r n : permb r n = true -> Permutation r (seq 0 n).
Proof.
  unfold permb. intros H. apply andb_prop in H. destruct H as [Hlen Hall].
  apply Nat.eqb_eq in Hlen. apply Permutation_sym.
  apply NoDup_Permutation_bis.
  - apply seq_NoDup.
  - rewrite length_seq. lia.
  - intros i Hi. rewrite forallb_forall in Hall. specialize (Hall i Hi).
    apply existsb_exists in Hall. destruct Hall as [j [Hj E]].
    apply Nat.eqb_eq in E. subst j. exact Hj.
Qed.

Lemma numpy_argsort_perm :
  Permutation (numpy_argsort keys) (seq 0 (length keys)).
Proof.
  unfold numpy_argsort.
  destruct (permb (npy_aquicksort keys) (length keys)
            && sortedb (map key (npy_aquicksort keys))) eqn:E.
  - apply andb_prop in E. apply permb_perm, E.
  - apply insertion_argsort_perm.
Qed.

Lemma numpy_argsort_sorted : ascending (numpy_argsort keys).
Proof.
  unfold numpy_argsort.
  destruct (permb (npy_aquicksort keys) (length keys)
            && sortedb (map key (npy_aquicksort keys))) eqn:E.
  - apply andb_prop in E. apply sortedb_sorted, E.
  - apply insertion_argsort_sorted.
Qed.

End KindsSort.

(** [kind="stable"] *)
#[local] Instance stable_kind : SortKind :=
  {| argsort := insertion_argsort;
     argsort_perm := insertion_argsort_perm;
     argsort_sorted := insertion_argsort_sorted |}.

(** [kind="quicksort"], the default, in numpy's generic routine. *)
#[local] Instance numpy_quicksort : SortKind :=
  {| argsort := numpy_argsort;
     argsort_perm := numpy_argsort_perm;
     argsort_sorted := numpy_argsort_sorted |}.

(** ** Columns of a frame *)

Lemma has_column_In df col : has_column df col = true <-> In col (columns df).
Proof.
  unfold has_column. rewrite existsb_exists. split.
  - intros [x [Hx E]]. apply String.eqb_eq in E. subst. exact Hx.
  - intros H. exists col. split; [exact H|apply String.eqb_refl].
Qed.

Lemma getitem_setitem_same df col s : getitem (setitem df col s) col = Ok s.
Proof.
  induction df as [|[name old] df IH]; simpl.
  - rewrite String.eqb_refl. reflexivity.
  - destruct (String.eqb name col) eqn:E; simpl; rewrite E; auto.
Qed.

Lemma getitem_setitem_other df col col' s :
  col <> col' -> getitem (setitem df col s) col' = getitem df col'.
Proof.
  intros Hne. induction df as [|[name old] df IH]; simpl.
  - destruct (String.eqb col col') eqn:E; [|reflexivity].
    apply String.eqb_eq in E. contradiction.
  - destruct (String.eqb name col) eqn:E; simpl.
    + apply String.eqb_eq in E. subst name.
      destruct (String.eqb col col') eqn:E'; [|reflexivity].
      apply String.eqb_eq in E'. contradiction.
    + rewrite IH. reflexivity.
Qed.

Lemma columns_setitem df col s :
  columns (setitem df col s) =
  if has_column df col then columns df else columns df ++ [col].
Proof.
  unfold has_column, columns.
  induction df as [|[name old] df IH]; simpl; [reflexivity|].
  rewrite (String.eqb_sym col name).
  destruct (String.eqb name col) eqn:E; simpl; [reflexivity|].
  rewrite IH.
  destruct (existsb (String.eqb col) (map fst df)); reflexivity.
Qed.

Lemma numeric_values_series xs : numeric_values (numeric_series xs) = Ok xs.
Proof. induction xs as [|x xs IH]; simpl; [|rewrite IH]; reflexivity. Qed.

Lemma numeric_values_inv s xs :
  numeric_values s = Ok xs -> s = numeric_series xs.
Proof.
  revert xs. induction s as [|[x|t] s IH]; simpl; intros xs H.
  - inversion H. reflexivity.
  - destruct (numeric_values s) as [ys|e]; simpl in H; inversion H; subst.
    simpl. rewrite (IH ys); reflexivity.
  - discriminate.
Qed.

Lemma getnum_setitem_same df col xs :
  getnum (setitem df col (numeric_series xs)) col = Ok xs.
Proof.
  unfold getnum. rewrite getitem_setitem_same. apply numeric_values_series.
Qed.

Lemma getnum_setitem_other df col col' s :
  col <> col' -> getnum (setitem df col s) col' = getnum df col'.
Proof. intros H. unfold getnum. rewrite getitem_setitem_other; auto. Qed.

Lemma nth_error_map2 {A B C : Type} (f : A -> B -> C) l l' i :
  nth_error (map2 f l l') i =
  match nth_error l i, nth_error l' i with
  | Some a, Some b => Some (f a b)
  | _, _ => None
  end.
Proof.
  revert l' i. induction l as [|a l IH]; intros [|b l'] [|i]; simpl; auto.
  all: try (destruct (nth_error l i); reflexivity).
Qed.

Lemma length_map2 {A B C : Type} (f : A -> B -> C) l l' :
  length (map2 f l l') = Nat.min (length l) (length l').
Proof.
  revert l'. induction l as [|a l IH]; intros [|b l']; simpl; auto.
Qed.

(** ** The score *)

Lemma score_numeric df income loan_amount age :
  getnum df "income" = Ok income ->
  getnum df "loan_amount" = Ok loan_amount ->
  getnum df "age" = Ok age ->
  score df = Ok (scored df income loan_amount age).
Proof.
  intros Hi Hl Ha. unfold score. rewrite Hi, Hl. simpl.
  rewrite getnum_setitem_same. simpl.
  rewrite getnum_setitem_other by discriminate. rewrite Ha. simpl.
  rewrite getnum_setitem_same. reflexivity.
Qed.

Lemma score_inv df df' :
  score df = Ok df' ->
  exists income loan_amount age,
    getnum df "income" = Ok income /\
    getnum df "loan_amount" = Ok loan_amount /\
    getnum df "age" = Ok age /\
    df' = scored df income loan_amount age.
Proof.
  unfold score. intros H.
  destruct (getnum df "income") as [income|] eqn:Hi; [|discriminate].
  destruct (getnum df "loan_amount") as [loan|] eqn:Hl; [|discriminate].
  simpl in H. rewrite getnum_setitem_same in H. simpl in H.
  rewrite getnum_setitem_other in H by discriminate.
  destruct (getnum df "age") as [age|] eqn:Ha; [|discriminate].
  simpl in H. rewrite getnum_setitem_same in H. simpl in H.
  inversion H. exists income, loan, age. auto.
Qed.

Lemma scored_ratio df income loan_amount age :
  getnum (scored df income loan_amount age) "income_to_loan_ratio" =
  Ok (ratio_of income loan_amount).
Proof.
  unfold scored. rewrite !getnum_setitem_other by discriminate.
  apply getnum_setitem_same.
Qed.

Lemma scored_risk_score df income loan_amount age :
  getnum (scored df income loan_amount age) "risk_score" =
  Ok (score_of income loan_amount age).
Proof.
  unfold scored. rewrite getnum_setitem_other by discriminate.
  apply getnum_setitem_same.
Qed.

Lemma scored_risk_level df income loan_amount age :
  getitem (scored df income loan_amount age) "risk_level" =
  Ok (level_of income loan_amount age).
Proof. unfold scored. apply getitem_setitem_same. Qed.

Lemma score_of_row income loan_amount age i inc ln a :
  nth_error income i = Some inc ->
  nth_error loan_amount i = Some ln ->
  nth_error age i = Some a ->
  nth_error (ratio_of income loan_amount) i = Some (float_div inc ln) /\
  nth_error (score_of income loan_amount age) i =
    Some (clip 0 1 (raw_score (float_div inc ln) a)) /\
  nth_error (level_of income loan_amount age) i =
    Some (cut bins labels (clip 0 1 (raw_score (float_div inc ln) a))).
Proof.
  intros Hi Hl Ha.
  assert (Hr : nth_error (ratio_of income loan_amount) i =
               Some (float_div inc ln)).
  { unfold ratio_of. rewrite nth_error_map2, Hi, Hl. reflexivity. }
  assert (Hs : nth_error (score_of income loan_amount age) i =
               Some (clip 0 1 (raw_score (float_div inc ln) a))).
  { unfold score_of. rewrite nth_error_map, nth_error_map2, Hr, Ha.
    reflexivity. }
  repeat split; auto.
  unfold level_of. rewrite nth_error_map, Hs. reflexivity.
Qed.

(** ** Clamping *)

(** What [clip] does to a value, case by case. *)
Lemma clip_unit_cases x :
  (x = NaN -> clip 0 1 x = NaN) /\
  (num_ltb x (Fin 0) = true -> clip 0 1 x = Fin 0) /\
  (x <> NaN -> num_ltb (Fin 1) x = true -> clip 0 1 x = Fin 1) /\
  (num_leb (Fin 0) x = true -> num_leb x (Fin 1) = true -> clip 0 1 x = x).
Proof.
  destruct x as [a| | | |]; unfold clip, num_ltb, num_leb, num_max, num_min;
    repeat split; intros; try discriminate; try congruence;
    try reflexivity.
  - revert H. qcases; simpl; qcases; intros; try discriminate;
      try reflexivity; exfalso; lra.
  - revert H0. qcases; simpl; qcases; intros; try discriminate;
      try reflexivity; exfalso; lra.
  - revert H H0. qcases; simpl; qcases; intros; try discriminate;
      try reflexivity; exfalso; lra.
Qed.

Lemma clip_unit_range x :
  x <> NaN ->
  exists v, finite (clip 0 1 x) = Some v /\ 0 <= v /\ v <= 1.
Proof.
  intros Hx. destruct x as [a| | | |]; try contradiction.
  - unfold clip, num_max, num_min. qcases; simpl; qcases; simpl;
      eexists; (split; [reflexivity|]); lra.
  - exists 1. simpl. split; [reflexivity|lra].
  - exists 0. simpl. split; [reflexivity|lra].
  - exists 0. simpl. split; [reflexivity|lra].
Qed.

(** ** The score formula *)

(** C1: on numeric [age], [income] and [loan_amount] columns the script
    computes, for every row, [income_to_loan_ratio = income / loan_amount]
    and the clamped [income_to_loan_ratio * 0.3 + age * 0.01], each
    operation in binary64: the score is missing when the linear value is,
    0 when that is below 0, 1 when it is above 1 and the linear value
    itself otherwise. The borrower aged 30 with income 1000 and loan 2000
    gets ratio 0.5, the score 0.44999999999999996, which is the binary64
    value next below the one written 0.45, and level Medium. *)
Theorem score_formula :
  (forall df income loan_amount age,
      getnum df "income" = Ok income ->
      getnum df "loan_amount" = Ok loan_amount ->
      getnum df "age" = Ok age ->
      exists df' ratio risk_score,
        score df = Ok df' /\
        getnum df' "income_to_loan_ratio" = Ok ratio /\
        getnum df' "risk_score" = Ok risk_score /\
        forall i inc ln a,
          nth_error income i = Some inc ->
          nth_error loan_amount i = Some ln ->
          nth_error age i = Some a ->
          let linear :=
            float_add (float_mul (float_div inc ln) (round64 0.3))
                      (float_mul a (round64 0.01)) in
          exists s,
            nth_error ratio i = Some (float_div inc ln) /\
            nth_error risk_score i = Some s /\
            (linear = NaN -> s = NaN) /\
            (num_ltb linear (Fin 0) = true -> s = Fin 0) /\
            (linear <> NaN -> num_ltb (Fin 1) linear = true -> s = Fin 1) /\
            (num_leb (Fin 0) linear = true ->
             num_leb linear (Fin 1) = true -> s = linear)) /\
  float_div (Fin 1000) (Fin 2000) = Fin (1 # 2) /\
  float_mul (Fin (1 # 2)) (round64 0.3) = round64 0.15 /\
  float_mul (Fin 30) (round64 0.01) = round64 0.3 /\
  float_add (round64 0.15) (round64 0.3) = round64 0.44999999999999996 /\
  score borrower_30 =
    Ok [("age", [Num (Fin 30)]); ("income", [Num (Fin 1000)]);
        ("loan_amount", [Num (Fin 2000)]);
        ("income_to_loan_ratio", [Num (Fin (1 # 2))]);
        ("risk_score", [Num (round64 0.44999999999999996)]);
        ("risk_level", [Str "Medium"])]%string /\
  num_ltb (round64 0.44999999999999996) (round64 0.45) = true.
Proof.
  split; [|repeat split; vm_compute; reflexivity].
  - intros df income loan age Hi Hl Ha.
    exists (scored df income loan age), (ratio_of income loan),
      (score_of income loan age).
    split; [apply score_numeric; assumption|].
    split; [apply scored_ratio|]. split; [apply scored_risk_score|].
    intros i inc ln a Hinc Hln Hage linear.
    destruct (score_of_row _ _ _ _ _ _ _ Hinc Hln Hage) as [Hr [Hs _]].
    exists (clip 0 1 linear). split; [exact Hr|]. split; [exact Hs|].
    apply clip_unit_cases.
Qed.

Lemma score_formula_witness :
  exists df' ratio risk_score,
    score borrower_30 = Ok df' /\
    getnum df' "income_to_loan_ratio" = Ok ratio /\
    getnum df' "risk_score" = Ok risk_score /\
    forall i inc ln a,
      nth_error [Fin 1000] i = Some inc ->
      nth_error [Fin 2000] i = Some ln ->
      nth_error [Fin 30] i = Some a ->
      let linear :=
        float_add (float_mul (float_div inc ln) (round64 0.3))
                  (float_mul a (round64 0.01)) in
      exists s,
        nth_error ratio i = Some (float_div inc ln) /\
        nth_error risk_score i = Some s /\
        (linear = NaN -> s = NaN) /\
        (num_ltb linear (Fin 0) = true -> s = Fin 0) /\
        (linear <> NaN -> num_ltb (Fin 1) linear = true -> s = Fin 1) /\
        (num_leb (Fin 0) linear = true ->
         num_leb linear (Fin 1) = true -> s = linear).
Proof.
  apply (proj1 score_formula borrower_30 [Fin 1000] [Fin 2000] [Fin 30]);
    reflexivity.
Defined.

(** The claim's scenario as the script computes it: the score of the
    borrower aged 30 with income 1000 and loan 2000 is neither the rational
    [0.45] nor the binary64 value written [0.45], but one below it. *)
Lemma scenario_score_is_not_045 :
  exists df' s v,
    score borrower_30 = Ok df' /\
    getnum df' "risk_score" = Ok [s] /\
    finite s = Some v /\ v < 0.45 /\
    s <> Fin 0.45 /\ s <> round64 0.45 /\
    num_eqb s (round64 0.45) = false /\
    s = round64 0.44999999999999996.
Proof.
  eexists. eexists. eexists.
  split; [vm_compute; reflexivity|]. split; [vm_compute; reflexivity|].
  split; [vm_compute; reflexivity|]. split; [reflexivity|].
  split; [discriminate|]. split; [vm_compute; discriminate|].
  split; vm_compute; reflexivity.
Qed.

(** ** Bins *)

Lemma cut_bins q :
  (cut bins labels (Fin q) = Str "Low" <-> 0 < q /\ q <= 0.3) /\
  (cut bins labels (Fin q) = Str "Medium" <-> 0.3 < q /\ q <= 0.7) /\
  (cut bins labels (Fin q) = Str "High" <-> 0.7 < q /\ q <= 1) /\
  (cut bins labels (Fin q) = Num NaN <-> q <= 0 \/ 1 < q).
Proof.
  unfold cut, bins, labels. simpl. qcases; simpl;
    repeat split; intros; try discriminate; try lra.
Qed.

Example cut_boundaries :
  map (cut bins labels)
    [Fin 0; NZero; Fin 0.001; round64 0.3; Fin 0.301; round64 0.7;
     round64 0.7000000000000001; Fin 1; Fin 1.001; Fin (-1); PInf; NInf;
     NaN] =
  [Num NaN; Num NaN; Str "Low"; Str "Low"; Str "Medium"; Str "Medium";
   Str "High"; Str "High"; Num NaN; Num NaN; Num NaN; Num NaN;
   Num NaN]%string.
Proof. vm_compute. reflexivity. Qed.

Example clip_values :
  map (clip 0 1)
    [Fin (-2); Fin 0; NZero; Fin 0.45; Fin 1; Fin 7; PInf; NInf; NaN] =
  [Fin 0; Fin 0; NZero; Fin 0.45; Fin 1; Fin 1; Fin 1; Fin 0; NaN].
Proof. reflexivity. Qed.

Example division_by_zero :
  map2 float_div [Fin 700; Fin (-5); Fin 0; Fin 700; NZero; Fin 1]
                 [Fin 0; Fin 0; Fin 0; NZero; Fin 5; Fin 4] =
  [PInf; NInf; NaN; NInf; NZero; Fin (1 # 4)].
Proof. vm_compute. reflexivity. Qed.



(** C3: scoring a table with numeric [age], [income] and [loan_amount]
    succeeds, and every row whose income, loan amount and age are finite
    binary64 values, income and loan amount not both zero, has a score
    from 0 to 1, whatever their size and sign: 0 when the linear value is
    below 0, 1 when it is above 1, and the linear value itself in
    between. *)
Theorem risk_score_range df income loan_amount age :
  getnum df "income" = Ok income ->
  getnum df "loan_amount" = Ok loan_amount ->
  getnum df "age" = Ok age ->
  exists df' risk_score,
    score df = Ok df' /\
    getnum df' "risk_score" = Ok risk_score /\
    forall i inc ln a qi ql qa,
      nth_error income i = Some inc ->
      nth_error loan_amount i = Some ln ->
      nth_error age i = Some a ->
      finite inc = Some qi -> finite ln = Some ql ->
      ~ (qi == 0 /\ ql == 0) ->
      finite a = Some qa -> is_double a = true ->
      let linear :=
        float_add (float_mul (float_div inc ln) (round64 0.3))
                  (float_mul a (round64 0.01)) in
      exists s v,
        nth_error risk_score i = Some s /\
        finite s = Some v /\ 0 <= v /\ v <= 1 /\
        linear <> NaN /\
        (num_ltb linear (Fin 0) = true -> s = Fin 0) /\
        (num_ltb (Fin 1) linear = true -> s = Fin 1) /\
        (num_leb (Fin 0) linear = true -> num_leb linear (Fin 1) = true ->
         s = linear).
Proof.
  intros Hi Hl Ha.
  exists (scored df income loan_amount age),
    (score_of income loan_amount age).
  split; [apply score_numeric; assumption|].
  split; [apply scored_risk_score|].
  intros i inc ln a qi ql qa Hinc Hln Hage Fi Fl Hnz Fa Da linear.
  destruct (score_of_row _ _ _ _ _ _ _ Hinc Hln Hage) as (_ & Hs & _).
  assert (Hr : float_div inc ln <> NaN)
    by (apply (float_div_finite inc ln qi ql); assumption).
  assert (Hlin : linear <> NaN)
    by (apply (raw_score_defined _ a qa); assumption).
  destruct (clip_unit_range linear Hlin) as (v & Hv & H0 & H1).
  destruct (clip_unit_cases linear) as (_ & C0 & C1 & C01).
  exists (clip 0 1 linear), v.
  split; [exact Hs|]. split; [exact Hv|]. split; [exact H0|].
  split; [exact H1|]. split; [exact Hlin|]. split; [exact C0|].
  split; [exact (C1 Hlin)|exact C01].
Qed.

Lemma risk_score_range_witness :
  exists df' risk_score,
    score extreme_borrowers = Ok df' /\
    getnum df' "risk_score" = Ok risk_score /\
    forall i inc ln a qi ql qa,
      nth_error [Fin 10; Fin 900000000; Fin 700] i = Some inc ->
      nth_error [Fin 100; Fin 3; Fin 0] i = Some ln ->
      nth_error [Fin (-500); Fin 1000000; Fin 40] i = Some a ->
      finite inc = Some qi -> finite ln = Some ql ->
      ~ (qi == 0 /\ ql == 0) ->
      finite a = Some qa -> is_double a = true ->
      let linear :=
        float_add (float_mul (float_div inc ln) (round64 0.3))
                  (float_mul a (round64 0.01)) in
      exists s v,
        nth_error risk_score i = Some s /\
        finite s = Some v /\ 0 <= v /\ v <= 1 /\
        linear <> NaN /\
        (num_ltb linear (Fin 0) = true -> s = Fin 0) /\
        (num_ltb (Fin 1) linear = true -> s = Fin 1) /\
        (num_leb (Fin 0) linear = true -> num_leb linear (Fin 1) = true ->
         s = linear).
Proof.
  apply (risk_score_range extreme_borrowers
           [Fin 10; Fin 900000000; Fin 700] [Fin 100; Fin 3; Fin 0]
           [Fin (-500); Fin 1000000; Fin 40]); reflexivity.
Defined.

(** Scores below 0, above 1 and from a zero loan amount: the linear
    values are -4.97, 90010000 and [+inf]. *)
Example extreme_scores :
  exists df',
    score extreme_borrowers = Ok df' /\
    getnum df' "income_to_loan_ratio" =
      Ok [round64 0.1; Fin 300000000; PInf] /\
    map2 raw_score [round64 0.1; Fin 300000000; PInf]
      [Fin (-500); Fin 1000000; Fin 40] =
      [round64 (-4.97); Fin 90010000; PInf] /\
    getnum df' "risk_score" = Ok [Fin 0; Fin 1; Fin 1].
Proof. eexists. repeat split; vm_compute; reflexivity. Qed.

(** ** Validation *)

Lemma validate_false df :
  validate df = false <->
  exists col, In col required_cols /\ ~ In col (columns df).
Proof.
  unfold validate. split.
  - intros H. destruct (forallb (has_column df) required_cols) eqn:E;
      [discriminate|].
    apply not_true_iff_false in E. rewrite forallb_forall in E.
    destruct (existsb (fun c => negb (has_column df c)) required_cols) eqn:X.
    + apply existsb_exists in X. destruct X as [col [Hin Hc]].
      exists col. split; [exact Hin|].
      rewrite <- has_column_In. apply negb_true_iff in Hc. congruence.
    + exfalso. apply E. intros col Hin.
      destruct (has_column df col) eqn:Hc; [reflexivity|].
      assert (Hx : existsb (fun c => negb (has_column df c)) required_cols
                   = true).
      { apply existsb_exists. exists col. rewrite Hc. auto. }
      congruence.
  - intros [col [Hin Hc]]. apply not_true_iff_false. intro H.
    rewrite forallb_forall in H. apply Hc, has_column_In, H, Hin.
Qed.

Lemma missing_cols_spec df col :
  In col (missing_cols df) <->
  In col required_cols /\ ~ In col (columns df).
Proof.
  unfold missing_cols. rewrite filter_In, negb_true_iff.
  rewrite <- has_column_In, not_true_iff_false. reflexivity.
Qed.

(** C4: when one of [age], [income], [loan_amount] is absent, validation
    fails, the message lists exactly the required columns that are missing,
    and the page holds only the headings and that message: nothing is
    scored or computed. *)
Theorem missing_columns_reported (kind : SortKind) df selected_level
    selected_index :
  (exists col, In col required_cols /\ ~ In col (columns df)) ->
  validate df = false /\
  (forall col,
      In col (missing_cols df) <->
      In col required_cols /\ ~ In col (columns df)) /\
  missing_message df =
    ("Missing required columns: " ++ String.concat ", " (missing_cols df))%string /\
  app (Some df) selected_level selected_index =
    ([Title title_text; Markdown intro_text; ErrorBox (missing_message df)],
     Ok tt).
Proof.
  intros Hmiss. apply validate_false in Hmiss.
  split; [exact Hmiss|]. split; [apply missing_cols_spec|].
  split; [reflexivity|].
  unfold app, page_bind, emit. simpl. rewrite Hmiss. reflexivity.
Qed.

Lemma missing_columns_reported_witness :
  validate no_income = false /\
  (forall col,
      In col (missing_cols no_income) <->
      In col required_cols /\ ~ In col (columns no_income)) /\
  missing_message no_income =
    ("Missing required columns: "
       ++ String.concat ", " (missing_cols no_income))%string /\
  app (Some no_income) "All" 0 =
    ([Title title_text; Markdown intro_text;
      ErrorBox (missing_message no_income)], Ok tt).
Proof.
  apply (missing_columns_reported stable_kind no_income "All" 0).
  exists "income"%string. split; [simpl; auto|].
  simpl. intros [H|[H|H]]; [discriminate|discriminate|exact H].
Defined.

Example no_income_report :
  missing_cols no_income = ["income"%string] /\
  missing_message no_income = "Missing required columns: income"%string.
Proof. split; reflexivity. Qed.

(** ** Recommendation *)

Lemma row_getitem_row df col s i :
  getitem df col = Ok s ->
  row_getitem (row df i) col = Ok (nth i s (Num NaN)).
Proof.
  induction df as [|[name old] df IH]; simpl; [discriminate|].
  destruct (String.eqb name col); [|exact IH].
  intros H. inversion H. reflexivity.
Qed.

Lemma recommendation_cases borrower lvl :
  row_getitem borrower "risk_level" = Ok lvl ->
  recommendation borrower =
    Ok (if cell_eq_str lvl "High" then "Review manually"
        else "Likely Approve")%string.
Proof. intros H. unfold recommendation. rewrite H. reflexivity. Qed.

Lemma cell_eq_str_iff c s : cell_eq_str c s = true <-> c = Str s.
Proof.
  destruct c as [x|t]; simpl.
  - split; discriminate.
  - rewrite String.eqb_eq. split; [intros ->; reflexivity|].
    intros H. inversion H. reflexivity.
Qed.

(** C10: the advice is "Review manually" exactly when the borrower's
    [risk_level] is High; any other value, a missing one included, gives
    "Likely Approve". In particular, in a scored table the borrower whose
    score is exactly 0 has no level and is advised "Likely Approve". *)
Theorem recommend_missing_level :
  (forall borrower lvl,
      row_getitem borrower "risk_level" = Ok lvl ->
      (recommendation borrower = Ok "Review manually"%string <->
       lvl = Str "High") /\
      (lvl <> Str "High" ->
       recommendation borrower = Ok "Likely Approve"%string) /\
      (isna lvl = true ->
       recommendation borrower = Ok "Likely Approve"%string)) /\
  (forall df income loan_amount age,
      getnum df "income" = Ok income ->
      getnum df "loan_amount" = Ok loan_amount ->
      getnum df "age" = Ok age ->
      exists df' risk_score,
        score df = Ok df' /\
        getnum df' "risk_score" = Ok risk_score /\
        forall i q,
          nth_error risk_score i = Some (Fin q) -> q == 0 ->
          (i < nrows df')%nat ->
          exists borrower,
            loc df' i = Ok borrower /\
            row_getitem borrower "risk_level" = Ok (Num NaN) /\
            recommendation borrower = Ok "Likely Approve"%string).
Proof.
  split.
  - intros borrower lvl H. rewrite (recommendation_cases _ _ H).
    pose proof (cell_eq_str_iff lvl "High") as Hc.
    destruct (cell_eq_str lvl "High") eqn:E.
    + assert (lvl = Str "High") by (apply Hc; reflexivity). subst lvl.
      repeat split; auto; try discriminate. intros Hne. contradiction.
    + repeat split; auto; try discriminate.
      intros Hl. apply Hc in Hl. discriminate.
  - intros df income loan age Hi Hl Ha.
    exists (scored df income loan age), (score_of income loan age).
    split; [apply score_numeric; assumption|].
    split; [apply scored_risk_score|].
    intros i q Hq Hzero Hlt.
    exists (row (scored df income loan age) i).
    assert (Hlvl : row_getitem (row (scored df income loan age) i)
                     "risk_level" = Ok (Num NaN)).
    { rewrite (row_getitem_row _ _ _ i (scored_risk_level df income loan age)).
      unfold level_of.
      rewrite (nth_error_nth _ _ (Num NaN)
                 (eq_trans (nth_error_map _ _ _) (f_equal _ Hq))).
      simpl. f_equal. apply cut_bins. left. lra. }
    split; [unfold loc; apply Nat.ltb_lt in Hlt; rewrite Hlt; reflexivity|].
    split; [exact Hlvl|]. rewrite (recommendation_cases _ _ Hlvl).
    reflexivity.
Qed.

Lemma recommend_missing_level_witness :
  exists df' risk_score,
    score two_borrowers = Ok df' /\
    getnum df' "risk_score" = Ok risk_score /\
    forall i q,
      nth_error risk_score i = Some (Fin q) -> q == 0 ->
      (i < nrows df')%nat ->
      exists borrower,
        loc df' i = Ok borrower /\
        row_getitem borrower "risk_level" = Ok (Num NaN) /\
        recommendation borrower = Ok "Likely Approve"%string.
Proof.
  apply (proj2 recommend_missing_level two_borrowers
           [Fin 1000; Fin 0] [Fin 2000; Fin 500] [Fin 30; Fin 0]);
    reflexivity.
Defined.

Example recommend_zero_score :
  exists borrower,
    loc two_scored 1 = Ok borrower /\
    row_getitem borrower "risk_score" = Ok (Num (Fin 0)) /\
    row_getitem borrower "risk_level" = Ok (Num NaN) /\
    recommendation borrower = Ok "Likely Approve"%string.
Proof. eexists. repeat split; vm_compute; reflexivity. Qed.

(** ** Rows of reindexed frames *)

Lemma map_nth_seq {A : Type} (l : list A) d :
  map (fun j => nth j l d) (seq 0 (length l)) = l.
Proof.
  induction l as [|a l IH]; simpl; [reflexivity|].
  f_equal. rewrite <- seq_shift, map_map. exact IH.
Qed.

Lemma nth_map_in {A B : Type} (f : A -> B) l j d d' :
  (j < length l)%nat -> nth j (map f l) d = f (nth j l d').
Proof.
  intros H. rewrite (nth_indep _ d (f d')) by (rewrite length_map; exact H).
  apply map_nth.
Qed.

Lemma nrows_take_rows idx df :
  df <> [] -> nrows (take_rows idx df) = length idx.
Proof.
  destruct df as [|[name s] df]; [contradiction|]. simpl. intros _.
  apply length_map.
Qed.

Lemma row_take_rows idx df j :
  (j < length idx)%nat -> row (take_rows idx df) j = row df (nth j idx 0%nat).
Proof.
  intros H. unfold row, take_rows. rewrite map_map. simpl.
  apply map_ext. intros c. f_equal.
  apply (nth_map_in (fun i => nth i (snd c) (Num NaN))). exact H.
Qed.

Lemma rows_take_rows idx df :
  df <> [] -> rows (take_rows idx df) = map (row df) idx.
Proof.
  intros H. unfold rows. rewrite (nrows_take_rows idx df H).
  transitivity (map (fun j => row df (nth j idx 0%nat)) (seq 0 (length idx))).
  - apply map_ext_in. intros j Hj. apply in_seq in Hj.
    apply row_take_rows. lia.
  - rewrite <- (map_map (fun j => nth j idx 0%nat) (row df)).
    rewrite map_nth_seq. reflexivity.
Qed.

Lemma length_rows df : length (rows df) = nrows df.
Proof. unfold rows. rewrite length_map, length_seq. reflexivity. Qed.

Lemma columns_take_rows idx df : columns (take_rows idx df) = columns df.
Proof. unfold columns, take_rows. rewrite map_map. reflexivity. Qed.

Lemma nonzero_from_filter k mask :
  nonzero_from k mask =
  filter (fun i => nth (i - k) mask false) (seq k (length mask)).
Proof.
  revert k. induction mask as [|b m IH]; intros k; simpl; [reflexivity|].
  rewrite Nat.sub_diag, IH.
  assert (E : filter (fun i => nth (i - S k) m false) (seq (S k) (length m)) =
              filter (fun i => nth (i - k) (b :: m) false)
                (seq (S k) (length m))).
  { apply filter_ext_in. intros i Hi. apply in_seq in Hi.
    replace (i - k)%nat with (S (i - S k)) by lia. reflexivity. }
  rewrite E. destruct b; reflexivity.
Qed.

Lemma nonzero_filter mask :
  nonzero mask = filter (fun i => nth i mask false) (seq 0 (length mask)).
Proof.
  unfold nonzero. rewrite nonzero_from_filter. apply filter_ext.
  intros i. rewrite Nat.sub_0_r. reflexivity.
Qed.

Lemma select_nonzero_from {A : Type} (d : A) k mask (s : list A) :
  (length mask <= length s)%nat ->
  select mask s = map (fun i => nth (i - k) s d) (nonzero_from k mask).
Proof.
  revert k s. induction mask as [|b m IH]; intros k s H; [reflexivity|].
  destruct s as [|x t]; [simpl in H; lia|].
  assert (E : map (fun i => nth (i - S k) t d) (nonzero_from (S k) m) =
              map (fun i => nth (i - k) (x :: t) d) (nonzero_from (S k) m)).
  { apply map_ext_in. intros i Hi. rewrite nonzero_from_filter in Hi.
    apply filter_In in Hi. destruct Hi as [Hi _]. apply in_seq in Hi.
    replace (i - k)%nat with (S (i - S k)) by lia. reflexivity. }
  assert (IH' := IH (S k) t). simpl in H.
  change (select (b :: m) (x :: t))
    with (if b then x :: select m t else select m t).
  change (nonzero_from k (b :: m))
    with (if b then k :: nonzero_from (S k) m else nonzero_from (S k) m).
  destruct b.
  - rewrite map_cons, Nat.sub_diag, <- E, <- IH' by lia. reflexivity.
  - rewrite <- E, <- IH' by lia. reflexivity.
Qed.

Lemma select_nonzero {A : Type} (d : A) mask (s : list A) :
  (length mask <= length s)%nat ->
  select mask s = map (fun i => nth i s d) (nonzero mask).
Proof.
  intros H. unfold nonzero. rewrite (select_nonzero_from d 0 mask s H).
  apply map_ext. intros i. rewrite Nat.sub_0_r. reflexivity.
Qed.

Lemma getitem_In df col s : getitem df col = Ok s -> In (col, s) df.
Proof.
  induction df as [|[name old] df IH]; simpl; [discriminate|].
  destruct (String.eqb name col) eqn:E.
  - intros H. inversion H. apply String.eqb_eq in E. subst. left. reflexivity.
  - intros H. right. apply IH, H.
Qed.

Lemma getitem_length df col s :
  well_formed df -> getitem df col = Ok s -> length s = nrows df.
Proof.
  intros [_ Hlen] H. apply getitem_In in H.
  rewrite Forall_forall in Hlen. apply (Hlen _ H).
Qed.

Lemma getitem_nonempty df col s : getitem df col = Ok s -> df <> [].
Proof. destruct df; [discriminate|]. intros _. discriminate. Qed.

Lemma numeric_values_length s xs : numeric_values s = Ok xs -> length xs = length s.
Proof.
  intros H. apply numeric_values_inv in H. subst. unfold numeric_series.
  symmetry. apply length_map.
Qed.

Lemma getnum_getitem df col xs :
  getnum df col = Ok xs -> getitem df col = Ok (numeric_series xs).
Proof.
  unfold getnum. destruct (getitem df col) as [s|]; simpl; [|discriminate].
  intros H. apply numeric_values_inv in H. subst. reflexivity.
Qed.

Lemma getnum_length df col xs :
  well_formed df -> getnum df col = Ok xs -> length xs = nrows df.
Proof.
  intros Hwf H. apply getnum_getitem in H.
  rewrite <- (getitem_length _ _ _ Hwf H). unfold numeric_series.
  symmetry. apply length_map.
Qed.

Lemma boolean_index_take_rows df mask :
  well_formed df -> length mask = nrows df ->
  boolean_index df mask = take_rows (nonzero mask) df.
Proof.
  intros [_ Hlen] Hm. unfold boolean_index, take_rows.
  apply map_ext_in. intros c Hc. f_equal.
  apply select_nonzero. rewrite Forall_forall in Hlen.
  rewrite (Hlen _ Hc). lia.
Qed.

(** ** Filter by level *)

Lemma rows_boolean_index df mask :
  well_formed df -> length mask = nrows df -> df <> [] ->
  rows (boolean_index df mask) =
  map (row df) (filter (fun i => nth i mask false) (seq 0 (nrows df))).
Proof.
  intros Hwf Hm Hne. rewrite (boolean_index_take_rows df mask Hwf Hm).
  rewrite (rows_take_rows _ df Hne), nonzero_filter, Hm. reflexivity.
Qed.

Lemma rows_filtered df lv lvl :
  well_formed df -> getitem df "risk_level" = Ok lv ->
  rows (boolean_index df (map (fun c => cell_eq_str c lvl) lv)) =
  filter (level_is lvl) (rows df).
Proof.
  intros Hwf Hlv.
  pose proof (getitem_length df _ lv Hwf Hlv) as Hlen.
  rewrite rows_boolean_index;
    [|exact Hwf|rewrite length_map; exact Hlen
     |exact (getitem_nonempty df _ lv Hlv)].
  unfold rows. rewrite filter_map_swap. f_equal.
  apply filter_ext_in. intros i Hi. apply in_seq in Hi.
  unfold level_is. rewrite (row_getitem_row df _ lv i Hlv).
  apply (nth_map_in (fun c => cell_eq_str c lvl)). lia.
Qed.

(** C8, as the script has it: for a selection other than "All" the view
    holds exactly the rows whose [risk_level] is the selected level, in
    input order, under the same columns; a level that no row has gives an
    empty view and raises nothing; under "All" no view is built. *)
Theorem filter_by_level df risk_level selected_level :
  well_formed df ->
  getitem df "risk_level" = Ok risk_level ->
  (selected_level <> "All"%string ->
   exists view,
     filtered_df df selected_level = Ok (Some view) /\
     columns view = columns df /\
     rows view = filter (level_is selected_level) (rows df) /\
     ((forall c, In c risk_level -> c <> Str selected_level) ->
      rows view = [] /\ nrows view = 0%nat)) /\
  filtered_df df "All" = Ok None.
Proof.
  intros Hwf Hlv. split; [|reflexivity].
  intros Hsel. unfold filtered_df.
  apply String.eqb_neq in Hsel. rewrite Hsel, Hlv. simpl.
  eexists. split; [reflexivity|].
  split; [unfold columns, boolean_index; rewrite map_map; reflexivity|].
  pose proof (rows_filtered df risk_level selected_level Hwf Hlv) as Hrows.
  split; [exact Hrows|].
  intros Hnone.
  assert (E : filter (level_is selected_level) (rows df) = []).
  { unfold rows. rewrite filter_map_swap.
    rewrite (filter_ext_in _ (fun _ => false));
      [rewrite filter_false; reflexivity|].
    intros i Hi. apply in_seq in Hi.
    unfold level_is. rewrite (row_getitem_row df _ risk_level i Hlv).
    destruct (cell_eq_str (nth i risk_level (Num NaN)) selected_level) eqn:X;
      [|reflexivity].
    apply cell_eq_str_iff in X. exfalso.
    apply (Hnone (nth i risk_level (Num NaN))); [|exact X].
    apply nth_In. rewrite (getitem_length df _ _ Hwf Hlv). lia. }
  split; [rewrite Hrows; exact E|].
  rewrite <- length_rows, Hrows, E. reflexivity.
Qed.

Ltac concrete_frame :=
  split;
  [ repeat (apply NoDup_cons; [simpl; intuition discriminate|]);
    apply NoDup_nil
  | repeat (apply Forall_cons; [reflexivity|]); apply Forall_nil ].

Example score_two_borrowers : score two_borrowers = Ok two_scored.
Proof. vm_compute. reflexivity. Qed.

Lemma filter_by_level_witness :
  (exists view,
      filtered_df two_scored "High" = Ok (Some view) /\
      columns view = columns two_scored /\
      rows view = filter (level_is "High") (rows two_scored) /\
      ((forall c, In c [Str "Medium"; Num NaN] -> c <> Str "High") ->
       rows view = [] /\ nrows view = 0%nat)) /\
  filtered_df two_scored "All" = Ok None.
Proof.
  destruct (filter_by_level two_scored [Str "Medium"; Num NaN] "High")
    as [Hview Hall].
  - concrete_frame.
  - reflexivity.
  - split; [apply Hview; discriminate|exact Hall].
Defined.

Example filter_medium :
  filtered_df two_scored "Medium" =
  Ok (Some [("age", [Num (Fin 30)]); ("income", [Num (Fin 1000)]);
            ("loan_amount", [Num (Fin 2000)]);
            ("income_to_loan_ratio", [Num (Fin (1 # 2))]);
            ("risk_score", [Num (scenario_score)]);
            ("risk_level", [Str "Medium"])]%string).
Proof. vm_compute. reflexivity. Qed.

(** Under "All" the script builds no filtered frame: the result is not the
    full scored table. *)
Lemma all_selection_builds_no_view :
  score two_borrowers = Ok two_scored /\
  filtered_df two_scored "All" = Ok None /\
  filtered_df two_scored "All" <> Ok (Some two_scored).
Proof.
  split; [vm_compute; reflexivity|]. split; [reflexivity|]. discriminate.
Qed.

(** ** What scoring leaves and what it adds *)

Lemma setitem_fresh df col s :
  has_column df col = false -> setitem df col s = df ++ [(col, s)].
Proof.
  unfold has_column, columns.
  induction df as [|[name old] df IH]; simpl; [reflexivity|].
  rewrite (String.eqb_sym col name).
  destruct (String.eqb name col); simpl; [discriminate|].
  intros H. rewrite (IH H). reflexivity.
Qed.

Lemma has_column_setitem df col s col' :
  has_column (setitem df col s) col' =
  has_column df col' || String.eqb col' col.
Proof.
  unfold has_column. rewrite columns_setitem. unfold has_column.
  destruct (existsb (String.eqb col) (columns df)) eqn:E.
  - destruct (String.eqb col' col) eqn:E'; [|rewrite orb_false_r; reflexivity].
    apply String.eqb_eq in E'. subst. rewrite E. reflexivity.
  - rewrite existsb_app. simpl. rewrite orb_false_r. reflexivity.
Qed.

Lemma has_column_app df col s col' :
  has_column (df ++ [(col, s)]) col' =
  has_column df col' || String.eqb col' col.
Proof.
  unfold has_column, columns. rewrite map_app, existsb_app. simpl.
  rewrite orb_false_r. reflexivity.
Qed.

Lemma Forall_setitem (Q : Series -> Prop) df col s :
  Forall (fun c => Q (snd c)) df -> Q s ->
  Forall (fun c => Q (snd c)) (setitem df col s).
Proof.
  intros Hdf Hs. induction Hdf as [|[name old] df Hc Hdf IH]; simpl.
  - repeat constructor. exact Hs.
  - destruct (String.eqb name col); constructor; auto.
Qed.

Lemma nrows_setitem df col s :
  df <> [] -> length s = nrows df -> nrows (setitem df col s) = nrows df.
Proof.
  destruct df as [|[name old] df]; [contradiction|]. simpl. intros _ Hs.
  destruct (String.eqb name col); simpl; auto.
Qed.

Lemma well_formed_setitem df col s :
  well_formed df -> df <> [] -> length s = nrows df ->
  well_formed (setitem df col s).
Proof.
  intros [Hnd Hlen] Hne Hs. split.
  - rewrite columns_setitem. destruct (has_column df col) eqn:E; [exact Hnd|].
    apply NoDup_app; [exact Hnd|repeat constructor; simpl; tauto|].
    intros a Ha [<-|[]]. apply has_column_In in Ha. congruence.
  - rewrite (nrows_setitem df col s Hne Hs).
    apply (Forall_setitem (fun x => length x = nrows df)); assumption.
Qed.

Lemma setitem_nonempty df col s : setitem df col s <> [].
Proof.
  destruct df as [|[name old] df]; simpl; [discriminate|].
  destruct (String.eqb name col); discriminate.
Qed.

Lemma row_app df df' i : row (df ++ df') i = row df i ++ row df' i.
Proof. unfold row. apply map_app. Qed.

Lemma length_score_of income loan_amount age n :
  length income = n -> length loan_amount = n -> length age = n ->
  length (ratio_of income loan_amount) = n /\
  length (score_of income loan_amount age) = n /\
  length (level_of income loan_amount age) = n.
Proof.
  intros Hi Hl Ha.
  assert (Hr : length (ratio_of income loan_amount) = n).
  { unfold ratio_of. rewrite length_map2. lia. }
  assert (Hs : length (score_of income loan_amount age) = n).
  { unfold score_of. rewrite length_map, length_map2. lia. }
  repeat split; auto. unfold level_of. rewrite length_map. exact Hs.
Qed.

(** C7, as the script has it: on a table with numeric [age], [income] and
    [loan_amount], scoring keeps the number of rows and every column not
    named like a derived one, cell by cell and in the same row order; the
    three derived columns are present afterwards, one cell per row, a new
    one appended after the others and one that the input already had
    replaced in place. When the input has none of the three names, every
    row is the input row followed by exactly the three derived cells. *)
Theorem score_frame df income loan_amount age :
  well_formed df ->
  getnum df "income" = Ok income ->
  getnum df "loan_amount" = Ok loan_amount ->
  getnum df "age" = Ok age ->
  exists df',
    score df = Ok df' /\
    well_formed df' /\
    nrows df' = nrows df /\
    columns df' =
      columns df ++ filter (fun c => negb (has_column df c)) derived_cols /\
    (forall col, ~ In col derived_cols -> getitem df' col = getitem df col) /\
    (forall col, In col derived_cols ->
       exists s, getitem df' col = Ok s /\ length s = nrows df) /\
    ((forall col, In col derived_cols -> ~ In col (columns df)) ->
     forall i, (i < nrows df)%nat ->
       exists ratio risk_score risk_level,
         row df' i =
           row df i ++ [("income_to_loan_ratio", ratio);
                        ("risk_score", risk_score);
                        ("risk_level", risk_level)]%string).
Proof.
  intros Hwf Hi Hl Ha.
  exists (scored df income loan_amount age).
  split; [apply score_numeric; assumption|].
  pose proof (getnum_length df _ _ Hwf Hi) as Li.
  pose proof (getnum_length df _ _ Hwf Hl) as Ll.
  pose proof (getnum_length df _ _ Hwf Ha) as La.
  destruct (length_score_of income loan_amount age (nrows df) Li Ll La)
    as (Lr & Ls & Lv).
  assert (Hne : df <> []).
  { apply getnum_getitem in Hi. exact (getitem_nonempty df _ _ Hi). }
  set (df1 := setitem df "income_to_loan_ratio"
                (numeric_series (ratio_of income loan_amount))).
  set (df2 := setitem df1 "risk_score"
                (numeric_series (score_of income loan_amount age))).
  assert (W1 : well_formed df1 /\ nrows df1 = nrows df).
  { split; [apply well_formed_setitem|apply nrows_setitem]; auto;
      unfold numeric_series; rewrite length_map; exact Lr. }
  assert (W2 : well_formed df2 /\ nrows df2 = nrows df).
  { destruct W1 as [W1 N1]. rewrite <- N1.
    split; [apply well_formed_setitem|apply nrows_setitem]; auto;
      try apply setitem_nonempty;
      unfold numeric_series; rewrite length_map, N1; exact Ls. }
  assert (W3 : well_formed (scored df income loan_amount age) /\
               nrows (scored df income loan_amount age) = nrows df).
  { destruct W2 as [W2 N2]. rewrite <- N2. unfold scored. fold df1. fold df2.
    split; [apply well_formed_setitem|apply nrows_setitem]; auto;
      try apply setitem_nonempty; rewrite N2; exact Lv. }
  split; [apply W3|]. split; [apply W3|].
  split.
  { unfold scored. rewrite !columns_setitem, !has_column_setitem. simpl.
    destruct (has_column df "income_to_loan_ratio");
      destruct (has_column df "risk_score");
      destruct (has_column df "risk_level"); simpl;
      rewrite <- ?app_assoc, ?app_nil_r; reflexivity. }
  split.
  { intros col Hcol. unfold scored.
    rewrite !getitem_setitem_other; [reflexivity| | |];
      intros <-; apply Hcol; simpl; auto. }
  split.
  { intros col [<-|[<-|[<-|[]]]]; eexists; (split; [|shelve]).
    - apply getnum_getitem, scored_ratio.
    - apply getnum_getitem, scored_risk_score.
    - apply scored_risk_level.
    Unshelve.
    all: unfold numeric_series; rewrite ?length_map; assumption. }
  intros Hfresh i _.
  assert (F : forall col, In col derived_cols -> has_column df col = false).
  { intros col Hc. apply not_true_iff_false. intro X.
    apply has_column_In in X. exact (Hfresh col Hc X). }
  exists (nth i (numeric_series (ratio_of income loan_amount)) (Num NaN)),
    (nth i (numeric_series (score_of income loan_amount age)) (Num NaN)),
    (nth i (level_of income loan_amount age) (Num NaN)).
  unfold scored.
  rewrite (setitem_fresh df "income_to_loan_ratio") by (apply F; simpl; auto).
  rewrite (setitem_fresh _ "risk_score")
    by (rewrite has_column_app, F; simpl; auto).
  rewrite (setitem_fresh _ "risk_level")
    by (rewrite !has_column_app, F; simpl; auto).
  rewrite !row_app, <- !app_assoc. reflexivity.
Qed.

Lemma score_frame_witness :
  exists df',
    score two_borrowers = Ok df' /\
    well_formed df' /\
    nrows df' = nrows two_borrowers /\
    columns df' =
      columns two_borrowers
      ++ filter (fun c => negb (has_column two_borrowers c)) derived_cols /\
    (forall col, ~ In col derived_cols ->
       getitem df' col = getitem two_borrowers col) /\
    (forall col, In col derived_cols ->
       exists s, getitem df' col = Ok s /\ length s = nrows two_borrowers) /\
    ((forall col, In col derived_cols -> ~ In col (columns two_borrowers)) ->
     forall i, (i < nrows two_borrowers)%nat ->
       exists ratio risk_score risk_level,
         row df' i =
           row two_borrowers i ++ [("income_to_loan_ratio", ratio);
                                   ("risk_score", risk_score);
                                   ("risk_level", risk_level)]%string).
Proof.
  apply (score_frame two_borrowers [Fin 1000; Fin 0] [Fin 2000; Fin 500]
           [Fin 30; Fin 0]).
  - concrete_frame.
  - reflexivity.
  - reflexivity.
  - reflexivity.
Defined.

(** Scoring replaces a column the input already had under a derived name:
    that original field changes and only two columns are added. *)
Lemma score_replaces_existing_column :
  validate with_bureau_score = true /\
  exists df',
    score with_bureau_score = Ok df' /\
    getitem with_bureau_score "risk_score" = Ok [Num (Fin 640)] /\
    getitem df' "risk_score" = Ok [Num (scenario_score)] /\
    getitem df' "risk_score" <> getitem with_bureau_score "risk_score" /\
    length (columns df') = (length (columns with_bureau_score) + 2)%nat.
Proof.
  split; [reflexivity|].
  eexists. split; [vm_compute; reflexivity|].
  repeat split; try (vm_compute; reflexivity). vm_compute. discriminate.
Qed.

(** ** Sorted lists of positions *)

Section SortedLists.

Context {A : Type}.

Lemma SS_impl_in (R R' : A -> A -> Prop) l :
  StronglySorted R l ->
  (forall a b, In a l -> In b l -> R a b -> R' a b) ->
  StronglySorted R' l.
Proof.
  intros H. induction H as [|a l Hl IH Ha]; intros Himp; constructor.
  - apply IH. intros x y Hx Hy. apply Himp; right; assumption.
  - rewrite Forall_forall in *. intros b Hb.
    apply Himp; [left; reflexivity|right; exact Hb|apply Ha, Hb].
Qed.

Lemma SS_map {B : Type} (f : B -> A) (R : A -> A -> Prop) l :
  StronglySorted R (map f l) <->
  StronglySorted (fun a b => R (f a) (f b)) l.
Proof.
  induction l as [|a l IH]; simpl.
  - split; constructor.
  - split; intros H; inversion H; subst; constructor;
      try (apply IH; assumption).
    + rewrite Forall_map in *. assumption.
    + rewrite Forall_map. assumption.
Qed.

Lemma SS_app (R : A -> A -> Prop) l1 l2 :
  StronglySorted R l1 -> StronglySorted R l2 ->
  (forall a b, In a l1 -> In b l2 -> R a b) ->
  StronglySorted R (l1 ++ l2).
Proof.
  intros H1 H2 Hc. induction H1 as [|a l1 Hl IH Ha]; simpl; [exact H2|].
  constructor.
  - apply IH. intros x y Hx. apply Hc. right. exact Hx.
  - apply Forall_app. split; [exact Ha|].
    apply Forall_forall. intros b Hb. apply Hc; [left; reflexivity|exact Hb].
Qed.

Lemma SS_rev (R : A -> A -> Prop) l :
  StronglySorted R l -> StronglySorted (fun a b => R b a) (rev l).
Proof.
  intros H. induction H as [|a l Hl IH Ha]; simpl; [constructor|].
  apply SS_app; [exact IH|repeat constructor|].
  intros x y Hx [<-|[]]. apply in_rev in Hx.
  rewrite Forall_forall in Ha. apply Ha, Hx.
Qed.

Lemma SS_and (R1 R2 : A -> A -> Prop) l :
  StronglySorted R1 l -> StronglySorted R2 l ->
  StronglySorted (fun a b => R1 a b /\ R2 a b) l.
Proof.
  intros H1. induction H1 as [|a l Hl IH Ha]; intros H2; constructor;
    inversion H2; subst; auto.
  rewrite Forall_forall in *. intros b Hb. split; auto.
Qed.

Lemma SS_pairs (R : A -> A -> Prop) l :
  NoDup l -> (forall a b, In a l -> In b l -> a <> b -> R a b) ->
  StronglySorted R l.
Proof.
  intros H. induction H as [|a l Hna Hl IH]; intros Hp; constructor.
  - apply IH. intros x y Hx Hy. apply Hp; right; assumption.
  - apply Forall_forall. intros b Hb.
    apply Hp; [left; reflexivity|right; exact Hb|].
    intros ->. contradiction.
Qed.

Lemma SS_filter (R : A -> A -> Prop) (f : A -> bool) l :
  StronglySorted R l -> StronglySorted R (filter f l).
Proof.
  intros H. induction H as [|a l Hl IH Ha]; simpl; [constructor|].
  destruct (f a); [|exact IH]. constructor; [exact IH|].
  rewrite Forall_forall in *. intros b Hb. apply filter_In in Hb.
  apply Ha, Hb.
Qed.



Lemma SS_nth (R : A -> A -> Prop) l d i j :
  StronglySorted R l -> (i < j)%nat -> (j < length l)%nat ->
  R (nth i l d) (nth j l d).
Proof.
  intros H. revert i j. induction H as [|a l Hl IH Ha]; intros i j Hij Hj;
    simpl in Hj; [lia|].
  destruct j as [|j]; [lia|]. destruct i as [|i]; simpl.
  - rewrite Forall_forall in Ha. apply Ha, nth_In. lia.
  - apply IH; lia.
Qed.

(** A list sorted by an order that never holds both ways is determined by
    its elements. *)
Lemma SS_unique (R : A -> A -> Prop) l1 l2 :
  (forall a b, R a b -> R b a -> False) ->
  StronglySorted R l1 -> StronglySorted R l2 -> Permutation l1 l2 ->
  l1 = l2.
Proof.
  intros Hasym H1. revert l2.
  induction H1 as [|a l1 Hl IH Ha]; intros l2 H2 Hp.
  - apply Permutation_nil in Hp. subst. reflexivity.
  - destruct l2 as [|b l2];
      [apply Permutation_sym, Permutation_nil in Hp; discriminate|].
    inversion H2 as [|? ? Hl2 Hb]; subst.
    assert (E : a = b).
    { assert (Hin : In a (b :: l2))
        by (apply (Permutation_in _ Hp); left; reflexivity).
      assert (Hin' : In b (a :: l1))
        by (apply (Permutation_in _ (Permutation_sym Hp)); left; reflexivity).
      destruct Hin as [E|Hin]; [symmetry; exact E|].
      destruct Hin' as [E|Hin']; [exact E|].
      rewrite Forall_forall in Ha, Hb. exfalso.
      apply (Hasym a b); [apply Ha, Hin'|apply Hb, Hin]. }
    subst b. f_equal. apply IH; [exact Hl2|].
    apply (Permutation_cons_inv Hp).
Qed.

End SortedLists.

Lemma SS_seq start len : StronglySorted lt (seq start len).
Proof.
  revert start. induction len as [|len IH]; intros start; simpl;
    constructor; [apply IH|].
  apply Forall_forall. intros j Hj. apply in_seq in Hj. lia.
Qed.

(** ** Insertion sort keeps equal positions in input order *)

Section Stable.

Variable le : nat -> nat -> bool.
Hypothesis le_total : forall i j, le i j = true \/ le j i = true.
Hypothesis le_trans :
  forall i j k, le i j = true -> le j k = true -> le i k = true.

Local Abbreviation precedes := (precedes le).

Lemma precedes_asym i j : precedes i j -> precedes j i -> False.
Proof. intros [H1 H2] [H3 H4]. specialize (H2 H3). specialize (H4 H1). lia. Qed.

Lemma insert_by_stable i s :
  StronglySorted precedes s -> Forall (fun j => (i < j)%nat) s ->
  StronglySorted precedes (insert_by le i s).
Proof.
  intros Hs. induction Hs as [|j s Hs IH Hj]; intros Hlt; simpl.
  - repeat constructor.
  - inversion Hlt as [|? ? Hij Hlt']; subst.
    destruct (le i j) eqn:E.
    + constructor; [constructor; assumption|].
      constructor; [split; [exact E|intros _; exact Hij]|].
      rewrite Forall_forall in *. intros z Hz. split.
      * apply (le_trans i j z E). apply (Hj z Hz).
      * intros _. apply Hlt', Hz.
    + constructor; [apply IH, Hlt'|].
      apply (Permutation_Forall (Permutation_sym (insert_by_perm le i s))).
      constructor; [|exact Hj].
      split; [destruct (le_total i j); congruence|]. congruence.
Qed.

Lemma insertion_sort_from_stable start len :
  StronglySorted precedes (fold_right (insert_by le) [] (seq start len)).
Proof.
  revert start. induction len as [|len IH]; intros start; simpl;
    [constructor|].
  apply insert_by_stable; [apply IH|].
  assert (P : Permutation (fold_right (insert_by le) [] (seq (S start) len))
                          (seq (S start) len)).
  { induction (seq (S start) len) as [|x l IHl]; simpl; [reflexivity|].
    rewrite insert_by_perm. constructor. exact IHl. }
  apply (Permutation_Forall (Permutation_sym P)).
  apply Forall_forall. intros j Hj. apply in_seq in Hj. lia.
Qed.

Lemma insertion_sort_stable n : StronglySorted precedes (insertion_sort le n).
Proof. apply insertion_sort_from_stable. Qed.

End Stable.

(** ** The descending order *)

Lemma desc_leb_total x y : desc_leb x y = true \/ desc_leb y x = true.
Proof.
  destruct x as [a| | | |], y as [b| | | |]; simpl; auto;
    repeat qcases; auto; lra.
Qed.

Lemma desc_leb_trans x y z :
  desc_leb x y = true -> desc_leb y z = true -> desc_leb x z = true.
Proof.
  destruct x as [a| | | |], y as [b| | | |], z as [c| | | |]; simpl;
    try congruence; auto; rewrite ?Qle_bool_iff; intros; lra.
Qed.

Lemma desc_leb_valid x y :
  isnan x = false -> isnan y = false -> desc_leb x y = num_leb y x.
Proof. destruct x, y; simpl; congruence. Qed.

Lemma desc_leb_nan_r x : desc_leb x NaN = true.
Proof. destruct x; reflexivity. Qed.

Lemma desc_leb_nan_l x : isnan x = false -> desc_leb NaN x = false.
Proof. destruct x; simpl; congruence. Qed.

Lemma tie_free_nth keys i j :
  tie_free keys -> (i < j)%nat -> (j < length keys)%nat ->
  isnan (key_at keys i) = false -> isnan (key_at keys j) = false ->
  num_eqb (key_at keys i) (key_at keys j) = false.
Proof.
  unfold tie_free, key_at. revert i j.
  induction keys as [|x rest IH]; intros i j H Hij Hj; simpl in *; [lia|].
  apply andb_prop in H. destruct H as [Hx Hrest].
  destruct j as [|j]; [lia|]. destruct i as [|i].
  - intros Hnx Hny. rewrite Hnx in Hx. simpl in Hx.
    rewrite forallb_forall in Hx.
    assert (Hin : In (nth j rest NaN) rest) by (apply nth_In; lia).
    specialize (Hx _ Hin). rewrite Hny in Hx. simpl in Hx.
    apply negb_true_iff in Hx. exact Hx.
  - apply IH; [exact Hrest|lia|lia].
Qed.

Lemma stable_desc_perm keys :
  Permutation (stable_desc keys) (seq 0 (length keys)).
Proof. apply insertion_sort_perm. Qed.

Lemma stable_desc_before keys :
  StronglySorted (before keys) (stable_desc keys).
Proof.
  apply insertion_sort_stable.
  - intros i j. apply desc_leb_total.
  - intros i j k. apply desc_leb_trans.
Qed.

(** ** The positions chosen by [nargsort] *)

Lemma nonzero_isnan keys : nonzero (map isnan keys) = nan_idx keys.
Proof.
  rewrite nonzero_filter, length_map. apply filter_ext_in.
  intros i Hi. apply in_seq in Hi.
  apply (nth_map_in isnan keys i false NaN). lia.
Qed.

Lemma nonzero_notnan keys :
  nonzero (map negb (map isnan keys)) = valid_idx keys.
Proof.
  rewrite nonzero_filter, !length_map. apply filter_ext_in.
  intros i Hi. apply in_seq in Hi. rewrite map_map.
  apply (nth_map_in (fun x => negb (isnan x)) keys i false NaN). lia.
Qed.

Lemma select_notnan keys :
  select (map negb (map isnan keys)) keys =
  map (key_at keys) (valid_idx keys).
Proof.
  rewrite (select_nonzero NaN) by (rewrite !length_map; lia).
  rewrite nonzero_notnan. reflexivity.
Qed.

Lemma valid_idx_spec keys i :
  In i (valid_idx keys) <->
  (i < length keys)%nat /\ isnan (key_at keys i) = false.
Proof.
  unfold valid_idx. rewrite filter_In, in_seq, negb_true_iff. intuition lia.
Qed.

Lemma nan_idx_spec keys i :
  In i (nan_idx keys) <-> (i < length keys)%nat /\ key_at keys i = NaN.
Proof.
  unfold nan_idx. rewrite filter_In, in_seq.
  destruct (key_at keys i); simpl; intuition (try lia; try discriminate).
Qed.

Lemma valid_nan_split keys :
  Permutation (valid_idx keys ++ nan_idx keys) (seq 0 (length keys)).
Proof.
  unfold valid_idx, nan_idx.
  rewrite (filter_ext (fun i => isnan (key_at keys i))
             (fun i => negb (negb (isnan (key_at keys i)))))
    by (intros i; rewrite negb_involutive; reflexivity).
  apply filter_split.
Qed.

Section Nargsort.

Context {kind : SortKind}.
Variable keys : list num.

Local Abbreviation key := (key_at keys).
Local Abbreviation rvalid := (rev (valid_idx keys)).

Local Abbreviation sorted_valid := (sorted_valid keys).

Lemma nargsort_desc :
  nargsort false keys = rev sorted_valid ++ nan_idx keys.
Proof.
  unfold nargsort, sorted_valid. cbv zeta.
  rewrite select_notnan, nonzero_notnan, nonzero_isnan.
  rewrite <- (map_rev key (valid_idx keys)). reflexivity.
Qed.

Lemma argsort_in l j : In j (argsort l) -> (j < length l)%nat.
Proof.
  intros H. apply (Permutation_in _ (argsort_perm l)) in H.
  apply in_seq in H. lia.
Qed.

Lemma sorted_valid_perm : Permutation sorted_valid rvalid.
Proof.
  unfold sorted_valid.
  eapply Permutation_trans; [apply Permutation_map, argsort_perm|].
  rewrite length_map, map_nth_seq. reflexivity.
Qed.

Lemma rev_sorted_valid_perm : Permutation (rev sorted_valid) (valid_idx keys).
Proof.
  eapply Permutation_trans; [symmetry; apply Permutation_rev|].
  eapply Permutation_trans; [apply sorted_valid_perm|].
  symmetry. apply Permutation_rev.
Qed.

Lemma rev_sorted_valid_in x :
  In x (rev sorted_valid) ->
  (x < length keys)%nat /\ isnan (key x) = false.
Proof.
  intros H. apply (Permutation_in _ rev_sorted_valid_perm) in H.
  apply valid_idx_spec, H.
Qed.

Lemma sorted_valid_keys :
  map key sorted_valid =
  map (fun j => nth j (map key rvalid) NaN) (argsort (map key rvalid)).
Proof.
  unfold sorted_valid. rewrite map_map. apply map_ext_in. intros j Hj.
  apply argsort_in in Hj. rewrite length_map in Hj.
  symmetry. apply (nth_map_in key rvalid j NaN 0%nat Hj).
Qed.

Lemma sorted_valid_asc :
  StronglySorted (fun a b => num_leb (key a) (key b) = true) sorted_valid.
Proof.
  apply (SS_map key (fun x y => num_leb x y = true)).
  rewrite sorted_valid_keys. apply argsort_sorted.
Qed.

Lemma nargsort_perm :
  Permutation (nargsort false keys) (seq 0 (length keys)).
Proof.
  rewrite nargsort_desc.
  eapply Permutation_trans; [|apply valid_nan_split].
  apply Permutation_app_tail, rev_sorted_valid_perm.
Qed.

Lemma nan_idx_increasing : StronglySorted lt (nan_idx keys).
Proof. apply SS_filter, SS_seq. Qed.

Lemma rev_sorted_valid_weak :
  StronglySorted (fun a b => desc_leb (key a) (key b) = true)
                 (rev sorted_valid).
Proof.
  apply (SS_impl_in (fun a b => num_leb (key b) (key a) = true)).
  - apply (SS_rev (fun a b => num_leb (key a) (key b) = true)).
    apply sorted_valid_asc.
  - intros a b Ha Hb H.
    apply rev_sorted_valid_in in Ha. apply rev_sorted_valid_in in Hb.
    rewrite desc_leb_valid; [exact H|apply Ha|apply Hb].
Qed.

(** Any kind sorts by descending key with the missing keys last. *)
Lemma nargsort_weak :
  StronglySorted (fun a b => desc_leb (key a) (key b) = true)
                 (nargsort false keys).
Proof.
  rewrite nargsort_desc. apply SS_app.
  - apply rev_sorted_valid_weak.
  - apply (SS_impl_in lt); [apply nan_idx_increasing|].
    intros a b _ Hb _. apply nan_idx_spec in Hb. destruct Hb as [_ Hb].
    rewrite Hb. apply desc_leb_nan_r.
  - intros a b _ Hb. apply nan_idx_spec in Hb. destruct Hb as [_ Hb].
    rewrite Hb. apply desc_leb_nan_r.
Qed.

(** Whenever the defined keys that compare equal come out in input order,
    the whole result is in the stable descending order. *)
Lemma nargsort_before_from :
  StronglySorted
    (fun a b => desc_leb (key b) (key a) = true -> (a < b)%nat)
    (rev sorted_valid) ->
  StronglySorted (before keys) (nargsort false keys).
Proof.
  intros Hties.
  apply (SS_and (fun a b => desc_leb (key a) (key b) = true)
                (fun a b => desc_leb (key b) (key a) = true -> (a < b)%nat));
    [apply nargsort_weak|].
  rewrite nargsort_desc. apply SS_app.
  - exact Hties.
  - apply (SS_impl_in lt); [apply nan_idx_increasing|]. auto.
  - intros a b Ha Hb H. apply rev_sorted_valid_in in Ha.
    apply nan_idx_spec in Hb. destruct Hb as [_ Hb]. rewrite Hb in H.
    rewrite desc_leb_nan_l in H by apply Ha. discriminate.
Qed.

Lemma rev_sorted_valid_NoDup : NoDup (rev sorted_valid).
Proof.
  apply (Permutation_NoDup (Permutation_sym rev_sorted_valid_perm)).
  apply NoDup_filter, seq_NoDup.
Qed.

Lemma nargsort_before_tie_free :
  tie_free keys -> StronglySorted (before keys) (nargsort false keys).
Proof.
  intros Hfree. apply nargsort_before_from.
  apply (SS_impl_in
           (fun a b => desc_leb (key a) (key b) = true /\ a <> b)).
  - apply SS_and; [apply rev_sorted_valid_weak|].
    apply SS_pairs; [apply rev_sorted_valid_NoDup|auto].
  - intros a b Ha Hb [Hab Hne] Hba.
    apply rev_sorted_valid_in in Ha. apply rev_sorted_valid_in in Hb.
    destruct Ha as [Ha Va], Hb as [Hb Vb].
    destruct (Nat.lt_trichotomy a b) as [Hlt|[Heq|Hgt]];
      [exact Hlt|contradiction|].
    exfalso.
    pose proof (tie_free_nth keys b a Hfree Hgt Ha Vb Va) as Hno.
    unfold num_eqb in Hno.
    rewrite (desc_leb_valid _ _ Vb Va) in Hba.
    rewrite (desc_leb_valid _ _ Va Vb) in Hab.
    rewrite Hba, Hab in Hno. discriminate.
Qed.

(** With no two equal defined keys every kind gives the stable order. *)
Lemma nargsort_tie_free :
  tie_free keys -> nargsort false keys = stable_desc keys.
Proof.
  intros Hfree. apply (SS_unique (before keys)).
  - apply precedes_asym.
  - apply nargsort_before_tie_free, Hfree.
  - apply stable_desc_before.
  - eapply Permutation_trans; [apply nargsort_perm|].
    symmetry. apply stable_desc_perm.
Qed.

End Nargsort.

(** ** The stable kind gives the stable order *)

Lemma valid_idx_decreasing keys :
  StronglySorted (fun a b => (b < a)%nat) (rev (valid_idx keys)).
Proof. apply (SS_rev lt). apply SS_filter, SS_seq. Qed.

Lemma stable_nargsort_before keys :
  StronglySorted (before keys) (@nargsort stable_kind false keys).
Proof.
  apply nargsort_before_from.
  set (rvalid := rev (valid_idx keys)).
  set (ks := map (key_at keys) rvalid).
  apply (SS_impl_in
           (fun a b => num_leb (key_at keys a) (key_at keys b) = true ->
                       (a < b)%nat)).
  2:{ intros a b Ha Hb H Hba.
      apply rev_sorted_valid_in in Ha. apply rev_sorted_valid_in in Hb.
      apply H. rewrite <- desc_leb_valid; [exact Hba|apply Hb|apply Ha]. }
  apply (SS_rev (fun u v => num_leb (key_at keys v) (key_at keys u) = true ->
                            (v < u)%nat)).
  unfold sorted_valid. fold rvalid. fold ks.
  apply (SS_map (fun j => nth j rvalid 0%nat)
           (fun u v => num_leb (key_at keys v) (key_at keys u) = true ->
                       (v < u)%nat)).
  change (argsort ks) with (insertion_argsort ks).
  apply (SS_impl_in
           (precedes (fun i j => num_leb (key_at ks i) (key_at ks j)))).
  - apply insertion_sort_stable.
    + intros i j. apply num_leb_total.
    + intros i j k. apply num_leb_trans.
  - intros a b Ha Hb [_ Hstable] Hle.
    assert (La : (a < length rvalid)%nat).
    { apply (Permutation_in _ (insertion_argsort_perm ks)) in Ha.
      apply in_seq in Ha. unfold ks in Ha. rewrite length_map in Ha. lia. }
    assert (Lb : (b < length rvalid)%nat).
    { apply (Permutation_in _ (insertion_argsort_perm ks)) in Hb.
      apply in_seq in Hb. unfold ks in Hb. rewrite length_map in Hb. lia. }
    assert (Hab : (a < b)%nat).
    { apply Hstable. unfold key_at at 1 2. unfold ks.
      rewrite (nth_map_in (key_at keys) rvalid b NaN 0%nat Lb).
      rewrite (nth_map_in (key_at keys) rvalid a NaN 0%nat La).
      exact Hle. }
    apply (SS_nth (fun x y => (y < x)%nat) rvalid 0%nat a b
             (valid_idx_decreasing keys) Hab Lb).
Qed.

Lemma stable_nargsort keys :
  @nargsort stable_kind false keys = stable_desc keys.
Proof.
  apply (SS_unique (before keys)).
  - apply precedes_asym.
  - apply stable_nargsort_before.
  - apply stable_desc_before.
  - eapply Permutation_trans; [apply nargsort_perm|].
    symmetry. apply stable_desc_perm.
Qed.

(** ** The top-n view *)

Lemma head_take_rows n idx df :
  head n (take_rows idx df) = take_rows (firstn n idx) df.
Proof.
  unfold head, take_rows. rewrite map_map. apply map_ext. intros c. simpl.
  rewrite firstn_map. reflexivity.
Qed.

Lemma getitem_take_rows idx df col s :
  getitem df col = Ok s ->
  getitem (take_rows idx df) col =
  Ok (map (fun i => nth i s (Num NaN)) idx).
Proof.
  induction df as [|[name old] df IH]; simpl; [discriminate|].
  destruct (String.eqb name col); [|exact IH].
  intros H. inversion H. reflexivity.
Qed.

Lemma getnum_take_rows idx df col keys :
  getnum df col = Ok keys ->
  getnum (take_rows idx df) col = Ok (map (key_at keys) idx).
Proof.
  intros H. apply getnum_getitem in H. unfold getnum.
  rewrite (getitem_take_rows idx df col _ H). simpl.
  replace (map (fun i => nth i (numeric_series keys) (Num NaN)) idx)
    with (numeric_series (map (key_at keys) idx)).
  - apply numeric_values_series.
  - unfold numeric_series, key_at. rewrite map_map. apply map_ext. intros i.
    symmetry. apply (map_nth Num).
Qed.



Lemma head_all n df : well_formed df -> (nrows df <= n)%nat -> head n df = df.
Proof.
  intros [_ Hlen] Hn. unfold head.
  rewrite <- (map_id df) at 2. apply map_ext_in. intros [name s] Hc.
  rewrite Forall_forall in Hlen. specialize (Hlen _ Hc). simpl in *.
  rewrite firstn_all2 by lia. reflexivity.
Qed.

Lemma top_risk_numeric (kind : SortKind) n df keys :
  getnum df "risk_score" = Ok keys ->
  top_risk n df = Ok (take_rows (firstn n (nargsort false keys)) df).
Proof.
  intros H. unfold top_risk, sort_values. rewrite H. simpl.
  rewrite head_take_rows. reflexivity.
Qed.


Lemma nargsort_length (kind : SortKind) keys :
  length (nargsort false keys) = length keys.
Proof.
  rewrite (Permutation_length (nargsort_perm keys)). apply length_seq.
Qed.



(** The view under any sort: which rows it holds, in which order, and how
    many. *)
Lemma top_risk_view (kind : SortKind) n df keys :
  well_formed df ->
  getnum df "risk_score" = Ok keys ->
  exists out indexer,
    top_risk n df = Ok out /\
    Permutation indexer (seq 0 (nrows df)) /\
    StronglySorted
      (fun i j => desc_leb (key_at keys i) (key_at keys j) = true) indexer /\
    (exists defined,
        indexer = defined ++ nan_idx keys /\
        Permutation defined (valid_idx keys)) /\
    rows out = map (row df) (firstn n indexer) /\
    columns out = columns df /\
    getnum out "risk_score" = Ok (map (key_at keys) (firstn n indexer)) /\
    nrows out = Nat.min n (nrows df) /\
    ((nrows df <= n)%nat -> rows out = map (row df) indexer) /\
    (tie_free keys -> selectTopRisk_spec n df = Ok out).
Proof.
  intros Hwf Hk.
  pose proof (getnum_length df _ keys Hwf Hk) as Hlen.
  assert (Hne : df <> []).
  { apply getnum_getitem in Hk. exact (getitem_nonempty df _ _ Hk). }
  exists (take_rows (firstn n (nargsort false keys)) df),
    (nargsort false keys).
  split; [apply top_risk_numeric, Hk|].
  split; [rewrite <- Hlen; apply nargsort_perm|].
  split; [apply nargsort_weak|].
  split.
  { exists (rev (sorted_valid keys)).
    split; [apply nargsort_desc|apply rev_sorted_valid_perm]. }
  split; [apply (rows_take_rows _ df Hne)|].
  split; [apply columns_take_rows|].
  split; [apply getnum_take_rows, Hk|].
  split.
  { rewrite (nrows_take_rows _ df Hne), length_firstn, nargsort_length.
    rewrite Hlen. reflexivity. }
  split.
  { intros Hn. rewrite (rows_take_rows _ df Hne).
    rewrite firstn_all2 by (rewrite nargsort_length; lia). reflexivity. }
  intros Hfree. unfold selectTopRisk_spec. rewrite Hk. simpl.
  rewrite head_take_rows, (nargsort_tie_free keys Hfree). reflexivity.
Qed.

(** Under a stable sort the view is the one the specification words. *)
Lemma top_risk_stable n df :
  @top_risk stable_kind n df = selectTopRisk_spec n df.
Proof.
  unfold top_risk, sort_values, selectTopRisk_spec.
  destruct (getnum df "risk_score") as [keys|e]; simpl; [|reflexivity].
  rewrite stable_nargsort. reflexivity.
Qed.

(** C5, as the script has it: whatever the sorting algorithm, the top-n
    view is the first [n] rows of an arrangement of all rows of the table
    in descending order of [risk_score], the rows without a score last and
    in input order; it has [min n (len df)] rows, all rows of the table
    when that has at most [n]. When no two rows share a defined score the
    view is the one the specification describes, and so it is under a
    stable sort, where rows of equal score keep their input order; the
    default sort fixes no order among equal scores. *)
Theorem top_risk_sorted :
  (forall (kind : SortKind) n df keys,
      well_formed df ->
      getnum df "risk_score" = Ok keys ->
      exists out indexer,
        top_risk n df = Ok out /\
        Permutation indexer (seq 0 (nrows df)) /\
        StronglySorted
          (fun i j => desc_leb (key_at keys i) (key_at keys j) = true)
          indexer /\
        (exists defined,
            indexer = defined ++ nan_idx keys /\
            Permutation defined (valid_idx keys)) /\
        rows out = map (row df) (firstn n indexer) /\
        columns out = columns df /\
        getnum out "risk_score" =
          Ok (map (key_at keys) (firstn n indexer)) /\
        nrows out = Nat.min n (nrows df) /\
        ((nrows df <= n)%nat -> rows out = map (row df) indexer) /\
        (tie_free keys -> selectTopRisk_spec n df = Ok out)) /\
  (forall n df, @top_risk stable_kind n df = selectTopRisk_spec n df) /\
  (forall keys, StronglySorted (before keys) (stable_desc keys)).
Proof.
  split; [exact top_risk_view|].
  split; [exact top_risk_stable|exact stable_desc_before].
Qed.

Lemma top_risk_sorted_witness :
  exists out indexer,
    @top_risk numpy_quicksort 5 two_scored = Ok out /\
    Permutation indexer (seq 0 (nrows two_scored)) /\
    StronglySorted
      (fun i j => desc_leb (key_at [scenario_score; Fin 0] i)
                    (key_at [scenario_score; Fin 0] j) = true)
      indexer /\
    (exists defined,
        indexer = defined ++ nan_idx [scenario_score; Fin 0] /\
        Permutation defined (valid_idx [scenario_score; Fin 0])) /\
    rows out = map (row two_scored) (firstn 5 indexer) /\
    columns out = columns two_scored /\
    getnum out "risk_score" =
      Ok (map (key_at [scenario_score; Fin 0]) (firstn 5 indexer)) /\
    nrows out = Nat.min 5 (nrows two_scored) /\
    ((nrows two_scored <= 5)%nat ->
     rows out = map (row two_scored) indexer) /\
    (tie_free [scenario_score; Fin 0] ->
     selectTopRisk_spec 5 two_scored = Ok out).
Proof.
  apply (proj1 top_risk_sorted numpy_quicksort 5%nat two_scored
           [scenario_score; Fin 0]).
  - concrete_frame.
  - reflexivity.
Defined.

(** The five highest scores among 300 borrowers, a hundred of whom share
    the highest score: under numpy's quicksort the view holds five of
    these hundred, but not the first five of the input in their input
    order, which the stable reading of the specification asks for. *)
Lemma top_risk_ties_not_stable :
  exists df' view wanted top,
    score crowd = Ok df' /\
    @top_risk numpy_quicksort 5 df' = Ok view /\
    selectTopRisk_spec 5 df' = Ok wanted /\
    getnum view "risk_score" = Ok [top; top; top; top; top] /\
    getnum wanted "risk_score" = Ok [top; top; top; top; top] /\
    view <> wanted.
Proof.
  eexists. eexists. eexists. eexists.
  split; [vm_compute; reflexivity|]. split; [vm_compute; reflexivity|].
  split; [vm_compute; reflexivity|]. split; [vm_compute; reflexivity|].
  split; [vm_compute; reflexivity|]. discriminate.
Qed.

(** Two rows are within the insertion sort of the routine, which keeps the
    twins in their input order, whichever comes first. *)
Example twins_keep_their_order :
  score twins = Ok twins_scored /\
  @top_risk numpy_quicksort 5 twins_scored = Ok twins_scored /\
  @top_risk numpy_quicksort 5 twins_swapped = Ok twins_swapped.
Proof. repeat split; vm_compute; reflexivity. Qed.

(** ** Sorting the view again *)





(** ** Groups by region *)

Lemma Q_same_eq p q : Q_same p q = true <-> p = q.
Proof.
  destruct p as [a b], q as [c d]. unfold Q_same. simpl.
  rewrite andb_true_iff, Z.eqb_eq, Pos.eqb_eq. split.
  - intros [-> ->]. reflexivity.
  - intros H. inversion H. auto.
Qed.

Lemma cell_eqb_eq a b : cell_eqb a b = true <-> a = b.
Proof.
  destruct a as [[p| | | |]|s], b as [[q| | | |]|t]; simpl;
    try (split; [discriminate|intros H; inversion H]);
    try (split; reflexivity).
  - rewrite Q_same_eq. split; [intros ->; reflexivity|].
    intros H. inversion H. reflexivity.
  - rewrite String.eqb_eq. split; [intros ->; reflexivity|].
    intros H. inversion H. reflexivity.
Qed.

Lemma cell_eqb_refl a : cell_eqb a a = true.
Proof. apply cell_eqb_eq. reflexivity. Qed.

Lemma cell_eqb_sym a b : cell_eqb a b = cell_eqb b a.
Proof.
  destruct (cell_eqb a b) eqn:E.
  - apply cell_eqb_eq in E. subst. symmetry. apply cell_eqb_refl.
  - destruct (cell_eqb b a) eqn:E'; [|reflexivity].
    apply cell_eqb_eq in E'. subst. rewrite cell_eqb_refl in E. discriminate.
Qed.

Lemma In_unique x l : In x (unique l) <-> In x l.
Proof.
  induction l as [|a l IH]; simpl; [tauto|].
  rewrite filter_In, IH, negb_true_iff. split.
  - intros [H|[H _]]; auto.
  - intros [H|H]; [left; exact H|].
    destruct (cell_eqb a x) eqn:E; [left; apply cell_eqb_eq, E|right; auto].
Qed.

Lemma NoDup_unique l : NoDup (unique l).
Proof.
  induction l as [|a l IH]; simpl; constructor.
  - rewrite filter_In, cell_eqb_refl. intros [_ H]. discriminate.
  - apply NoDup_filter, IH.
Qed.

Lemma insert_key_perm k l : Permutation (insert_key k l) (k :: l).
Proof.
  induction l as [|h t IH]; simpl; [reflexivity|].
  destruct (cell_leb k h); [reflexivity|].
  rewrite IH. apply perm_swap.
Qed.

Lemma sort_keys_perm l : Permutation (sort_keys l) l.
Proof.
  unfold sort_keys. induction l as [|k l IH]; simpl; [reflexivity|].
  rewrite insert_key_perm. constructor. exact IH.
Qed.

Lemma isna_canon c : isna (canon c) = isna c.
Proof. destruct c as [[q| | | |]|s]; reflexivity. Qed.

Lemma group_keys_perm region :
  Permutation (group_keys region)
    (unique (filter (fun c => negb (isna c)) (map canon region))).
Proof. apply sort_keys_perm. Qed.

Lemma group_keys_NoDup region : NoDup (group_keys region).
Proof.
  apply (Permutation_NoDup (Permutation_sym (group_keys_perm region))).
  apply NoDup_unique.
Qed.

Lemma group_keys_spec region k :
  In k (group_keys region) <-> In k (map canon region) /\ isna k = false.
Proof.
  split.
  - intros H. apply (Permutation_in _ (group_keys_perm region)) in H.
    apply In_unique, filter_In in H. rewrite negb_true_iff in H. exact H.
  - intros [H1 H2].
    apply (Permutation_in _ (Permutation_sym (group_keys_perm region))).
    apply In_unique, filter_In. rewrite negb_true_iff. auto.
Qed.

Lemma length_select_mask {A B : Type} (f : B -> bool) (keys : list B)
    (l : list A) :
  length l = length keys ->
  length (select (map f keys) l) = length (filter f keys).
Proof.
  revert l. induction keys as [|b keys IH]; intros [|a l] H; simpl in *;
    try reflexivity; try discriminate.
  destruct (f b); simpl; rewrite IH by lia; reflexivity.
Qed.

Lemma group_size_pos region k :
  In k (group_keys region) -> (0 < group_size region k)%nat.
Proof.
  intros H. apply group_keys_spec in H. destruct H as [H _].
  apply in_map_iff in H. destruct H as [c [Hc Hin]].
  unfold group_size.
  assert (X : In c (filter (fun c => cell_eqb (canon c) k) region)).
  { apply filter_In. split; [exact Hin|]. apply cell_eqb_eq. exact Hc. }
  destruct (filter (fun c => cell_eqb (canon c) k) region); [destruct X|].
  simpl. lia.
Qed.

Lemma count_le xs : (count xs <= length xs)%nat.
Proof. apply filter_length_le. Qed.

Lemma count_all xs : Forall (fun x => x <> NaN) xs -> count xs = length xs.
Proof.
  unfold count. intros H. induction H as [|x xs Hx H IH]; simpl; [reflexivity|].
  destruct x; simpl; try (rewrite IH; reflexivity). contradiction.
Qed.

Lemma Forall_select {A : Type} (P : A -> Prop) mask (l : list A) :
  Forall P l -> Forall P (select mask l).
Proof.
  intros H. revert mask. induction H as [|x l Hx H IH]; intros [|b mask];
    simpl; try constructor.
  destruct b; [constructor; [exact Hx|]|]; apply IH.
Qed.

(** ** Sums over the groups *)

Lemma list_sum_perm l l' : Permutation l l' -> list_sum l = list_sum l'.
Proof.
  intros H. induction H; simpl; lia.
Qed.

Lemma sum_without a (f : cell -> nat) U :
  NoDup U ->
  list_sum (map f U) =
  ((if existsb (cell_eqb a) U then f a else 0)
   + list_sum (map f (filter (fun y => negb (cell_eqb a y)) U)))%nat.
Proof.
  intros H. induction H as [|u U Hu H IH]; simpl; [reflexivity|].
  destruct (cell_eqb a u) eqn:E; simpl.
  - apply cell_eqb_eq in E. subst u.
    assert (X : existsb (cell_eqb a) U = false).
    { apply not_true_iff_false. intros X. apply existsb_exists in X.
      destruct X as [y [Hy Ey]]. apply cell_eqb_eq in Ey. subst y.
      contradiction. }
    rewrite IH, X. reflexivity.
  - rewrite IH. lia.
Qed.

Lemma occurrences_absent a l :
  existsb (cell_eqb a) (unique l) = false -> occurrences a l = 0%nat.
Proof.
  intros H. unfold occurrences.
  rewrite (filter_ext_in _ (fun _ => false)); [rewrite filter_false; auto|].
  intros y Hy. apply not_true_iff_false. intros E.
  apply cell_eqb_eq in E. subst y.
  assert (X : existsb (cell_eqb a) (unique l) = true).
  { apply existsb_exists. exists a. split; [apply In_unique, Hy|].
    apply cell_eqb_refl. }
  congruence.
Qed.

Lemma sum_occurrences l :
  list_sum (map (fun k => occurrences k l) (unique l)) = length l.
Proof.
  induction l as [|a l IH]; simpl; [reflexivity|].
  unfold occurrences at 1. simpl. rewrite cell_eqb_refl. simpl. f_equal.
  rewrite (sum_without a _ (unique l) (NoDup_unique l)) in IH.
  rewrite <- IH.
  assert (E : map (fun k => occurrences k (a :: l))
                (filter (fun y => negb (cell_eqb a y)) (unique l)) =
              map (fun k => occurrences k l)
                (filter (fun y => negb (cell_eqb a y)) (unique l))).
  { apply map_ext_in. intros k Hk. apply filter_In in Hk.
    destruct Hk as [_ Hk]. apply negb_true_iff in Hk.
    unfold occurrences. simpl. rewrite cell_eqb_sym, Hk. reflexivity. }
  rewrite E. f_equal.
  destruct (existsb (cell_eqb a) (unique l)) eqn:X; [reflexivity|].
  apply occurrences_absent, X.
Qed.

Lemma group_size_occurrences region k :
  group_size region k = occurrences k (map canon region).
Proof.
  unfold group_size, occurrences.
  induction region as [|c region IH]; simpl; [reflexivity|].
  rewrite (cell_eqb_sym (canon c) k).
  destruct (cell_eqb k (canon c)); simpl; rewrite IH; reflexivity.
Qed.

(** With a region in every row the groups cover the table. *)
Lemma sum_group_sizes region :
  Forall (fun c => isna c = false) region ->
  list_sum (map (group_size region) (group_keys region)) = length region.
Proof.
  intros Hreg.
  assert (E : filter (fun c => negb (isna c)) (map canon region) =
              map canon region).
  { clear -Hreg. induction Hreg as [|c region Hc H IH]; simpl; [reflexivity|].
    rewrite isna_canon, Hc. simpl. rewrite IH. reflexivity. }
  rewrite (list_sum_perm _ _
             (Permutation_map (group_size region) (group_keys_perm region))).
  rewrite E.
  rewrite (map_ext _ (fun k => occurrences k (map canon region))
             (group_size_occurrences region)).
  rewrite sum_occurrences. apply length_map.
Qed.

(** ** Means *)

Lemma of_nat_pos n : (0 < n)%nat -> 0 < inject_Z (Z.of_nat n).
Proof.
  intros H. change 0 with (inject_Z 0). rewrite <- Zlt_Qlt. lia.
Qed.

Lemma div_by_count (a : Q) n :
  (0 < n)%nat ->
  num_div (Fin a) (of_nat n) = fin (a / inject_Z (Z.of_nat n)).
Proof.
  intros H. unfold num_div, of_nat, unsigned.
  destruct (Qcompare_spec (inject_Z (Z.of_nat n)) 0) as [E|E|E];
    try reflexivity.
  pose proof (of_nat_pos n H) as P. rewrite E in P.
  exfalso. apply (Qlt_irrefl _ P).
Qed.

Lemma bool_mean_range bs :
  bs <> [] ->
  exists p,
    bool_mean bs = Fin p /\ 0 <= p /\ p <= 1 /\
    p * inject_Z (Z.of_nat (length bs)) ==
      inject_Z (Z.of_nat (length (filter (fun b => b) bs))).
Proof.
  intros Hne.
  assert (Hn : (0 < length bs)%nat) by (destruct bs; [contradiction|simpl; lia]).
  pose proof (of_nat_pos _ Hn) as Hpos.
  pose proof (filter_length_le (fun b => b) bs) as Hle.
  unfold bool_mean. unfold of_nat at 1. rewrite (div_by_count _ _ Hn).
  eexists. split; [reflexivity|]. rewrite Qred_correct.
  set (t := inject_Z (Z.of_nat (length (filter (fun b => b) bs)))).
  set (n := inject_Z (Z.of_nat (length bs))) in *.
  assert (Ht : 0 <= t).
  { unfold t. change 0 with (inject_Z 0). rewrite <- Zle_Qle. lia. }
  assert (Htn : t <= n).
  { unfold t, n. rewrite <- Zle_Qle. lia. }
  split; [apply Qle_shift_div_l; [exact Hpos|lra]|].
  split; [apply Qle_shift_div_r; [exact Hpos|lra]|].
  field. intros E. rewrite E in Hpos. apply (Qlt_irrefl _ Hpos).
Qed.

Lemma total_fin qs :
  exists q, total (map Fin qs) = Fin q /\ q == fold_right Qplus 0 qs.
Proof.
  induction qs as [|a qs [q [Hq Eq]]]; simpl.
  - exists 0. split; reflexivity.
  - rewrite Hq. simpl. eexists. split; [reflexivity|].
    rewrite Qred_correct, Eq. reflexivity.
Qed.

Lemma mean_fin qs :
  qs <> [] ->
  exists m,
    mean (map Fin qs) = Fin m /\
    m * inject_Z (Z.of_nat (length qs)) == fold_right Qplus 0 qs.
Proof.
  intros Hne.
  assert (Hn : (0 < length qs)%nat) by (destruct qs; [contradiction|simpl; lia]).
  assert (F : filter notnan (map Fin qs) = map Fin qs).
  { clear. induction qs as [|a qs IH]; simpl; [|rewrite IH]; reflexivity. }
  unfold mean, count. rewrite F, length_map.
  destruct (total_fin qs) as [q [Hq Eq]]. rewrite Hq.
  rewrite (div_by_count _ _ Hn). eexists. split; [reflexivity|].
  rewrite Qred_correct, <- Eq. field.
  pose proof (of_nat_pos _ Hn) as Hpos.
  intros E. rewrite E in Hpos. apply (Qlt_irrefl _ Hpos).
Qed.

(** ** The regional summary *)

(** What the summary holds: one row per region present, in key order;
    [total_borrowers] counts the rows of the region whose score is defined,
    [avg_risk_score] is the mean of those scores, and [high_risk_pct] is the
    share of all rows of the region whose level is High. *)
Lemma region_summary_groups df region risk_score risk_level :
  well_formed df ->
  getitem df "region" = Ok region ->
  getnum df "risk_score" = Ok risk_score ->
  getitem df "risk_level" = Ok risk_level ->
  exists keys counts avgs pcts,
    region_summary df =
      Ok (Some [("region", keys);
                ("total_borrowers", map (fun c => Num (of_nat c)) counts);
                ("avg_risk_score", map Num avgs);
                ("high_risk_pct", map Num pcts)]%string) /\
    NoDup keys /\
    (forall k, In k keys <-> In k (map canon region) /\ isna k = false) /\
    counts = map (fun k => count (select (group_mask region k) risk_score))
               keys /\
    avgs = map (fun k => mean (select (group_mask region k) risk_score))
             keys /\
    length pcts = length keys /\
    (forall k, In k keys ->
       let group := select (group_mask region k) risk_score in
       length group = group_size region k /\
       (0 < group_size region k)%nat /\
       (count group <= group_size region k)%nat /\
       (Forall (fun x => x <> NaN) group -> count group = group_size region k) /\
       (forall qs, group = map Fin qs ->
          exists m, mean group = Fin m /\
            m * inject_Z (Z.of_nat (group_size region k)) ==
              fold_right Qplus 0 qs)) /\
    (forall j p, nth_error pcts j = Some p ->
       exists q, p = Fin q /\ 0 <= q /\ q <= 1) /\
    (Forall (fun c => isna c = false) region ->
     Forall (fun x => x <> NaN) risk_score ->
     list_sum counts = nrows df).
Proof.
  intros Hwf Hreg Hrs Hlv.
  pose proof (getitem_length df _ _ Hwf Hreg) as Lreg.
  pose proof (getnum_length df _ _ Hwf Hrs) as Lrs.
  pose proof (getitem_length df _ _ Hwf Hlv) as Llv.
  assert (Hcol : has_column df "region" = true).
  { apply has_column_In. apply getitem_In in Hreg.
    apply (in_map fst) in Hreg. exact Hreg. }
  assert (Lsel : forall k,
             length (select (group_mask region k) risk_score) =
             group_size region k).
  { intros k. unfold group_mask, group_size.
    apply length_select_mask. lia. }
  exists (group_keys region),
    (map (fun k => count (select (group_mask region k) risk_score))
       (group_keys region)),
    (map (fun k => mean (select (group_mask region k) risk_score))
       (group_keys region)),
    (map (fun k => bool_mean (map is_high
                                (select (group_mask region k) risk_level)))
       (group_keys region)).
  split.
  { unfold region_summary. rewrite Hcol, Hreg, Hrs, Hlv. simpl.
    unfold groupby_agg. rewrite !map_map. reflexivity. }
  split; [apply group_keys_NoDup|].
  split; [apply group_keys_spec|].
  split; [reflexivity|]. split; [reflexivity|].
  split; [apply length_map|].
  split.
  { intros k Hk group. unfold group.
    pose proof (group_size_pos region k Hk) as Hpos.
    split; [apply Lsel|]. split; [exact Hpos|].
    split; [rewrite <- Lsel; apply count_le|].
    split; [intros Hall; rewrite <- Lsel; apply count_all, Hall|].
    intros qs Hqs. rewrite Hqs.
    assert (Lq : length qs = group_size region k).
    { rewrite <- Lsel, Hqs. symmetry. apply length_map. }
    rewrite <- Lq. apply mean_fin.
    intros ->. simpl in Lq. lia. }
  split.
  { intros j p Hp. apply nth_error_In in Hp. apply in_map_iff in Hp.
    destruct Hp as [k [<- Hk]].
    destruct (bool_mean_range
                (map is_high (select (group_mask region k) risk_level)))
      as (q & Hq & H0 & H1 & _).
    - pose proof (group_size_pos region k Hk) as Hpos.
      assert (L : length (map is_high
                            (select (group_mask region k) risk_level)) =
                  group_size region k).
      { rewrite length_map. unfold group_mask, group_size.
        apply length_select_mask. lia. }
      intros E. rewrite E in L. simpl in L. lia.
    - exists q. auto. }
  intros Hnoregion Hnoscore.
  rewrite (map_ext_in _ (group_size region)).
  - rewrite (sum_group_sizes region Hnoregion). exact Lreg.
  - intros k _. rewrite <- Lsel. apply count_all.
    apply Forall_select, Hnoscore.
Qed.

Example region_scenario :
  score three_regions = Ok three_regions_scored /\
  region_summary regional_scenario =
    Ok (Some [("region", [Str "Accra"; Str "Kumasi"]);
              ("total_borrowers", [Num (Fin 2); Num (Fin 1)]);
              ("avg_risk_score", [Num (fin 0.5); Num (fin 0.9)]);
              ("high_risk_pct", [Num (fin 0.5); Num (fin 1.0)])]%string).
Proof. split; vm_compute; reflexivity. Qed.

Lemma region_summary_groups_witness :
  exists keys counts avgs pcts,
    region_summary three_regions_scored =
      Ok (Some [("region", keys);
                ("total_borrowers", map (fun c => Num (of_nat c)) counts);
                ("avg_risk_score", map Num avgs);
                ("high_risk_pct", map Num pcts)]%string) /\
    NoDup keys /\
    list_sum counts = nrows three_regions_scored.
Proof.
  destruct (region_summary_groups three_regions_scored
              [Str "Accra"; Str "Accra"; Str "Kumasi"]
              [round64 0.8; round64 0.2; round64 0.9]
              [Str "High"; Str "Low"; Str "High"])
    as (keys & counts & avgs & pcts & H1 & H2 & _ & _ & _ & _ & _ & _ & H9).
  - concrete_frame.
  - reflexivity.
  - reflexivity.
  - reflexivity.
  - exists keys, counts, avgs, pcts. split; [exact H1|]. split; [exact H2|].
    apply H9.
    + repeat constructor.
    + repeat constructor; discriminate.
Defined.

(** C6, where the script departs from it: a borrower whose score is
    undefined is left out of [total_borrowers]. Both rows are in region
    Accra, the summary reports one borrower, and the totals add up to 1
    for a table of 2 rows with a region in every row. *)
Theorem region_total_skips_undefined_score :
  validate missing_age = true /\
  score missing_age = Ok missing_age_scored /\
  region_summary missing_age_scored =
    Ok (Some [("region", [Str "Accra"]);
              ("total_borrowers", [Num (Fin 1)]);
              ("avg_risk_score", [Num (scenario_score)]);
              ("high_risk_pct", [Num (Fin 0)])]%string) /\
  group_size [Str "Accra"; Str "Accra"] (Str "Accra") = 2%nat /\
  nrows missing_age_scored = 2%nat.
Proof. repeat split; vm_compute; reflexivity. Qed.

(** ** A run of the page *)

Example page_for_two_borrowers :
  snd (@app stable_kind (Some two_borrowers) "All" 1) = Ok tt /\
  In (Table two_scored) (fst (@app stable_kind (Some two_borrowers) "All" 1)) /\
  In (Write "Borrower #1 is **nan risk**. Recommended action: **Likely Approve**.")
     (fst (@app stable_kind (Some two_borrowers) "All" 1)) /\
  In (Warning "Region column not found in uploaded data. Add a 'region' column to enable regional analysis.")
     (fst (@app stable_kind (Some two_borrowers) "All" 1)) /\
  In (Metric "Total Borrowers" (Fin 2))
     (fst (@app stable_kind (Some two_borrowers) "All" 1)).
Proof. vm_compute. intuition. Qed.

(** * Further properties of the script *)

(** ** Every score is missing or between 0 and 1 *)

Lemma clip_unit_total x : unit_or_missing (clip 0 1 x).
Proof.
  destruct (num_eq_dec_nan x) as [->|Hx]; [left; reflexivity|].
  right. apply clip_unit_range, Hx.
Qed.

Lemma cut_values x : In (cut bins labels x) level_cells.
Proof.
  destruct x as [q| | | |]; try (simpl; tauto).
  unfold cut, bins, labels, level_cells. simpl. qcases; simpl; tauto.
Qed.

Lemma cut_missing x :
  unit_or_missing x ->
  (cut bins labels x = Num NaN <->
   x = NaN \/ exists s, finite x = Some s /\ s == 0).
Proof.
  intros [->|(s & Hs & H0 & H1)].
  - simpl. split; auto.
  - destruct x as [q| | | |]; try discriminate; inversion Hs; subst.
    + destruct (cut_bins s) as (_ & _ & _ & HN). rewrite HN. split.
      * intros [H|H]; [|lra]. right. exists s. split; [reflexivity|lra].
      * intros [H|(t & E & Ht)]; [discriminate|]. inversion E; subst t.
        left. lra.
    + simpl. split; [|reflexivity]. intros _. right. exists 0.
      split; reflexivity.
Qed.

Lemma nth_error_map_inv {A B : Type} (f : A -> B) l i y :
  nth_error (map f l) i = Some y ->
  exists x, nth_error l i = Some x /\ y = f x.
Proof.
  rewrite nth_error_map. destruct (nth_error l i) as [x|]; simpl;
    [|discriminate].
  intros H. inversion H. exists x. auto.
Qed.

(** X1: in every scored table each [risk_score] is either missing or a
    finite value from 0 to 1, never an infinity, and each [risk_level] is
    Low, Medium, High or missing; the level is missing exactly when the
    score is missing or equal to 0. *)
Theorem scored_scores_in_unit df df' :
  score df = Ok df' ->
  exists risk_score risk_level,
    getnum df' "risk_score" = Ok risk_score /\
    getitem df' "risk_level" = Ok risk_level /\
    length risk_level = length risk_score /\
    forall i x,
      nth_error risk_score i = Some x ->
      unit_or_missing x /\
      exists lvl,
        nth_error risk_level i = Some lvl /\
        In lvl level_cells /\
        (lvl = Num NaN <->
         x = NaN \/ exists s, finite x = Some s /\ s == 0).
Proof.
  intros H. apply score_inv in H.
  destruct H as (income & loan & age & _ & _ & _ & ->).
  exists (score_of income loan age), (level_of income loan age).
  split; [apply scored_risk_score|]. split; [apply scored_risk_level|].
  split; [apply length_map|].
  intros i x Hx.
  assert (U : unit_or_missing x).
  { unfold score_of in Hx. apply nth_error_map_inv in Hx.
    destruct Hx as (y & _ & ->). apply clip_unit_total. }
  split; [exact U|].
  exists (cut bins labels x).
  split; [unfold level_of; rewrite nth_error_map, Hx; reflexivity|].
  split; [apply cut_values|apply cut_missing, U].
Qed.

Lemma scored_scores_in_unit_witness :
  exists risk_score risk_level,
    getnum missing_age_scored "risk_score" = Ok risk_score /\
    getitem missing_age_scored "risk_level" = Ok risk_level /\
    length risk_level = length risk_score /\
    forall i x,
      nth_error risk_score i = Some x ->
      unit_or_missing x /\
      exists lvl,
        nth_error risk_level i = Some lvl /\
        In lvl level_cells /\
        (lvl = Num NaN <->
         x = NaN \/ exists s, finite x = Some s /\ s == 0).
Proof.
  apply (scored_scores_in_unit missing_age). vm_compute. reflexivity.
Defined.

(** ** The score grows with the ratio and with the age *)

Lemma clip_mono x y :
  x <> NaN -> y <> NaN -> num_leb x y = true ->
  num_leb (clip 0 1 x) (clip 0 1 y) = true.
Proof.
  intros Hx Hy.
  destruct x as [a| | | |], y as [b| | | |]; try contradiction;
    unfold clip, num_max, num_min, num_leb; intros H;
    try discriminate; try apply Qle_bool_iff in H;
    qcases; simpl; qcases; try reflexivity; try lra;
    try (apply Qle_bool_iff; lra).
Qed.

(** X2: within a scored table the score never goes down when the ratio and
    the age go up: of two borrowers whose ages are finite binary64 values
    and whose ratios are numbers, the one whose ratio and age are both at
    least the other's has a score at least the other's. A higher income
    for the same loan thus never lowers the score. *)
Theorem score_monotone df df' :
  score df = Ok df' ->
  exists ratio age risk_score,
    getnum df' "income_to_loan_ratio" = Ok ratio /\
    getnum df "age" = Ok age /\
    getnum df' "risk_score" = Ok risk_score /\
    forall i j r r' a a' qa qa',
      nth_error ratio i = Some r -> nth_error ratio j = Some r' ->
      nth_error age i = Some a -> nth_error age j = Some a' ->
      finite a = Some qa -> is_double a = true ->
      finite a' = Some qa' -> is_double a' = true ->
      r <> NaN -> r' <> NaN ->
      num_leb r r' = true -> qa <= qa' ->
      exists s s' v v',
        nth_error risk_score i = Some s /\
        nth_error risk_score j = Some s' /\
        finite s = Some v /\ finite s' = Some v' /\ v <= v'.
Proof.
  intros H. apply score_inv in H.
  destruct H as (income & loan & age & _ & _ & Ha & ->).
  exists (ratio_of income loan), age, (score_of income loan age).
  split; [apply scored_ratio|]. split; [exact Ha|].
  split; [apply scored_risk_score|].
  intros i j r r' a a' qa qa' Hr Hr' Hai Haj Fa Da Fa' Da' Nr Nr' Hle Hage.
  pose proof (raw_score_defined r a qa Nr Fa Da) as D.
  pose proof (raw_score_defined r' a' qa' Nr' Fa' Da') as D'.
  destruct (clip_unit_range _ D) as (v & Hv & _).
  destruct (clip_unit_range _ D') as (v' & Hv' & _).
  exists (clip 0 1 (raw_score r a)), (clip 0 1 (raw_score r' a')), v, v'.
  split.
  { unfold score_of. rewrite nth_error_map, nth_error_map2, Hr, Hai.
    reflexivity. }
  split.
  { unfold score_of. rewrite nth_error_map, nth_error_map2, Hr', Haj.
    reflexivity. }
  split; [exact Hv|]. split; [exact Hv'|].
  apply (num_leb_finite _ _ v v' Hv Hv').
  apply clip_mono; try assumption.
  apply (raw_score_mono r r' a a' qa qa'); assumption.
Qed.

Lemma score_monotone_witness :
  exists ratio age risk_score,
    getnum three_regions_scored "income_to_loan_ratio" = Ok ratio /\
    getnum three_regions "age" = Ok age /\
    getnum three_regions_scored "risk_score" = Ok risk_score /\
    forall i j r r' a a' qa qa',
      nth_error ratio i = Some r -> nth_error ratio j = Some r' ->
      nth_error age i = Some a -> nth_error age j = Some a' ->
      finite a = Some qa -> is_double a = true ->
      finite a' = Some qa' -> is_double a' = true ->
      r <> NaN -> r' <> NaN ->
      num_leb r r' = true -> qa <= qa' ->
      exists s s' v v',
        nth_error risk_score i = Some s /\
        nth_error risk_score j = Some s' /\
        finite s = Some v /\ finite s' = Some v' /\ v <= v'.
Proof.
  apply (score_monotone three_regions). vm_compute. reflexivity.
Defined.

(** ** A loan amount of zero *)

Lemma float_div_zero inc ln qi ql :
  finite inc = Some qi -> finite ln = Some ql -> ql == 0 ->
  float_div inc ln =
  if Qeq_bool qi 0 then NaN else inf (xorb (negative inc) (negative ln)).
Proof.
  intros Fi Fl Z.
  assert (Ni : isnan inc = false)
    by (destruct inc; try discriminate; reflexivity).
  assert (Nl : isnan ln = false)
    by (destruct ln; try discriminate; reflexivity).
  unfold float_div. rewrite Ni, Nl, Fi, Fl. cbn [orb].
  apply Qeq_bool_iff in Z. rewrite Z. reflexivity.
Qed.

Lemma raw_score_inf neg age a :
  finite age = Some a -> is_double age = true ->
  raw_score (inf neg) age = inf neg.
Proof.
  intros Fa Da. unfold raw_score.
  destruct (float_mul_001_finite age a Fa Da) as [t T].
  assert (N : inf neg <> NaN) by (destruct neg; discriminate).
  assert (F : finite (inf neg) = None) by (destruct neg; reflexivity).
  rewrite round64_03 at 1.
  pose proof (float_mul_const (inf neg) the_03 eq_refl N) as M.
  rewrite F in M. rewrite M.
  pose proof (float_add_finite (inf neg) _ t N T) as A.
  rewrite F in A. exact A.
Qed.

Lemma raw_score_nan age : raw_score NaN age = NaN.
Proof. reflexivity. Qed.

(** X3: the division is not guarded and nothing is raised. On a row whose
    loan amount is a zero and whose age is a finite binary64 value, an
    income that is not zero gives an infinite ratio whose sign is that of
    the income for the loan amount [0.0] and the opposite one for [-0.0]:
    [+inf] gives score 1 and level High, [-inf] gives score 0 and no
    level. An income of zero gives a missing ratio, a missing score and no
    level. *)
Theorem zero_loan_amount df income loan_amount age :
  getnum df "income" = Ok income ->
  getnum df "loan_amount" = Ok loan_amount ->
  getnum df "age" = Ok age ->
  exists df' ratio risk_score risk_level,
    score df = Ok df' /\
    getnum df' "income_to_loan_ratio" = Ok ratio /\
    getnum df' "risk_score" = Ok risk_score /\
    getitem df' "risk_level" = Ok risk_level /\
    forall i inc ln a qi ql qa,
      nth_error income i = Some inc -> finite inc = Some qi ->
      nth_error loan_amount i = Some ln -> finite ln = Some ql ->
      ql == 0 ->
      nth_error age i = Some a -> finite a = Some qa ->
      is_double a = true ->
      (~ qi == 0 -> negative inc = negative ln ->
       nth_error ratio i = Some PInf /\
       nth_error risk_score i = Some (Fin 1) /\
       nth_error risk_level i = Some (Str "High")) /\
      (~ qi == 0 -> negative inc <> negative ln ->
       nth_error ratio i = Some NInf /\
       nth_error risk_score i = Some (Fin 0) /\
       nth_error risk_level i = Some (Num NaN)) /\
      (qi == 0 ->
       nth_error ratio i = Some NaN /\
       nth_error risk_score i = Some NaN /\
       nth_error risk_level i = Some (Num NaN)).
Proof.
  intros Hi Hl Ha.
  exists (scored df income loan_amount age), (ratio_of income loan_amount),
    (score_of income loan_amount age), (level_of income loan_amount age).
  split; [apply score_numeric; assumption|].
  split; [apply scored_ratio|]. split; [apply scored_risk_score|].
  split; [apply scored_risk_level|].
  intros i inc ln a qi ql qa Hinc Fi Hln Fl Hzero Hage Fa Da.
  destruct (score_of_row _ _ _ _ _ _ _ Hinc Hln Hage) as (Hr & Hs & Hv).
  rewrite (float_div_zero inc ln qi ql Fi Fl Hzero) in Hr, Hs, Hv.
  split; [|split].
  - intros Hnz Hsign.
    apply Qeq_bool_neq in Hnz. rewrite Hnz in Hr, Hs, Hv.
    rewrite Hsign, xorb_nilpotent in Hr, Hs, Hv.
    rewrite (raw_score_inf false a qa Fa Da) in Hs, Hv. auto.
  - intros Hnz Hsign.
    apply Qeq_bool_neq in Hnz. rewrite Hnz in Hr, Hs, Hv.
    assert (X : xorb (negative inc) (negative ln) = true)
      by (revert Hsign; destruct (negative inc), (negative ln);
          simpl; intros; congruence).
    rewrite X in Hr, Hs, Hv.
    rewrite (raw_score_inf true a qa Fa Da) in Hs, Hv. auto.
  - intros Hz. apply Qeq_bool_iff in Hz. rewrite Hz in Hr, Hs, Hv. auto.
Qed.

Lemma zero_loan_amount_witness :
  exists df' ratio risk_score risk_level,
    score zero_loans = Ok df' /\
    getnum df' "income_to_loan_ratio" = Ok ratio /\
    getnum df' "risk_score" = Ok risk_score /\
    getitem df' "risk_level" = Ok risk_level /\
    forall i inc ln a qi ql qa,
      nth_error [Fin 700; Fin 700; Fin (-700); Fin 0] i = Some inc ->
      finite inc = Some qi ->
      nth_error [Fin 0; NZero; NZero; Fin 0] i = Some ln ->
      finite ln = Some ql -> ql == 0 ->
      nth_error [Fin 40; Fin 40; Fin 40; Fin 40] i = Some a ->
      finite a = Some qa -> is_double a = true ->
      (~ qi == 0 -> negative inc = negative ln ->
       nth_error ratio i = Some PInf /\
       nth_error risk_score i = Some (Fin 1) /\
       nth_error risk_level i = Some (Str "High")) /\
      (~ qi == 0 -> negative inc <> negative ln ->
       nth_error ratio i = Some NInf /\
       nth_error risk_score i = Some (Fin 0) /\
       nth_error risk_level i = Some (Num NaN)) /\
      (qi == 0 ->
       nth_error ratio i = Some NaN /\
       nth_error risk_score i = Some NaN /\
       nth_error risk_level i = Some (Num NaN)).
Proof.
  apply (zero_loan_amount zero_loans
           [Fin 700; Fin 700; Fin (-700); Fin 0]
           [Fin 0; NZero; NZero; Fin 0]
           [Fin 40; Fin 40; Fin 40; Fin 40]); reflexivity.
Defined.

Example zero_loan_scores :
  exists df',
    score zero_loans = Ok df' /\
    getnum df' "income_to_loan_ratio" = Ok [PInf; NInf; PInf; NaN] /\
    getnum df' "risk_score" = Ok [Fin 1; Fin 0; Fin 1; NaN] /\
    getitem df' "risk_level" =
      Ok [Str "High"; Num NaN; Str "High"; Num NaN]%string.
Proof. eexists. repeat split; vm_compute; reflexivity. Qed.

(** ** When the advice is to review *)

Lemma advice_review borrower lvl :
  row_getitem borrower "risk_level" = Ok lvl ->
  (recommendation borrower = Ok "Review manually"%string <->
   lvl = Str "High") /\
  (recommendation borrower = Ok "Likely Approve"%string <->
   lvl <> Str "High").
Proof.
  intros H. rewrite (recommendation_cases _ _ H).
  pose proof (cell_eq_str_iff lvl "High") as Hc.
  destruct (cell_eq_str lvl "High") eqn:E.
  - assert (lvl = Str "High") by (apply Hc; reflexivity). subst lvl.
    split; split; auto; try discriminate. intros X. contradiction.
  - assert (N : lvl <> Str "High").
    { intros X. apply Hc in X. discriminate. }
    split; split; auto; try discriminate. intros X. contradiction.
Qed.

(** The level is High exactly above 0.7. *)
Lemma high_above_07 x :
  cut bins labels (clip 0 1 x) = Str "High" <->
  x <> NaN /\ num_ltb (Fin 0.7) x = true.
Proof.
  destruct x as [a| | | |].
  - unfold cut, bins, labels, clip, num_max, num_min, num_ltb, num_leb.
    qcases; simpl; qcases; simpl; qcases; simpl;
      (split; [intros H|intros [_ H]]);
      try (split; [discriminate|]); try reflexivity; try discriminate;
      exfalso; lra.
  - vm_compute. split; [intros _|reflexivity]. split;
      [discriminate|reflexivity].
  - vm_compute. split; [discriminate|]. intros [_ H]. discriminate.
  - vm_compute. split; [discriminate|]. intros [H _]. contradiction.
  - vm_compute. split; [discriminate|]. intros [_ H]. discriminate.
Qed.

(** X4: the advice is "Review manually" exactly when the linear value
    [income / loan_amount * 0.3 + age * 0.01], computed in binary64, is a
    number above 0.7, and "Likely Approve" in every other case, a missing
    linear value included. The bound is met by the rounded value: the
    borrower aged 55 with income 1000 and loan 2000, whose exact value is
    0.7, gets 0.7000000000000001 and is to be reviewed. *)
Theorem review_threshold df income loan_amount age :
  getnum df "income" = Ok income ->
  getnum df "loan_amount" = Ok loan_amount ->
  getnum df "age" = Ok age ->
  exists df',
    score df = Ok df' /\
    forall i inc ln a,
      nth_error income i = Some inc ->
      nth_error loan_amount i = Some ln ->
      nth_error age i = Some a ->
      (i < nrows df')%nat ->
      let linear :=
        float_add (float_mul (float_div inc ln) (round64 0.3))
                  (float_mul a (round64 0.01)) in
      exists borrower,
        loc df' i = Ok borrower /\
        (recommendation borrower = Ok "Review manually"%string <->
         linear <> NaN /\ num_ltb (Fin 0.7) linear = true) /\
        (recommendation borrower = Ok "Likely Approve"%string <->
         ~ (linear <> NaN /\ num_ltb (Fin 0.7) linear = true)).
Proof.
  intros Hi Hl Ha.
  exists (scored df income loan_amount age).
  split; [apply score_numeric; assumption|].
  intros i inc ln a Hinc Hln Hage Hlt linear.
  exists (row (scored df income loan_amount age) i).
  split; [unfold loc; apply Nat.ltb_lt in Hlt; rewrite Hlt; reflexivity|].
  destruct (score_of_row _ _ _ _ _ _ _ Hinc Hln Hage) as (_ & _ & Hv).
  assert (Hlvl : row_getitem (row (scored df income loan_amount age) i)
                   "risk_level" = Ok (cut bins labels (clip 0 1 linear))).
  { rewrite (row_getitem_row _ _ _ i
               (scored_risk_level df income loan_amount age)).
    rewrite (nth_error_nth _ _ (Num NaN) Hv). reflexivity. }
  destruct (advice_review _ _ Hlvl) as [R A].
  rewrite R, A, (high_above_07 linear). tauto.
Qed.

Lemma review_threshold_witness :
  exists df',
    score at_threshold = Ok df' /\
    forall i inc ln a,
      nth_error [Fin 1000; Fin 1000] i = Some inc ->
      nth_error [Fin 2000; Fin 2000] i = Some ln ->
      nth_error [Fin 55; Fin 54] i = Some a ->
      (i < nrows df')%nat ->
      let linear :=
        float_add (float_mul (float_div inc ln) (round64 0.3))
                  (float_mul a (round64 0.01)) in
      exists borrower,
        loc df' i = Ok borrower /\
        (recommendation borrower = Ok "Review manually"%string <->
         linear <> NaN /\ num_ltb (Fin 0.7) linear = true) /\
        (recommendation borrower = Ok "Likely Approve"%string <->
         ~ (linear <> NaN /\ num_ltb (Fin 0.7) linear = true)).
Proof.
  apply (review_threshold at_threshold [Fin 1000; Fin 1000]
           [Fin 2000; Fin 2000] [Fin 55; Fin 54]); reflexivity.
Defined.

Example review_at_threshold :
  exists df' first second,
    score at_threshold = Ok df' /\
    getnum df' "risk_score" =
      Ok [round64 0.7000000000000001; round64 0.6900000000000001] /\
    loc df' 0 = Ok first /\
    recommendation first = Ok "Review manually"%string /\
    loc df' 1 = Ok second /\
    recommendation second = Ok "Likely Approve"%string.
Proof.
  eexists. eexists. eexists.
  split; [vm_compute; reflexivity|]. split; [vm_compute; reflexivity|].
  split; [vm_compute; reflexivity|]. split; [vm_compute; reflexivity|].
  split; vm_compute; reflexivity.
Qed.

(** ** Scoring a scored table *)

Lemma setitem_same df col s : getitem df col = Ok s -> setitem df col s = df.
Proof.
  induction df as [|[name old] df IH]; simpl; [discriminate|].
  destruct (String.eqb name col).
  - intros H. inversion H. reflexivity.
  - intros H. rewrite (IH H). reflexivity.
Qed.

Lemma scored_required df income loan_amount age col :
  ~ In col derived_cols ->
  getnum (scored df income loan_amount age) col = getnum df col.
Proof.
  intros H. unfold scored.
  rewrite !getnum_setitem_other; [reflexivity| | |];
    intros <-; apply H; simpl; auto.
Qed.

Lemma not_derived col :
  In col required_cols -> ~ In col derived_cols.
Proof.
  intros [<-|[<-|[<-|[]]]] [H|[H|[H|[]]]]; discriminate.
Qed.

(** X5: scoring is idempotent: a table that came out of scoring, such as a
    downloaded report that is uploaded again, is left exactly as it is when
    it is scored once more. *)
Theorem score_idempotent df df' : score df = Ok df' -> score df' = Ok df'.
Proof.
  intros H. apply score_inv in H.
  destruct H as (income & loan & age & Hi & Hl & Ha & ->).
  set (out := scored df income loan age).
  assert (Hi' : getnum out "income" = Ok income)
    by (unfold out; rewrite scored_required;
        [exact Hi|apply not_derived; simpl; auto]).
  assert (Hl' : getnum out "loan_amount" = Ok loan)
    by (unfold out; rewrite scored_required;
        [exact Hl|apply not_derived; simpl; auto]).
  assert (Ha' : getnum out "age" = Ok age)
    by (unfold out; rewrite scored_required;
        [exact Ha|apply not_derived; simpl; auto]).
  rewrite (score_numeric out income loan age Hi' Hl' Ha'). f_equal.
  unfold scored at 1.
  rewrite (setitem_same out "income_to_loan_ratio")
    by (apply getnum_getitem, scored_ratio).
  rewrite (setitem_same out "risk_score")
    by (apply getnum_getitem, scored_risk_score).
  apply setitem_same, scored_risk_level.
Qed.

Lemma score_idempotent_witness : score two_scored = Ok two_scored.
Proof.
  apply (score_idempotent two_borrowers). vm_compute. reflexivity.
Defined.

(** ** Text in a required column *)


Lemma has_column_getitem df col :
  has_column df col = true -> exists s, getitem df col = Ok s.
Proof.
  unfold has_column, columns.
  induction df as [|[name old] df IH]; simpl; [discriminate|].
  rewrite (String.eqb_sym col name).
  destruct (String.eqb name col); simpl; [eauto|exact IH].
Qed.




Example ages_in_words_raise : score ages_in_words = Raise TypeError.
Proof. reflexivity. Qed.

(** ** The level views split the table *)

Lemma scored_well_formed df income loan_amount age :
  well_formed df ->
  getnum df "income" = Ok income ->
  getnum df "loan_amount" = Ok loan_amount ->
  getnum df "age" = Ok age ->
  well_formed (scored df income loan_amount age) /\
  nrows (scored df income loan_amount age) = nrows df.
Proof.
  intros Hwf Hi Hl Ha.
  pose proof (getnum_length df _ _ Hwf Hi) as Li.
  pose proof (getnum_length df _ _ Hwf Hl) as Ll.
  pose proof (getnum_length df _ _ Hwf Ha) as La.
  destruct (length_score_of income loan_amount age (nrows df) Li Ll La)
    as (Lr & Ls & Lv).
  assert (Hne : df <> []).
  { apply getnum_getitem in Hi. exact (getitem_nonempty df _ _ Hi). }
  assert (Step : forall d col s,
             well_formed d -> d <> [] -> nrows d = nrows df ->
             length s = nrows df ->
             well_formed (setitem d col s) /\ setitem d col s <> [] /\
             nrows (setitem d col s) = nrows df).
  { intros d col s Wd Nd Rd Ls'. rewrite <- Rd in Ls'.
    split; [apply well_formed_setitem; assumption|].
    split; [apply setitem_nonempty|].
    rewrite nrows_setitem; assumption. }
  unfold scored.
  destruct (Step df "income_to_loan_ratio"%string
              (numeric_series (ratio_of income loan_amount)) Hwf Hne eq_refl)
    as (W1 & N1 & R1);
    [unfold numeric_series; rewrite length_map; exact Lr|].
  destruct (Step _ "risk_score"%string
              (numeric_series (score_of income loan_amount age)) W1 N1 R1)
    as (W2 & N2 & R2);
    [unfold numeric_series; rewrite length_map; exact Ls|].
  destruct (Step _ "risk_level"%string
              (level_of income loan_amount age) W2 N2 R2 Lv)
    as (W3 & _ & R3).
  split; assumption.
Qed.

Lemma nrows_boolean_index {B : Type} df (f : B -> bool) (keys : list B) :
  well_formed df -> df <> [] -> length keys = nrows df ->
  nrows (boolean_index df (map f keys)) = length (filter f keys).
Proof.
  intros [_ Hlen] Hne Hk. destruct df as [|[name s] df]; [contradiction|].
  simpl in *. apply length_select_mask. lia.
Qed.

Lemma level_counts levels :
  Forall (fun c => In c level_cells) levels ->
  (length (filter (fun c => cell_eq_str c "Low") levels)
   + length (filter (fun c => cell_eq_str c "Medium") levels)
   + length (filter (fun c => cell_eq_str c "High") levels)
   + length (filter isna levels))%nat = length levels.
Proof.
  intros H. induction H as [|c levels Hc H IH]; [reflexivity|].
  destruct Hc as [<-|[<-|[<-|[<-|[]]]]]; simpl; lia.
Qed.

(** X7: in a scored table every row is in exactly one of the views for
    Low, Medium and High, or has no level: the row counts of the three
    views and the number of rows without a level add up to the number of
    rows, and the "High Risk Borrowers" figure is the size of the High
    view. *)
Theorem level_views_partition df income loan_amount age :
  well_formed df ->
  getnum df "income" = Ok income ->
  getnum df "loan_amount" = Ok loan_amount ->
  getnum df "age" = Ok age ->
  exists df' levels low medium high,
    score df = Ok df' /\
    getitem df' "risk_level" = Ok levels /\
    filtered_df df' "Low" = Ok (Some low) /\
    filtered_df df' "Medium" = Ok (Some medium) /\
    filtered_df df' "High" = Ok (Some high) /\
    (nrows low + nrows medium + nrows high + length (filter isna levels))%nat
      = nrows df /\
    nrows (boolean_index df' (map is_high levels)) = nrows high.
Proof.
  intros Hwf Hi Hl Ha.
  destruct (scored_well_formed df income loan_amount age Hwf Hi Hl Ha)
    as [W N].
  set (out := scored df income loan_amount age) in *.
  pose proof (scored_risk_level df income loan_amount age) as Hlv.
  fold out in Hlv.
  set (levels := level_of income loan_amount age) in *.
  pose proof (getitem_length out _ levels W Hlv) as Llv.
  pose proof (getitem_nonempty out _ levels Hlv) as Hne.
  exists out, levels.
  exists (boolean_index out (map (fun c => cell_eq_str c "Low") levels)),
    (boolean_index out (map (fun c => cell_eq_str c "Medium") levels)),
    (boolean_index out (map (fun c => cell_eq_str c "High") levels)).
  split; [apply score_numeric; assumption|]. split; [exact Hlv|].
  split; [unfold filtered_df; simpl; rewrite Hlv; reflexivity|].
  split; [unfold filtered_df; simpl; rewrite Hlv; reflexivity|].
  split; [unfold filtered_df; simpl; rewrite Hlv; reflexivity|].
  split; [|reflexivity].
  rewrite !(nrows_boolean_index out _ levels W Hne Llv).
  rewrite level_counts; [rewrite Llv; exact N|].
  unfold levels, level_of. apply Forall_map. apply Forall_forall.
  intros x _. apply cut_values.
Qed.

Lemma level_views_partition_witness :
  exists df' levels low medium high,
    score two_borrowers = Ok df' /\
    getitem df' "risk_level" = Ok levels /\
    filtered_df df' "Low" = Ok (Some low) /\
    filtered_df df' "Medium" = Ok (Some medium) /\
    filtered_df df' "High" = Ok (Some high) /\
    (nrows low + nrows medium + nrows high + length (filter isna levels))%nat
      = nrows two_borrowers /\
    nrows (boolean_index df' (map is_high levels)) = nrows high.
Proof.
  apply (level_views_partition two_borrowers [Fin 1000; Fin 0]
           [Fin 2000; Fin 500] [Fin 30; Fin 0]).
  - concrete_frame.
  - reflexivity.
  - reflexivity.
  - reflexivity.
Defined.

(** ** The rows kept in the top view *)

Lemma SS_firstn_skipn {A : Type} (R : A -> A -> Prop) n l x y :
  StronglySorted R l -> In x (firstn n l) -> In y (skipn n l) -> R x y.
Proof.
  intros H. revert n. induction H as [|a l Hl IH Ha]; intros n Hx Hy.
  - destruct n; destruct Hx.
  - destruct n as [|n]; [destruct Hx|]. simpl in Hx, Hy.
    destruct Hx as [<-|Hx].
    + rewrite Forall_forall in Ha. apply Ha.
      rewrite <- (firstn_skipn n l). apply in_or_app. right. exact Hy.
    + apply (IH n Hx Hy).
Qed.

Lemma desc_leb_spec x y :
  desc_leb x y = true <-> y = NaN \/ (x <> NaN /\ num_leb y x = true).
Proof.
  destruct x as [a| | | |], y as [b| | | |]; simpl; split; intros H; auto;
    try discriminate;
    try (right; split; [discriminate|assumption]);
    try (right; split; [discriminate|reflexivity]);
    try (destruct H as [H|[H1 H2]]; congruence).
Qed.

(** X8: whatever the sorting algorithm, the top view holds the best rows:
    every row kept has a score at least as high as every row left out, a
    missing score counting lowest; kept and left-out rows together are the
    rows of the table. *)
Theorem top_risk_dominates (kind : SortKind) n df keys :
  well_formed df ->
  getnum df "risk_score" = Ok keys ->
  exists out kept left_out,
    top_risk n df = Ok out /\
    rows out = map (row df) kept /\
    Permutation (kept ++ left_out) (seq 0 (nrows df)) /\
    length kept = Nat.min n (nrows df) /\
    forall i j,
      In i kept -> In j left_out ->
      key_at keys j = NaN \/
      (key_at keys i <> NaN /\
       num_leb (key_at keys j) (key_at keys i) = true).
Proof.
  intros Hwf Hk.
  pose proof (getnum_length df _ keys Hwf Hk) as Hlen.
  assert (Hne : df <> []).
  { apply getnum_getitem in Hk. exact (getitem_nonempty df _ _ Hk). }
  exists (take_rows (firstn n (nargsort false keys)) df),
    (firstn n (nargsort false keys)), (skipn n (nargsort false keys)).
  split; [apply top_risk_numeric, Hk|].
  split; [apply (rows_take_rows _ df Hne)|].
  split; [rewrite firstn_skipn, <- Hlen; apply nargsort_perm|].
  split; [rewrite length_firstn, nargsort_length, Hlen; reflexivity|].
  intros i j Hi Hj. apply desc_leb_spec.
  apply (SS_firstn_skipn
           (fun a b => desc_leb (key_at keys a) (key_at keys b) = true)
           n (nargsort false keys) i j (nargsort_weak keys) Hi Hj).
Qed.

Lemma top_risk_dominates_witness :
  exists out kept left_out,
    @top_risk numpy_quicksort 2 three_regions_scored = Ok out /\
    rows out = map (row three_regions_scored) kept /\
    Permutation (kept ++ left_out) (seq 0 (nrows three_regions_scored)) /\
    length kept = Nat.min 2 (nrows three_regions_scored) /\
    forall i j,
      In i kept -> In j left_out ->
      key_at [round64 0.8; round64 0.2; round64 0.9] j = NaN \/
      (key_at [round64 0.8; round64 0.2; round64 0.9] i <> NaN /\
       num_leb (key_at [round64 0.8; round64 0.2; round64 0.9] j)
               (key_at [round64 0.8; round64 0.2; round64 0.9] i) = true).
Proof.
  apply (top_risk_dominates numpy_quicksort 2%nat three_regions_scored
           [round64 0.8; round64 0.2; round64 0.9]).
  - concrete_frame.
  - reflexivity.
Defined.

(** X9: whatever the sorting algorithm, the descending sort puts the rows
    without a score after all the others and keeps them in input order. *)
Theorem sort_values_missing_last (kind : SortKind) df keys :
  getnum df "risk_score" = Ok keys ->
  exists sorted defined,
    sort_values "risk_score" false df = Ok sorted /\
    rows sorted = map (row df) (defined ++ nan_idx keys) /\
    Permutation defined (valid_idx keys) /\
    StronglySorted lt (nan_idx keys) /\
    (forall i, In i (nan_idx keys) <->
               (i < length keys)%nat /\ key_at keys i = NaN) /\
    (forall i, In i defined ->
               (i < length keys)%nat /\ key_at keys i <> NaN).
Proof.
  intros Hk.
  assert (Hne : df <> []).
  { apply getnum_getitem in Hk. exact (getitem_nonempty df _ _ Hk). }
  exists (take_rows (nargsort false keys) df), (rev (sorted_valid keys)).
  split; [unfold sort_values; rewrite Hk; reflexivity|].
  split; [rewrite (rows_take_rows _ df Hne), nargsort_desc; reflexivity|].
  split; [apply rev_sorted_valid_perm|].
  split; [apply nan_idx_increasing|].
  split; [apply nan_idx_spec|].
  intros i Hi. apply rev_sorted_valid_in in Hi. destruct Hi as [H1 H2].
  split; [exact H1|]. intros E. rewrite E in H2. discriminate.
Qed.

Lemma sort_values_missing_last_witness :
  exists sorted defined,
    @sort_values numpy_quicksort "risk_score" false missing_age_scored
      = Ok sorted /\
    rows sorted =
      map (row missing_age_scored) (defined ++ nan_idx [scenario_score; NaN]) /\
    Permutation defined (valid_idx [scenario_score; NaN]) /\
    StronglySorted lt (nan_idx [scenario_score; NaN]) /\
    (forall i, In i (nan_idx [scenario_score; NaN]) <->
               (i < length [scenario_score; NaN])%nat /\
               key_at [scenario_score; NaN] i = NaN) /\
    (forall i, In i defined ->
               (i < length [scenario_score; NaN])%nat /\
               key_at [scenario_score; NaN] i <> NaN).
Proof.
  apply (sort_values_missing_last numpy_quicksort missing_age_scored
           [scenario_score; NaN]).
  reflexivity.
Defined.

(** ** The groups of the regional summary *)

Lemma cell_leb_total a b : cell_leb a b = true \/ cell_leb b a = true.
Proof.
  destruct a as [x|s], b as [y|t]; simpl; auto.
  - apply num_leb_total.
  - apply String.leb_total.
Qed.

Lemma insert_key_sorted k l :
  Sorted (fun a b => cell_leb a b = true) l ->
  Sorted (fun a b => cell_leb a b = true) (insert_key k l).
Proof.
  intros H. induction H as [|h t Ht IH Hh]; simpl.
  - repeat constructor.
  - destruct (cell_leb k h) eqn:E.
    + constructor; [constructor; assumption|]. constructor. exact E.
    + constructor; [exact IH|].
      destruct t as [|h' t]; simpl.
      * constructor. destruct (cell_leb_total k h); congruence.
      * destruct (cell_leb k h'); constructor.
        -- destruct (cell_leb_total k h); congruence.
        -- inversion Hh. assumption.
Qed.

Lemma group_keys_sorted region :
  Sorted (fun a b => cell_leb a b = true) (group_keys region).
Proof.
  unfold group_keys, sort_keys.
  induction (unique (filter (fun c => negb (isna c)) (map canon region)))
    as [|k l IH]; simpl; [constructor|].
  apply insert_key_sorted, IH.
Qed.

Lemma filter_present_canon region :
  filter (fun c => negb (isna c)) (map canon region) =
  map canon (filter (fun c => negb (isna c)) region).
Proof.
  induction region as [|c region IH]; simpl; [reflexivity|].
  rewrite isna_canon. destruct (isna c); simpl; rewrite IH; reflexivity.
Qed.

Lemma group_keys_present region :
  group_keys (filter (fun c => negb (isna c)) region) = group_keys region.
Proof.
  unfold group_keys. rewrite !filter_present_canon.
  rewrite (filter_ext_in (fun c => negb (isna c)) (fun _ => true)
             (filter (fun c => negb (isna c)) region)).
  - rewrite filter_true. reflexivity.
  - intros c Hc. apply filter_In in Hc. apply Hc.
Qed.

Lemma group_size_present region k :
  isna k = false ->
  group_size (filter (fun c => negb (isna c)) region) k = group_size region k.
Proof.
  intros Hk. unfold group_size.
  induction region as [|c region IH]; simpl; [reflexivity|].
  destruct (isna c) eqn:E; simpl.
  - destruct (cell_eqb (canon c) k) eqn:X; [|exact IH].
    apply cell_eqb_eq in X. rewrite <- X, isna_canon in Hk. congruence.
  - destruct (cell_eqb (canon c) k); simpl; rewrite IH; reflexivity.
Qed.

(** Rows without a region belong to no group. *)
Lemma sum_group_sizes_present region :
  list_sum (map (group_size region) (group_keys region)) =
  length (filter (fun c => negb (isna c)) region).
Proof.
  rewrite <- (sum_group_sizes (filter (fun c => negb (isna c)) region)).
  - rewrite group_keys_present. apply f_equal, map_ext_in.
    intros k Hk. symmetry. apply group_size_present.
    apply group_keys_spec in Hk. apply Hk.
  - apply Forall_forall. intros c Hc. apply filter_In in Hc.
    destruct Hc as [_ Hc]. apply negb_true_iff, Hc.
Qed.

Lemma region_summary_numeric df region risk_score risk_level :
  getitem df "region" = Ok region ->
  getnum df "risk_score" = Ok risk_score ->
  getitem df "risk_level" = Ok risk_level ->
  region_summary df =
  Ok (Some
        (summary_of (group_keys region)
           (map (fun k => count (select (group_mask region k) risk_score))
              (group_keys region))
           (map (fun k => mean (select (group_mask region k) risk_score))
              (group_keys region))
           (map (fun k =>
                   bool_mean
                     (map is_high (select (group_mask region k) risk_level)))
              (group_keys region)))).
Proof.
  intros Hreg Hrs Hlv.
  assert (Hcol : has_column df "region" = true).
  { apply has_column_In. apply getitem_In in Hreg.
    apply (in_map fst) in Hreg. exact Hreg. }
  unfold region_summary. rewrite Hcol, Hreg, Hrs, Hlv. simpl.
  unfold groupby_agg, summary_of. rewrite !map_map. reflexivity.
Qed.

(** X10: the regional summary has one row for each region that occurs, in
    increasing order of the region and without repetition; a row without a
    region is in no group. [total_borrowers] counts the rows of the region
    whose score is defined, at most the rows of the region; when every
    score is defined the totals add up to the number of rows that have a
    region. *)
Theorem region_groups df region risk_score risk_level :
  well_formed df ->
  getitem df "region" = Ok region ->
  getnum df "risk_score" = Ok risk_score ->
  getitem df "risk_level" = Ok risk_level ->
  exists keys counts avgs pcts,
    region_summary df = Ok (Some (summary_of keys counts avgs pcts)) /\
    NoDup keys /\
    Sorted (fun a b => cell_leb a b = true) keys /\
    (forall k, In k keys <-> In k (map canon region) /\ isna k = false) /\
    length counts = length keys /\
    (forall j k,
        nth_error keys j = Some k ->
        nth_error counts j =
          Some (count (select (group_mask region k) risk_score)) /\
        (count (select (group_mask region k) risk_score)
         <= group_size region k)%nat /\
        (0 < group_size region k)%nat) /\
    (Forall (fun x => x <> NaN) risk_score ->
     list_sum counts = length (filter (fun c => negb (isna c)) region)).
Proof.
  intros Hwf Hreg Hrs Hlv.
  pose proof (getitem_length df _ _ Hwf Hreg) as Lreg.
  pose proof (getnum_length df _ _ Hwf Hrs) as Lrs.
  assert (Lsel : forall k,
             length (select (group_mask region k) risk_score) =
             group_size region k).
  { intros k. unfold group_mask, group_size.
    apply length_select_mask. lia. }
  eexists _, _, _, _.
  split; [apply (region_summary_numeric df region risk_score risk_level);
          assumption|].
  split; [apply group_keys_NoDup|].
  split; [apply group_keys_sorted|].
  split; [apply group_keys_spec|].
  split; [apply length_map|].
  split.
  - intros j k Hk. split; [rewrite nth_error_map, Hk; reflexivity|].
    split; [rewrite <- Lsel; apply count_le|].
    apply group_size_pos. apply (nth_error_In _ _ Hk).
  - intros Hdef. rewrite <- sum_group_sizes_present.
    apply f_equal, map_ext. intros k. rewrite <- Lsel.
    apply count_all, Forall_select, Hdef.
Qed.

Lemma region_groups_witness :
  exists keys counts avgs pcts,
    region_summary region_gap_scored =
      Ok (Some (summary_of keys counts avgs pcts)) /\
    NoDup keys /\
    Sorted (fun a b => cell_leb a b = true) keys /\
    (forall k,
        In k keys <->
        In k (map canon [Str "Kumasi"; Num NaN; Str "Accra"]) /\
        isna k = false) /\
    length counts = length keys /\
    (forall j k,
        nth_error keys j = Some k ->
        nth_error counts j =
          Some (count (select
                         (group_mask [Str "Kumasi"; Num NaN; Str "Accra"] k)
                         [round64 0.8; round64 0.2; round64 0.9])) /\
        (count (select (group_mask [Str "Kumasi"; Num NaN; Str "Accra"] k)
                  [round64 0.8; round64 0.2; round64 0.9])
         <= group_size [Str "Kumasi"; Num NaN; Str "Accra"] k)%nat /\
        (0 < group_size [Str "Kumasi"; Num NaN; Str "Accra"] k)%nat) /\
    (Forall (fun x => x <> NaN) [round64 0.8; round64 0.2; round64 0.9] ->
     list_sum counts =
       length (filter (fun c => negb (isna c))
                 [Str "Kumasi"; Num NaN; Str "Accra"])).
Proof.
  apply (region_groups region_gap_scored
           [Str "Kumasi"; Num NaN; Str "Accra"]
           [round64 0.8; round64 0.2; round64 0.9]
           [Str "High"; Str "Low"; Str "High"]).
  - concrete_frame.
  - reflexivity.
  - reflexivity.
  - reflexivity.
Defined.

Example region_gap_summary :
  region_summary region_gap_scored =
  Ok (Some (summary_of [Str "Accra"; Str "Kumasi"] [1%nat; 1%nat]
              [round64 0.9; round64 0.8] [Fin 1; Fin 1])).
Proof. vm_compute. reflexivity. Qed.

(** ** The figures of the regional summary *)

Lemma of_nat_succ n :
  inject_Z (Z.of_nat (S n)) == inject_Z (Z.of_nat n) + 1.
Proof.
  replace (Z.of_nat (S n)) with (Z.of_nat n + 1)%Z by lia.
  rewrite inject_Z_plus. reflexivity.
Qed.

Lemma total_unit xs :
  Forall unit_or_missing xs ->
  exists q,
    total (filter notnan xs) = Fin q /\ 0 <= q /\
    q <= inject_Z (Z.of_nat (count xs)).
Proof.
  intros H. unfold count, total.
  induction H as [|x xs Hx H (q & Eq & H0 & H1)].
  - exists 0. simpl. repeat split; try reflexivity; apply Qle_refl.
  - destruct Hx as [->|(s & Hs & S0 & S1)].
    + change (filter notnan (NaN :: xs)) with (filter notnan xs).
      exists q. auto.
    + destruct x as [t| | | |]; try discriminate; inversion Hs; subst.
      * change (filter notnan (Fin s :: xs))
          with (Fin s :: filter notnan xs).
        cbn [fold_right length]. rewrite Eq.
        cbv beta iota delta [num_add fin unsigned].
        eexists. split; [reflexivity|].
        rewrite Qred_correct, of_nat_succ. split; lra.
      * change (filter notnan (NZero :: xs))
          with (NZero :: filter notnan xs).
        cbn [fold_right length]. rewrite Eq.
        cbv beta iota delta [num_add fin unsigned].
        eexists. split; [reflexivity|].
        rewrite Qred_correct, of_nat_succ. split; lra.
Qed.

Lemma mean_unit xs :
  Forall unit_or_missing xs ->
  (count xs = 0%nat /\ mean xs = NaN) \/
  ((0 < count xs)%nat /\ exists m, mean xs = Fin m /\ 0 <= m /\ m <= 1).
Proof.
  intros H. destruct (total_unit xs H) as (q & Eq & H0 & H1).
  unfold mean. rewrite Eq.
  destruct (count xs) as [|n] eqn:E.
  - left. split; [reflexivity|].
    unfold count in E. apply length_zero_iff_nil in E. rewrite E in Eq.
    simpl in Eq. inversion Eq. reflexivity.
  - right. split; [lia|].
    assert (Hn : (0 < S n)%nat) by lia.
    pose proof (of_nat_pos _ Hn) as Hpos.
    rewrite (div_by_count q (S n) Hn).
    eexists. split; [reflexivity|]. rewrite Qred_correct.
    split; [apply Qle_shift_div_l; [exact Hpos|lra]|].
    apply Qle_shift_div_r; [exact Hpos|lra].
Qed.

Lemma score_of_unit income loan_amount age :
  Forall unit_or_missing (score_of income loan_amount age).
Proof.
  unfold score_of. apply Forall_map. apply Forall_forall.
  intros x _. apply clip_unit_total.
Qed.

Lemma scored_region df income loan_amount age :
  getitem (scored df income loan_amount age) "region" = getitem df "region".
Proof.
  unfold scored. rewrite !getitem_setitem_other by discriminate.
  reflexivity.
Qed.

(** X11: in the regional summary of a scored table every figure is in
    range: [high_risk_pct] is a value from 0 to 1, and [avg_risk_score] is a
    value from 0 to 1 for a region with at least one defined score; for a
    region none of whose scores is defined the total is 0 and the average
    is missing. *)
Theorem region_figures_in_range df income loan_amount age region :
  well_formed df ->
  getnum df "income" = Ok income ->
  getnum df "loan_amount" = Ok loan_amount ->
  getnum df "age" = Ok age ->
  getitem df "region" = Ok region ->
  exists df' keys counts avgs pcts,
    score df = Ok df' /\
    region_summary df' = Ok (Some (summary_of keys counts avgs pcts)) /\
    length counts = length keys /\
    length avgs = length keys /\
    length pcts = length keys /\
    (forall j c a,
        nth_error counts j = Some c -> nth_error avgs j = Some a ->
        (c = 0%nat /\ a = NaN) \/
        ((0 < c)%nat /\ exists m, a = Fin m /\ 0 <= m /\ m <= 1)) /\
    (forall j p,
        nth_error pcts j = Some p ->
        exists q, p = Fin q /\ 0 <= q /\ q <= 1).
Proof.
  intros Hwf Hi Hl Ha Hreg.
  destruct (scored_well_formed df income loan_amount age Hwf Hi Hl Ha)
    as [W N].
  set (out := scored df income loan_amount age) in *.
  assert (Hreg' : getitem out "region" = Ok region)
    by (unfold out; rewrite scored_region; exact Hreg).
  pose proof (scored_risk_score df income loan_amount age) as Hrs.
  pose proof (scored_risk_level df income loan_amount age) as Hlv.
  fold out in Hrs, Hlv.
  pose proof (getitem_length out _ _ W Hreg') as Lreg.
  pose proof (getitem_length out _ _ W Hlv) as Llv.
  exists out. eexists _, _, _, _.
  split; [apply score_numeric; assumption|].
  split; [apply (region_summary_numeric out region _ _ Hreg' Hrs Hlv)|].
  split; [apply length_map|]. split; [apply length_map|].
  split; [apply length_map|].
  split.
  - intros j c a Hc Hav.
    apply nth_error_map_inv in Hc. destruct Hc as (k & Hk & ->).
    rewrite nth_error_map, Hk in Hav. inversion Hav.
    apply mean_unit, Forall_select, score_of_unit.
  - intros j p Hp. apply nth_error_In in Hp. apply in_map_iff in Hp.
    destruct Hp as [k [<- Hk]].
    destruct (bool_mean_range
                (map is_high
                   (select (group_mask region k)
                      (level_of income loan_amount age))))
      as (q & Hq & H0 & H1 & _).
    + pose proof (group_size_pos region k Hk) as Hpos.
      assert (L : length (map is_high
                            (select (group_mask region k)
                               (level_of income loan_amount age))) =
                  group_size region k).
      { rewrite length_map. unfold group_mask, group_size.
        apply length_select_mask. lia. }
      intros E. rewrite E in L. simpl in L. lia.
    + exists q. auto.
Qed.

Lemma region_figures_in_range_witness :
  exists df' keys counts avgs pcts,
    score missing_age = Ok df' /\
    region_summary df' = Ok (Some (summary_of keys counts avgs pcts)) /\
    length counts = length keys /\
    length avgs = length keys /\
    length pcts = length keys /\
    (forall j c a,
        nth_error counts j = Some c -> nth_error avgs j = Some a ->
        (c = 0%nat /\ a = NaN) \/
        ((0 < c)%nat /\ exists m, a = Fin m /\ 0 <= m /\ m <= 1)) /\
    (forall j p,
        nth_error pcts j = Some p ->
        exists q, p = Fin q /\ 0 <= q /\ q <= 1).
Proof.
  apply (region_figures_in_range missing_age [Fin 1000; Fin 500]
           [Fin 2000; Fin 1000] [Fin 30; NaN] [Str "Accra"; Str "Accra"]).
  - concrete_frame.
  - reflexivity.
  - reflexivity.
  - reflexivity.
  - reflexivity.
Defined.

(** ** With and without a region column *)

Lemma scored_has_region df income loan_amount age :
  has_column (scored df income loan_amount age) "region" =
  has_column df "region".
Proof.
  unfold scored. rewrite !has_column_setitem. simpl.
  rewrite !orb_false_r. reflexivity.
Qed.

(** X12: the regional summary depends on the uploaded file alone: after
    scoring it is skipped exactly when the file has no [region] column,
    since scoring adds none; when the file has one, the summary is built
    under the four headings [region], [total_borrowers], [avg_risk_score]
    and [high_risk_pct] and nothing is raised. *)
Theorem region_summary_needs_region df df' :
  score df = Ok df' ->
  (region_summary df' = Ok None <-> ~ In "region"%string (columns df)) /\
  (In "region"%string (columns df) ->
   exists summary,
     region_summary df' = Ok (Some summary) /\
     columns summary = summary_cols).
Proof.
  intros H. apply score_inv in H.
  destruct H as (income & loan & age & _ & _ & _ & ->).
  set (out := scored df income loan age).
  pose proof (scored_has_region df income loan age) as Hc. fold out in Hc.
  assert (Yes : In "region"%string (columns df) ->
                exists summary,
                  region_summary out = Ok (Some summary) /\
                  columns summary = summary_cols).
  { intros Hin. apply has_column_In in Hin. rewrite <- Hc in Hin.
    destruct (has_column_getitem out _ Hin) as [region Hreg].
    eexists. split.
    - unfold region_summary. rewrite Hin, Hreg.
      unfold out. rewrite scored_risk_score, scored_risk_level.
      reflexivity.
    - reflexivity. }
  split; [|exact Yes]. split.
  - intros Hnone Hin. destruct (Yes Hin) as (summary & E & _).
    rewrite E in Hnone. discriminate.
  - intros Hno. unfold region_summary.
    destruct (has_column out "region") eqn:E; [|reflexivity].
    exfalso. apply Hno. apply has_column_In. symmetry. exact Hc.
Qed.

Lemma region_summary_needs_region_witness :
  (region_summary two_scored = Ok None <->
   ~ In "region"%string (columns two_borrowers)) /\
  (In "region"%string (columns two_borrowers) ->
   exists summary,
     region_summary two_scored = Ok (Some summary) /\
     columns summary = summary_cols).
Proof.
  apply (region_summary_needs_region two_borrowers). vm_compute. reflexivity.
Defined.

(** ** The overview table *)

Lemma getitems_scored df income loan_amount age :
  getnum df "income" = Ok income ->
  getnum df "loan_amount" = Ok loan_amount ->
  getnum df "age" = Ok age ->
  getitems (scored df income loan_amount age) overview_cols =
  Ok [("age", numeric_series age); ("income", numeric_series income);
      ("loan_amount", numeric_series loan_amount);
      ("income_to_loan_ratio",
        numeric_series (ratio_of income loan_amount));
      ("risk_score", numeric_series (score_of income loan_amount age));
      ("risk_level", level_of income loan_amount age)]%string.
Proof.
  intros Hi Hl Ha.
  assert (Gi := getnum_getitem _ _ _ Hi).
  assert (Gl := getnum_getitem _ _ _ Hl).
  assert (Ga := getnum_getitem _ _ _ Ha).
  unfold overview_cols, getitems.
  assert (R : forall col, In col required_cols ->
            getitem (scored df income loan_amount age) col = getitem df col).
  { intros col Hc. unfold scored.
    rewrite !getitem_setitem_other; [reflexivity| | |];
      intros <-; apply (not_derived _ Hc); simpl; auto. }
  rewrite !R by (simpl; auto). rewrite Ga, Gi, Gl.
  rewrite (getnum_getitem _ _ _ (scored_ratio df income loan_amount age)).
  rewrite (getnum_getitem _ _ _
             (scored_risk_score df income loan_amount age)).
  rewrite scored_risk_level. reflexivity.
Qed.

(** X13: after scoring, the overview never fails and shows exactly the six
    columns [age], [income], [loan_amount], [income_to_loan_ratio],
    [risk_score], [risk_level], in this order and with the cells of the
    scored table, whatever other columns (a region, say) and whatever
    column order the file has. *)
Theorem overview_table df df' :
  score df = Ok df' ->
  exists overview,
    getitems df' overview_cols = Ok overview /\
    columns overview = overview_cols /\
    forall col,
      In col overview_cols -> getitem overview col = getitem df' col.
Proof.
  intros H. apply score_inv in H.
  destruct H as (income & loan & age & Hi & Hl & Ha & ->).
  eexists. split; [apply getitems_scored; assumption|].
  split; [reflexivity|].
  assert (R : forall col, In col required_cols ->
            getitem (scored df income loan age) col = getitem df col).
  { intros col Hc. unfold scored.
    rewrite !getitem_setitem_other; [reflexivity| | |];
      intros <-; apply (not_derived _ Hc); simpl; auto. }
  intros col [<-|[<-|[<-|[<-|[<-|[<-|[]]]]]]]; simpl.
  - rewrite R by (simpl; auto). symmetry. apply getnum_getitem, Ha.
  - rewrite R by (simpl; auto). symmetry. apply getnum_getitem, Hi.
  - rewrite R by (simpl; auto). symmetry. apply getnum_getitem, Hl.
  - symmetry. apply getnum_getitem, scored_ratio.
  - symmetry. apply getnum_getitem, scored_risk_score.
  - symmetry. apply scored_risk_level.
Qed.

Lemma overview_table_witness :
  exists overview,
    getitems three_regions_scored overview_cols = Ok overview /\
    columns overview = overview_cols /\
    forall col,
      In col overview_cols ->
      getitem overview col = getitem three_regions_scored col.
Proof.
  apply (overview_table three_regions). vm_compute. reflexivity.
Defined.

(** ** A run without an exception *)

Ltac page_step :=
  match goal with
  | |- context [page_bind (emit ?w) ?k ?p] =>
      change (page_bind (emit w) k p) with (k tt (p ++ [w])); cbv beta
  | |- context [page_bind (page_bind (emit ?w) ?f) ?k ?p] =>
      change (page_bind (page_bind (emit w) f) k p)
        with (page_bind (f tt) k (p ++ [w])); cbv beta
  | |- context [page_bind (lift (Ok ?a)) ?k ?p] =>
      change (page_bind (lift (Ok a)) k p) with (k a p); cbv beta match
  end.

Lemma validate_numeric df income loan_amount age :
  getnum df "income" = Ok income ->
  getnum df "loan_amount" = Ok loan_amount ->
  getnum df "age" = Ok age ->
  validate df = true.
Proof.
  intros Hi Hl Ha. unfold validate, required_cols. simpl.
  rewrite !andb_true_iff. repeat split; try reflexivity;
    apply has_column_In.
  - apply getnum_getitem, getitem_In in Ha. apply (in_map fst) in Ha.
    exact Ha.
  - apply getnum_getitem, getitem_In in Hi. apply (in_map fst) in Hi.
    exact Hi.
  - apply getnum_getitem, getitem_In in Hl. apply (in_map fst) in Hl.
    exact Hl.
Qed.

(** X14: on a table with numeric [age], [income] and [loan_amount] and a
    selected borrower within the table, the script runs to its end without
    an exception, for every selected level and every sorting algorithm. The
    page has no error box; it shows the number of rows of the file as
    "Total Borrowers", the top-5 view and the advice for the selected
    borrower, and it ends with the download of the whole scored table,
    which does not depend on the selected level. *)
Theorem app_completes (kind : SortKind) df selected_level selected_index
    income loan_amount age :
  well_formed df ->
  getnum df "income" = Ok income ->
  getnum df "loan_amount" = Ok loan_amount ->
  getnum df "age" = Ok age ->
  (selected_index < nrows df)%nat ->
  exists page df' top borrower level advice,
    score df = Ok df' /\
    top_risk 5 df' = Ok top /\
    loc df' selected_index = Ok borrower /\
    row_getitem borrower "risk_level" = Ok level /\
    recommendation borrower = Ok advice /\
    app (Some df) selected_level selected_index = (page, Ok tt) /\
    (forall msg, ~ In (ErrorBox msg) page) /\
    In (Metric "Total Borrowers" (of_nat (nrows df))) page /\
    In (Table top) page /\
    In (Write ("Borrower #" ++ str_of_nat selected_index ++ " is **"
                 ++ str_of_label level
                 ++ " risk**. Recommended action: **" ++ advice
                 ++ "**.")%string) page /\
    exists front,
      page = front ++ [Download "credit_risk_report.csv" df'].
Proof.
  intros Hwf Hi Hl Ha Hidx.
  pose proof (validate_numeric df income loan_amount age Hi Hl Ha) as Hv.
  destruct (scored_well_formed df income loan_amount age Hwf Hi Hl Ha)
    as [W N].
  set (out := scored df income loan_amount age) in *.
  pose proof (score_numeric df income loan_amount age Hi Hl Ha) as Hscore.
  pose proof (getitems_scored df income loan_amount age Hi Hl Ha) as Hov.
  pose proof (scored_risk_level df income loan_amount age) as Hlv.
  pose proof (scored_risk_score df income loan_amount age) as Hrs.
  fold out in Hscore, Hov, Hlv, Hrs. unfold overview_cols in Hov.
  pose proof (top_risk_numeric kind 5 out _ Hrs) as Htop.
  assert (Hloc : loc out selected_index = Ok (row out selected_index)).
  { unfold loc. rewrite N. apply Nat.ltb_lt in Hidx. rewrite Hidx.
    reflexivity. }
  pose proof (row_getitem_row out _ _ selected_index Hlv) as Hcell.
  pose proof (recommendation_cases _ _ Hcell) as Hadv.
  assert (Hfil : exists f, filtered_df out selected_level = Ok f).
  { unfold filtered_df. destruct (negb (String.eqb selected_level "All"));
      [rewrite Hlv|]; simpl; eauto. }
  destruct Hfil as [f Hfil].
  assert (Hsum : exists r, region_summary out = Ok r).
  { unfold region_summary.
    destruct (has_column out "region") eqn:E; [|eauto].
    destruct (has_column_getitem out _ E) as [reg Hreg].
    rewrite Hreg, Hrs, Hlv. simpl. eauto. }
  destruct Hsum as [r Hsum].
  assert (Run : exists page,
             app (Some df) selected_level selected_index = (page, Ok tt) /\
             (forall msg, ~ In (ErrorBox msg) page) /\
             In (Metric "Total Borrowers" (of_nat (nrows out))) page /\
             In (Table (take_rows
                          (firstn 5
                             (nargsort false
                                (score_of income loan_amount age))) out))
                page /\
             In (Write ("Borrower #" ++ str_of_nat selected_index
                          ++ " is **"
                          ++ str_of_label
                               (nth selected_index
                                  (level_of income loan_amount age)
                                  (Num NaN))
                          ++ " risk**. Recommended action: **"
                          ++ (if cell_eq_str
                                   (nth selected_index
                                      (level_of income loan_amount age)
                                      (Num NaN)) "High"
                              then "Review manually" else "Likely Approve")
                          ++ "**.")%string) page /\
             exists front,
               page = front ++ [Download "credit_risk_report.csv" out]).
  { destruct f as [view|], r as [by_region|]; eexists; (split; [
      unfold app; rewrite Hv; cbn [negb];
      repeat page_step; rewrite Hscore; repeat page_step;
      rewrite Hov; repeat page_step; rewrite Hlv; repeat page_step;
      rewrite Hrs; repeat page_step; rewrite Hfil; repeat page_step;
      rewrite Htop; repeat page_step; rewrite Hloc; repeat page_step;
      rewrite Hadv; repeat page_step; rewrite Hcell; repeat page_step;
      rewrite Hsum; repeat page_step; unfold emit; reflexivity |]);
      (split; [intros msg X; rewrite !in_app_iff in X; simpl in X;
               intuition discriminate|]);
      (split; [rewrite !in_app_iff; simpl; tauto|]);
      (split; [rewrite !in_app_iff; simpl; tauto|]);
      (split; [rewrite !in_app_iff; simpl; tauto|]);
      eexists; reflexivity. }
  destruct Run as (page & R1 & R2 & R3 & R4 & R5 & R6).
  exists page, out. do 4 eexists.
  split; [exact Hscore|]. split; [exact Htop|]. split; [exact Hloc|].
  split; [exact Hcell|]. split; [exact Hadv|]. split; [exact R1|].
  split; [exact R2|]. split; [rewrite <- N; exact R3|].
  split; [exact R4|]. split; [exact R5|exact R6].
Qed.

Lemma app_completes_witness :
  exists page df' top borrower level advice,
    score two_borrowers = Ok df' /\
    @top_risk numpy_quicksort 5 df' = Ok top /\
    loc df' 1 = Ok borrower /\
    row_getitem borrower "risk_level" = Ok level /\
    recommendation borrower = Ok advice /\
    @app numpy_quicksort (Some two_borrowers) "Medium" 1 = (page, Ok tt) /\
    (forall msg, ~ In (ErrorBox msg) page) /\
    In (Metric "Total Borrowers" (of_nat (nrows two_borrowers))) page /\
    In (Table top) page /\
    In (Write ("Borrower #" ++ str_of_nat 1 ++ " is **"
                 ++ str_of_label level
                 ++ " risk**. Recommended action: **" ++ advice
                 ++ "**.")%string) page /\
    exists front,
      page = front ++ [Download "credit_risk_report.csv" df'].
Proof.
  apply (app_completes numpy_quicksort two_borrowers "Medium" 1%nat
           [Fin 1000; Fin 0] [Fin 2000; Fin 500] [Fin 30; Fin 0]).
  - concrete_frame.
  - reflexivity.
  - reflexivity.
  - reflexivity.
  - simpl. lia.
Defined.
